(** * Scoped resources and the balanced spawner of using-cps-in-golang

    A shallow embedding of [resource_management_file.go],
    [resource_management_sql.go], the [SafeWaitGroup] wrapper and the
    [mainErr] call sites.

    The file system and the SQL driver are external collaborators.  A Go
    function that talks to them becomes a program tree ([Prog]) whose nodes
    are the primitive calls it makes; an environment ([Env]) answers every
    call, knowing the whole history of calls made so far, and running a
    program yields its Go return value together with the list of primitive
    calls it made, in order. *)

From Stdlib Require Import List ZArith String DecimalString Bool Lia Arith.
Import ListNotations.
Local Open Scope string_scope.
Local Open Scope list_scope.

Set Implicit Arguments.

(* ================================================================= *)
(** ** Go values *)

(** A non-nil Go [error] value. *)
Inductive GoError : Type :=
| MkError (msg : string).

(** The Go type [error]: [None] is [nil]. *)
Definition error : Type := option GoError.

(** A Go pair [(T, error)] as the standard library returns it: the value
    is meaningful exactly when the error is [nil], and no function of this
    repository reads the value when the error is not [nil]. *)
Inductive result (T : Type) : Type :=
| Ok (t : T)
| Fail (e : GoError).
Arguments Fail {T} e.

(** [*os.File]: the descriptor and the name [file.Name()] reports. *)
Record File : Type := MkFile { file_fd : Z; file_name : string }.

(** [*sql.DB], [*sql.Tx], [*sql.Rows]: opaque handles. *)
Inductive DB : Type := MkDB (id : Z).
Inductive Tx : Type := MkTx (id : Z).
Inductive Rows : Type := MkRows (id : Z).
(** [sql.Result]; every caller in the repository drops it. *)
Inductive SqlResult : Type := MkSqlResult (id : Z).

(** [os.O_CREATE | os.O_WRONLY] on Linux ([O_CREAT = 0x40],
    [O_WRONLY = 0x1]) and the permission bits [0600]. *)
Definition O_WRONLY : Z := 1.
Definition O_CREATE : Z := 64.
Definition NewFileFlag : Z := Z.lor O_CREATE O_WRONLY.
Definition OwnerRWOnly : Z := 384.

(* ================================================================= *)
(** ** Primitive calls, programs and their runs *)

(** The collaborator primitives the repository calls, indexed by what
    they return. *)
Inductive Call : Type -> Type :=
| OsOpenFile (path : string) (flags : Z) (perm : Z) : Call (result File)
| FileWrite (f : File) (b : string) : Call (Z * error)
| FileClose (f : File) : Call error
| IoutilTempFile (dir pattern : string) : Call (result File)
| OsRemove (name : string) : Call error
| SqlOpen (driverName dataSourceName : string) : Call (result DB)
| DBClose (db : DB) : Call error
| DBExec (db : DB) (query : string) (args : list string)
    : Call (SqlResult * error)
| DBBegin (db : DB) : Call (result Tx)
| TxCommit (tx : Tx) : Call error
| TxRollback (tx : Tx) : Call error
| TxExec (tx : Tx) (query : string) (args : list string)
    : Call (SqlResult * error)
| TxQuery (tx : Tx) (query : string) (args : list string) : Call (result Rows)
| RowsNext (rows : Rows) : Call bool
| RowsScan (rows : Rows) : Call (string * error)
| RowsClose (rows : Rows) : Call error.

(** One primitive call together with what it returned. *)
Inductive Event : Type :=
| Ev (R : Type) (c : Call R) (r : R).

Definition Trace : Type := list Event.

(** A Go function body: it returns, or makes a call and goes on with
    the answer. *)
Inductive Prog (A : Type) : Type :=
| Ret (a : A)
| Vis (R : Type) (c : Call R) (k : R -> Prog A).
Arguments Ret {A} a.
Arguments Vis {A R} c k.

Fixpoint bind {A B : Type} (p : Prog A) (f : A -> Prog B) : Prog B :=
  match p with
  | Ret a => f a
  | Vis c k => Vis c (fun r => bind (k r) f)
  end.

Definition call {R : Type} (c : Call R) : Prog R := Vis c Ret.

Declare Scope prog_scope.
Delimit Scope prog_scope with prog.
Notation "x <- p ;; q" := (bind p (fun x => q))
  (at level 61, p at next level, right associativity) : prog_scope.
Notation "' pat <- p ;; q" := (bind p (fun x => match x with pat => q end))
  (at level 61, pat pattern, p at next level, right associativity) : prog_scope.
Local Open Scope prog_scope.

(** The environment: the answer to a call, given every call made before. *)
Definition Env : Type := Trace -> forall R : Type, Call R -> R.

(** [run env h p]: the value [p] returns and the calls it makes, when it
    starts after the history [h]. *)
Fixpoint run {A : Type} (env : Env) (h : Trace) (p : Prog A) : A * Trace :=
  match p with
  | Ret a => (a, [])
  | Vis c k =>
      let r := env h _ c in
      let (a, t) := run env (h ++ [Ev c r]) (k r) in
      (a, Ev c r :: t)
  end.

Definition eval {A : Type} (env : Env) (h : Trace) (p : Prog A) : A :=
  fst (run env h p).

Definition exec {A : Type} (env : Env) (h : Trace) (p : Prog A) : Trace :=
  snd (run env h p).

(* ================================================================= *)
(** ** Deferred calls

    Go runs the deferred calls of a function when it returns, last
    deferred first, after the [return] statement has stored the result.
    A deferred closure may read and assign the local variables it
    captures (the store [L]); none of the functions below has a named
    result, so no deferred call can change the value being returned, and
    what a deferred call itself returns is dropped. *)

Section Defer.
Variable L : Type.

(** A deferred call, acting on the captured local variables. *)
Definition Deferred : Type := L -> Prog L.

(** The stack of deferred calls, most recent first. *)
Fixpoint run_deferred (ds : list Deferred) (l : L) : Prog L :=
  match ds with
  | [] => Ret l
  | d :: ds' => l' <- d l;; run_deferred ds' l'
  end.

(** [return v] in a function whose deferred calls are [ds] and whose
    local variables are [l]. *)
Definition go_return {A : Type} (ds : list Deferred) (l : L) (v : A)
  : Prog A :=
  _ <- run_deferred ds l;; Ret v.
End Defer.

(** [defer f(args)] where [f] captures no variable: the call is made and
    its result dropped. *)
Definition defer_call {R : Type} (c : Call R) : Deferred unit :=
  fun l => _ <- call c;; Ret l.

(* ================================================================= *)
(** ** resource_management_file.go *)

Definition FileResourceCallback : Type := File -> Prog error.
Definition FileResource : Type := FileResourceCallback -> Prog error.

Definition writeFile1 (path content : string) : Prog error :=
  r <- call (OsOpenFile path NewFileFlag OwnerRWOnly);;
  match r with
  | Fail err => Ret (Some err)
  | Ok file =>
      let defers := [] in
      let defers := defer_call (FileClose file) :: defers in
      '(_, err) <- call (FileWrite file content);;
      match err with
      | Some _ => go_return defers tt err
      | None =>
          '(_, err) <- call (FileWrite file content);;
          go_return defers tt err
      end
  end.

(** The closure deferred by [writeFile1_WithErrorHandling]; it captures
    [file] and the local variable [err]:
    [closeErr := file.Close(); if err == nil { err = closeErr }]. *)
Definition deferred_close (file : File) : Deferred error :=
  fun err =>
    closeErr <- call (FileClose file);;
    match err with
    | None => Ret closeErr
    | Some _ => Ret err
    end.

(** The result of this function is unnamed and [err] is a local
    variable: [return err] stores the value of [err] as the result and
    then the deferred closure runs, on the variable. *)
Definition writeFile1_WithErrorHandling (path content : string)
  : Prog error :=
  r <- call (OsOpenFile path NewFileFlag OwnerRWOnly);;
  match r with
  | Fail err => Ret (Some err)
  | Ok file =>
      let defers := [] in
      let defers := deferred_close file :: defers in
      '(_, err) <- call (FileWrite file content);;
      match err with
      | Some _ => go_return defers err err
      | None =>
          '(_, err) <- call (FileWrite file content);;
          go_return defers err err
      end
  end.

Definition NewFileResource (path : string) (flags perm : Z) : FileResource :=
  fun callback =>
    r <- call (OsOpenFile path flags perm);;
    match r with
    | Fail err => Ret (Some err)
    | Ok file =>
        err <- callback file;;
        match err with
        | Some _ => _ <- call (FileClose file);; Ret err
        | None => call (FileClose file)
        end
    end.

(** [file.Name()] is evaluated when the [defer] statement is executed,
    the call to [os.Remove] when the function returns. *)
Definition TempFileResource : FileResource :=
  fun callback =>
    r <- call (IoutilTempFile "" "");;
    match r with
    | Fail err => Ret (Some err)
    | Ok file =>
        let defers := [] in
        let defers := defer_call (FileClose file) :: defers in
        let defers := defer_call (OsRemove (file_name file)) :: defers in
        v <- callback file;;
        go_return defers tt v
    end.

(** The callback shared by [writeFile2] and [writeFile3]. *)
Definition write_twice (content : string) : FileResourceCallback :=
  fun file =>
    '(_, err) <- call (FileWrite file content);;
    match err with
    | Some _ => Ret err
    | None =>
        '(_, err) <- call (FileWrite file content);;
        Ret err
    end.

Definition writeFile2 (path content : string) : Prog error :=
  NewFileResource path NewFileFlag OwnerRWOnly (write_twice content).

Definition writeFile3 (fr : FileResource) (content : string) : Prog error :=
  fr (write_twice content).

(* ================================================================= *)
(** ** resource_management_sql.go *)

(** [DBResource], [TxResource] and [RowsResource] are three structs of
    one shape: a single field [Use] holding the function that takes the
    callback. *)
Record Resource (H : Type) : Type :=
  MkResource { Use : (H -> Prog error) -> Prog error }.

Definition DBResource : Type := Resource DB.
Definition TxResource : Type := Resource Tx.
Definition RowsResource : Type := Resource Rows.

Definition NewDBResource (driverName datasourceName : string) : DBResource :=
  {| Use := fun callback =>
       r <- call (SqlOpen driverName datasourceName);;
       match r with
       | Fail err => Ret (Some err)
       | Ok db =>
           err <- callback db;;
           match err with
           | Some _ => _ <- call (DBClose db);; Ret err
           | None => call (DBClose db)
           end
       end |}.

Definition RunTransaction (db : DB) : TxResource :=
  {| Use := fun callback =>
       r <- call (DBBegin db);;
       match r with
       | Fail err => Ret (Some err)
       | Ok tx =>
           err <- callback tx;;
           match err with
           | Some _ => _ <- call (TxRollback tx);; Ret err
           | None => call (TxCommit tx)
           end
       end |}.

Definition QueryRows (tx : Tx) (query : string) (args : list string)
  : RowsResource :=
  {| Use := fun callback =>
       r <- call (TxQuery tx query args);;
       match r with
       | Fail err => Ret (Some err)
       | Ok rows =>
           err <- callback rows;;
           match err with
           | Some _ => _ <- call (RowsClose rows);; Ret err
           | None => call (RowsClose rows)
           end
       end |}.

(** The raw string literal of the source, with its line breaks and
    tabs. *)
Definition newline : string := String (Ascii.ascii_of_nat 10) EmptyString.
Definition tab : string := String (Ascii.ascii_of_nat 9) EmptyString.

Definition createTableQuery : string :=
  Eval cbv in
  (newline ++ tab ++ "CREATE TABLE IF NOT EXISTS names (" ++
   newline ++ tab ++ tab ++ "id INTEGER PRIMARY KEY AUTOINCREMENT," ++
   newline ++ tab ++ tab ++ "name VARCHAR NOT NULL" ++
   newline ++ tab ++ ")" ++ newline)%string.

Definition initDB (db : DB) : Prog error :=
  '(_, err) <- call (DBExec db createTableQuery []);;
  Ret err.

(** The nested call of [mainErr]: a temporary file inside the callback
    of another temporary file, both written to in the inner callback. *)
Definition nested_temp_files : Prog error :=
  TempFileResource (fun fd1 =>
    TempFileResource (fun fd2 =>
      '(_, err) <- call (FileWrite fd1 "hi!");;
      match err with
      | Some _ => Ret err
      | None =>
          '(_, err) <- call (FileWrite fd2 "hi!");;
          Ret err
      end)).

(* ================================================================= *)
(** ** Concrete environments *)

(** What every primitive answers when it succeeds.  Handles are numbered
    by the length of the history, so two files opened in one run differ. *)
Definition ok_response (h : Trace) (R : Type) (c : Call R) : R :=
  let n := List.length h in
  match c in Call R return R with
  | OsOpenFile path _ _ => Ok (MkFile (Z.of_nat n) path)
  | FileWrite _ b => (Z.of_nat (String.length b), None)
  | FileClose _ => None
  | IoutilTempFile _ _ =>
      Ok (MkFile (Z.of_nat n)
                 ("/tmp/" ++ NilEmpty.string_of_uint (Nat.to_uint n)))
  | OsRemove _ => None
  | SqlOpen _ _ => Ok (MkDB (Z.of_nat n))
  | DBClose _ => None
  | DBExec _ _ _ => (MkSqlResult (Z.of_nat n), None)
  | DBBegin _ => Ok (MkTx (Z.of_nat n))
  | TxCommit _ => None
  | TxRollback _ => None
  | TxExec _ _ _ => (MkSqlResult (Z.of_nat n), None)
  | TxQuery _ _ _ => Ok (MkRows (Z.of_nat n))
  | RowsNext _ => true
  | RowsScan _ => ("Hello, #1", None)
  | RowsClose _ => None
  end.

(** What every primitive answers when it fails with [e]. *)
Definition fail_response (e : GoError) (R : Type) (c : Call R) : R :=
  match c in Call R return R with
  | OsOpenFile _ _ _ => Fail e
  | FileWrite _ _ => (0%Z, Some e)
  | FileClose _ => Some e
  | IoutilTempFile _ _ => Fail e
  | OsRemove _ => Some e
  | SqlOpen _ _ => Fail e
  | DBClose _ => Some e
  | DBExec _ _ _ => (MkSqlResult 0, Some e)
  | DBBegin _ => Fail e
  | TxCommit _ => Some e
  | TxRollback _ => Some e
  | TxExec _ _ _ => (MkSqlResult 0, Some e)
  | TxQuery _ _ _ => Fail e
  | RowsNext _ => false
  | RowsScan _ => ("", Some e)
  | RowsClose _ => Some e
  end.

(** The kinds of primitive, to say which ones fail. *)
Inductive Kind : Type :=
| KOpen | KWrite | KClose | KTemp | KRemove | KSqlOpen | KDBClose | KExec
| KBegin | KCommit | KRollback | KQuery | KNext | KScan | KRowsClose.

Definition kind_of (R : Type) (c : Call R) : Kind :=
  match c with
  | OsOpenFile _ _ _ => KOpen
  | FileWrite _ _ => KWrite
  | FileClose _ => KClose
  | IoutilTempFile _ _ => KTemp
  | OsRemove _ => KRemove
  | SqlOpen _ _ => KSqlOpen
  | DBClose _ => KDBClose
  | DBExec _ _ _ => KExec
  | DBBegin _ => KBegin
  | TxCommit _ => KCommit
  | TxRollback _ => KRollback
  | TxExec _ _ _ => KExec
  | TxQuery _ _ _ => KQuery
  | RowsNext _ => KNext
  | RowsScan _ => KScan
  | RowsClose _ => KRowsClose
  end.

Definition Kind_eqb (a b : Kind) : bool :=
  match a, b with
  | KOpen, KOpen | KWrite, KWrite | KClose, KClose | KTemp, KTemp
  | KRemove, KRemove | KSqlOpen, KSqlOpen | KDBClose, KDBClose
  | KExec, KExec | KBegin, KBegin | KCommit, KCommit
  | KRollback, KRollback | KQuery, KQuery | KNext, KNext | KScan, KScan
  | KRowsClose, KRowsClose => true
  | _, _ => false
  end.

(** The environment in which exactly the primitives of the kinds in
    [bad] fail, each with an error naming the kind of call. *)
Definition kind_error (k : Kind) : GoError :=
  MkError match k with
          | KOpen => "open failed" | KWrite => "write failed"
          | KClose => "close failed" | KTemp => "tempfile failed"
          | KRemove => "remove failed" | KSqlOpen => "sql open failed"
          | KDBClose => "db close failed" | KExec => "exec failed"
          | KBegin => "begin failed" | KCommit => "commit failed"
          | KRollback => "rollback failed" | KQuery => "query failed"
          | KNext => "next failed" | KScan => "scan failed"
          | KRowsClose => "rows close failed"
          end.

Definition env_failing (bad : list Kind) : Env :=
  fun h R c =>
    if existsb (Kind_eqb (kind_of c)) bad
    then fail_response (kind_error (kind_of c)) c
    else ok_response h c.

Arguments env_failing bad h R c : clear implicits.

Definition env_ok : Env := env_failing [].
Arguments env_ok h R c : clear implicits.

(** A callback that makes no call and returns [v]. *)
Definition just {H : Type} (v : error) : H -> Prog error := fun _ => Ret v.

Definition boom : GoError := MkError "work failed".

(* ================================================================= *)
(** ** The balanced spawner: [SafeWaitGroup]

    Goroutines are threads of instructions over one [sync.WaitGroup]
    counter and a shared memory [Mem]; an execution interleaves them one
    instruction at a time.  A task [func()] is the list of instructions
    of its body, run in place by the goroutine that calls it. *)

Section Spawner.
Variable Mem : Type.

#[warnings="-register-all"]
Inductive Instr : Type :=
| IAdd (delta : Z)                (* wg.Add(delta) *)
| IWait                           (* wg.Wait() *)
| IGo (body : list Instr)         (* go func() { body }() *)
| IAct (f : Mem -> option Mem)    (* one action of a task on the shared
                                     memory; [None]: run-time panic *)
| IPanic                          (* panic(...) *)
| IGoexit.                        (* runtime.Goexit() *)

Definition Code : Type := list Instr.

(** The function literal [func() { task(); swg.wg.Add(-1) }]. *)
Definition goroutine (task : Code) : Code := task ++ [IAdd (-1)].

(** [safeWaitGroupImpl.Run] *)
Definition Run (task : Code) : Code :=
  [IAdd 1; IGo (goroutine task)].

(** [safeWaitGroupImpl.Wait] *)
Definition Wait : Code := [IWait].

(** [RunGroup]: the wait group is new, so its counter is 0 when
    [taskRunner] starts (see [init]). *)
Definition RunGroup (taskRunner : Code) : Code := taskRunner ++ Wait.

(** Thread 0 is the goroutine of the caller; [go] appends a thread.
    A thread that has nothing left to run has returned. *)
Record State : Type := MkState {
  wg : Z;
  mem : Mem;
  threads : list Code;
  crashed : bool
}.

(** [NewSafeWaitGroup] followed by the caller's code. *)
Definition init (main : Code) (m : Mem) : State :=
  {| wg := 0; mem := m; threads := [main]; crashed := false |}.

Fixpoint set_thread (i : nat) (c : Code) (ts : list Code) : list Code :=
  match ts, i with
  | [], _ => []
  | _ :: ts', O => c :: ts'
  | t :: ts', S j => t :: set_thread j c ts'
  end.

Definition crash (s : State) : State :=
  {| wg := wg s; mem := mem s; threads := threads s; crashed := true |}.

(** Thread [i] runs its next instruction.  [None]: the thread does not
    exist, has returned, is blocked in [Wait], or the program has
    crashed.  [WaitGroup.Add] panics when the counter would become
    negative; an unrecovered panic ends the whole program;
    [runtime.Goexit] ends the calling goroutine only, and nothing of
    its remaining code runs (no call is deferred in [Run]). *)
Definition step (s : State) (i : nat) : option (Instr * State) :=
  if crashed s then None else
  match nth_error (threads s) i with
  | None | Some [] => None
  | Some (ins :: rest) =>
      match ins with
      | IAdd d =>
          if (wg s + d <? 0)%Z then Some (ins, crash s)
          else Some (ins, {| wg := wg s + d; mem := mem s;
                             threads := set_thread i rest (threads s);
                             crashed := false |})
      | IWait =>
          if (wg s =? 0)%Z
          then Some (ins, {| wg := wg s; mem := mem s;
                             threads := set_thread i rest (threads s);
                             crashed := false |})
          else None
      | IGo body =>
          Some (ins, {| wg := wg s; mem := mem s;
                        threads := set_thread i rest (threads s) ++ [body];
                        crashed := false |})
      | IAct f =>
          match f (mem s) with
          | Some m => Some (ins, {| wg := wg s; mem := m;
                                    threads := set_thread i rest (threads s);
                                    crashed := false |})
          | None => Some (ins, crash s)
          end
      | IPanic => Some (ins, crash s)
      | IGoexit =>
          Some (ins, {| wg := wg s; mem := mem s;
                        threads := set_thread i [] (threads s);
                        crashed := false |})
      end
  end.

(** An execution: the threads scheduled, in order.  The result is the
    instructions run, each with its thread, and the state reached;
    [None] when a scheduled thread cannot run. *)
Fixpoint run_schedule (s : State) (sched : list nat)
  : option (list (nat * Instr) * State) :=
  match sched with
  | [] => Some ([], s)
  | i :: sched' =>
      match step s i with
      | None => None
      | Some (ins, s') =>
          match run_schedule s' sched' with
          | None => None
          | Some (tr, s'') => Some ((i, ins) :: tr, s'')
          end
      end
  end.

(** No thread can run. *)
Definition stuck (s : State) : Prop := forall i, step s i = None.

(** The number of [wg.Add(delta)] thread [i] has run. *)
Definition is_add (delta : Z) (ins : Instr) : bool :=
  match ins with
  | IAdd d => (d =? delta)%Z
  | _ => false
  end.

Definition adds_by (i : nat) (delta : Z) (tr : list (nat * Instr)) : nat :=
  List.length
    (filter (fun e => Nat.eqb (fst e) i && is_add delta (snd e)) tr).

Definition adds (delta : Z) (tr : list (nat * Instr)) : nat :=
  List.length (filter (fun e => is_add delta (snd e)) tr).

(** The instructions thread [i] has run, in order. *)
Definition instrs_by (i : nat) (tr : list (nat * Instr)) : Code :=
  map snd (filter (fun e => Nat.eqb (fst e) i) tr).

(** The executions from [s0]: the instructions run so far and the
    state reached. *)
Inductive reach (s0 : State) : list (nat * Instr) -> State -> Prop :=
| reach_init : reach s0 [] s0
| reach_step (tr : list (nat * Instr)) (s : State) (i : nat) (ins : Instr)
             (s' : State) :
    reach s0 tr s -> step s i = Some (ins, s') ->
    reach s0 (tr ++ [(i, ins)]) s'.

(** A task that only acts on the shared memory, and so returns unless
    one of its actions panics. *)
Definition is_act (ins : Instr) : bool :=
  match ins with
  | IAct _ => true
  | _ => false
  end.

Definition acts_only (task : Code) : bool := forallb is_act task.

(** The threads that have not returned. *)
Definition alive (c : Code) : nat :=
  match c with
  | [] => 0
  | _ :: _ => 1
  end.

Definition alive_count (ts : list Code) : nat := list_sum (map alive ts).

(** The instructions left to run, those of the goroutines still to be
    started included. *)
Fixpoint size (ins : Instr) : nat :=
  match ins with
  | IGo body => S (list_sum (map size body))
  | _ => 1
  end.

Definition code_size (c : Code) : nat := list_sum (map size c).

Definition weight (s : State) : nat := list_sum (map code_size (threads s)).

(** Submit every task of [tasks], then wait. *)
Definition submit_all (tasks : list Code) : Code :=
  flat_map Run tasks.

Definition submit_then_wait (tasks : list Code) : Code :=
  RunGroup (submit_all tasks).
End Spawner.

Arguments IWait {Mem}.
Arguments IPanic {Mem}.
Arguments IGoexit {Mem}.
Arguments IAdd {Mem} delta.
Arguments Wait {Mem}.

(** The first lines of [mainErr]: ten tasks, task [i] storing
    [strings.Repeat("*", i)] in [result[i]]. *)
Fixpoint strings_Repeat (s : string) (count : nat) : string :=
  match count with
  | O => ""
  | S n => s ++ strings_Repeat s n
  end.

(** [result[i] = v]; an index out of range panics. *)
Fixpoint store (i : nat) (v : string) (result : list string)
  : option (list string) :=
  match result, i with
  | [], _ => None
  | _ :: r, O => Some (v :: r)
  | x :: r, S j =>
      match store j v r with
      | Some r' => Some (x :: r')
      | None => None
      end
  end.

(** [make([]string, n, n)]; [mainErr] makes ten slots. *)
Definition make_strings (n : nat) : list string := repeat EmptyString n.

Definition make_result : list string := make_strings 10.

Definition star_task (i : nat) : Code (list string) :=
  [IAct (fun result => store i (strings_Repeat "*" i) result)].

(** The loop [for i := 0; i < len(result); i += 1], unrolled: the
    tasks it submits. *)
Definition star_tasks (result : list string) : list (Code (list string)) :=
  map star_task (seq 0 (List.length result)).

Definition spawn_stars (result : list string) : Code (list string) :=
  submit_then_wait (star_tasks result).

Definition mainErr_spawn : Code (list string) := spawn_stars make_result.

(** The state in which [mainErr] starts, with [n] slots. *)
Definition stars_init (n : nat) : State (list string) :=
  init (spawn_stars (make_strings n)) (make_strings n).

(** One interleaving of [mainErr]: the first two goroutines run while
    the caller is still submitting, the others in two sweeps. *)
Definition mainErr_schedule : list nat :=
  [0; 0; 1; 0; 0; 0; 0; 2; 3; 3; 1; 2] ++ repeat 0 14
    ++ [4; 5; 6; 7; 8; 9; 10; 10; 9; 8; 7; 6; 5; 4; 0].

Definition mainErr_trace : list (nat * Instr (list string)) :=
  match run_schedule (stars_init 10) mainErr_schedule with
  | Some (tr, _) => tr
  | None => []
  end.

Definition mainErr_final : State (list string) :=
  match run_schedule (stars_init 10) mainErr_schedule with
  | Some (_, s) => s
  | None => stars_init 10
  end.

(** What slot [j] holds: nothing until thread [j + 1] has run its first
    instruction, the stars afterwards. *)
Definition stars_slot (tr : list (nat * Instr (list string))) (j : nat)
  : string :=
  match instrs_by (S j) tr with
  | [] => EmptyString
  | _ :: _ => strings_Repeat "*" j
  end.

Definition stars_inv (n : nat) (tr : list (nat * Instr (list string)))
           (s : State (list string)) : Prop :=
  List.length (mem s) = n
  /\ forall j, j < n -> nth_error (mem s) j = Some (stars_slot tr j).

(** A task that ends its goroutine with [runtime.Goexit()], one that
    panics, and the executions of [Run] on each followed by [Wait]. *)
Definition exiting_task : Code unit := [IGoexit].
Definition panicking_task : Code unit := [IPanic].

Definition after_goexit : State unit :=
  {| wg := 1; mem := tt; threads := [[IWait]; []]; crashed := false |}.

Definition after_panic : State unit :=
  {| wg := 1; mem := tt; threads := [[IWait]; [IPanic; IAdd (-1)]];
     crashed := true |}.

(* ================================================================= *)
(** ** Observing a run *)

Definition File_eqb (f g : File) : bool :=
  (file_fd f =? file_fd g)%Z && String.eqb (file_name f) (file_name g).

Definition DB_eqb (a b : DB) : bool :=
  match a, b with MkDB x, MkDB y => (x =? y)%Z end.

Definition Tx_eqb (a b : Tx) : bool :=
  match a, b with MkTx x, MkTx y => (x =? y)%Z end.

Definition Rows_eqb (a b : Rows) : bool :=
  match a, b with MkRows x, MkRows y => (x =? y)%Z end.

(** [is_call c e]: the event [e] is the release call [c] (whatever it
    returned).  Only the calls that release something are compared. *)
Definition is_call {R : Type} (c : Call R) (e : Event) : bool :=
  match e with
  | Ev c' _ =>
      match c, c' with
      | FileClose f, FileClose g => File_eqb f g
      | OsRemove n, OsRemove m => String.eqb n m
      | DBClose a, DBClose b => DB_eqb a b
      | TxCommit a, TxCommit b => Tx_eqb a b
      | TxRollback a, TxRollback b => Tx_eqb a b
      | RowsClose a, RowsClose b => Rows_eqb a b
      | _, _ => false
      end
  end.

(** How many events of a trace satisfy [p]. *)
Definition count (p : Event -> bool) (t : Trace) : nat :=
  List.length (filter p t).

(** Some event satisfying [p] comes, in [t], before one satisfying [q]. *)
Fixpoint before (p q : Event -> bool) (t : Trace) : bool :=
  match t with
  | [] => false
  | e :: t' => (p e && existsb q t') || before p q t'
  end.

(** The history seen by the callback of a resource acquired by [c]. *)
Definition acquired {H : Type} (h : Trace) (c : Call (result H)) (hd : H)
  : Trace :=
  h ++ [Ev c (Ok hd)].

(** The error policy of a resource acquired by the call [acq] and
    released by the call [rel], for the invocation [use] with the
    callback [work] on the handle, after the history [h]: the release is
    called once, after the callback; a failed callback decides the
    result; otherwise the release does. *)
Definition close_policy {H : Type} (env : Env) (h : Trace)
           (use work : Prog error) (acq : Call (result H)) (hd : H)
           (rel : Call error) : Prop :=
  let h1 := acquired h acq hd in
  let released := env (h1 ++ exec env h1 work) error rel in
  exec env h use = Ev acq (Ok hd) :: exec env h1 work ++ [Ev rel released]
  /\ (forall e, eval env h1 work = Some e -> eval env h use = Some e)
  /\ (forall e, eval env h1 work = None -> released = Some e ->
                eval env h use = Some e)
  /\ (eval env h1 work = None -> released = None -> eval env h use = None).

(** The release calls an invocation makes itself: as many as were
    counted in the whole run, less those the callback made.  [once_iff]
    says they are exactly one when the acquisition succeeded, and that
    no release call is made when it failed. *)
Definition once_iff {H : Type} (use : (H -> Prog error) -> Prog error)
           (acq : Call (result H)) (is_release : H -> Event -> bool)
  : Prop :=
  forall (env : Env) (h : Trace) (callback : H -> Prog error),
    match env h _ acq with
    | Ok hd =>
        count (is_release hd) (exec env h (use callback)) =
        1 + count (is_release hd)
                  (exec env (acquired h acq hd) (callback hd))
    | Fail _ =>
        forall hd, count (is_release hd) (exec env h (use callback)) = 0
    end.

(** A failed acquisition is all that happens, and its error is the
    result, whatever the callback. *)
Definition fails_fast {H : Type} (use : (H -> Prog error) -> Prog error)
           (acq : Call (result H)) : Prop :=
  forall (env : Env) (h : Trace) (callback : H -> Prog error) (e : GoError),
    env h _ acq = Fail e ->
    run env h (use callback) = (Some e, [Ev acq (Fail e)]).

(** A scoped resource, by what an invocation does: one acquisition
    call; nothing more when it fails; otherwise the callback on the
    handle and then the release step, which may look at what the
    callback returned. *)
Class Scoped {H : Type} (use : (H -> Prog error) -> Prog error) : Type := {
  acquire : Call (result H);
  release : H -> error -> Prog error;
  scoped_fail : fails_fast use acquire;
  scoped_ok :
    forall (env : Env) (h : Trace) (callback : H -> Prog error) (hd : H),
      env h _ acquire = Ok hd ->
      let h1 := acquired h acquire hd in
      exec env h (use callback) =
      Ev acquire (Ok hd)
         :: exec env h1 (callback hd)
         ++ exec env (h1 ++ exec env h1 (callback hd))
                 (release hd (eval env h1 (callback hd)))
}.
Arguments acquire {H} use {Scoped}.
Arguments release {H} use {Scoped}.

(* ================================================================= *)
(** ** Concrete runs *)

(** The file [writeFile2 "./test2.txt"] gets from [env_failing] at the
    start of a run, and the first two temporary files. *)
Definition test2_file : File := MkFile 0 "./test2.txt".
Definition temp0 : File := MkFile 0 "/tmp/0".
Definition temp1 : File := MkFile 1 "/tmp/1".

(* ================================================================= *)
(** ** Acquire/release cycles and nesting *)

(** The calls of one successful invocation of the scoped resource
    [use] with [callback], started after [h], when the acquisition
    returned [hd]: the acquisition, what the callback does, what the
    release step does. *)
Definition cycle {H : Type} (env : Env) (h : Trace)
           (use : (H -> Prog error) -> Prog error) {S : Scoped use}
           (callback : H -> Prog error) (hd : H) : Trace :=
  let h1 := acquired h (acquire use) hd in
  let t := exec env h1 (callback hd) in
  Ev (acquire use) (Ok hd)
     :: t ++ exec env (h1 ++ t) (release use hd (eval env h1 (callback hd))).
Arguments cycle {H} env h use {S} callback hd.

(** [nests env h use callback hd t_before inner t_after]: in the
    invocation of [use] with [callback], the calls [inner] lie inside
    the window of the callback, after [t_before] and before [t_after],
    and the release of [use] comes after that window. *)
Definition nests {H : Type} (env : Env) (h : Trace)
           (use : (H -> Prog error) -> Prog error) {S : Scoped use}
           (callback : H -> Prog error) (hd : H)
           (t_before inner t_after : Trace) : Prop :=
  let h1 := acquired h (acquire use) hd in
  let window := t_before ++ inner ++ t_after in
  exec env h1 (callback hd) = window
  /\ exec env h (use callback) =
     Ev (acquire use) (Ok hd)
        :: window
        ++ exec env (h1 ++ window)
                (release use hd (eval env h1 (callback hd))).
Arguments nests {H} env h use {S} callback hd t_before inner t_after.

(** The two forms of nesting: the outer callback is the inner
    invocation ([mainErr]), or runs code before and after it
    ([helloSql_Cool] runs an [Exec] first). *)
Definition nest_direct {HA HB : Type}
           (useB : HA -> (HB -> Prog error) -> Prog error)
           (work : HA -> HB -> Prog error) : HA -> Prog error :=
  fun a => useB a (work a).

Definition nest_between {HA HB X : Type}
           (useB : HA -> (HB -> Prog error) -> Prog error)
           (pre : HA -> Prog X) (work : HA -> X -> HB -> Prog error)
           (post : HA -> error -> Prog error) : HA -> Prog error :=
  fun a => x <- pre a;; r <- useB a (work a x);; post a r.


(* ================================================================= *)
(** ** The executions of "submit every task, then wait" *)

Section SubmitInvariant.
Variable Mem : Type.
Variable tasks : list (Code Mem).

(** Where the caller is: between two submissions, inside [Run] after
    the increment and before the [go] statement, or past [Wait]; with
    the instructions it has run so far. *)
Inductive main_phase (tr : list (nat * Instr Mem)) (main : Code Mem)
          (spawned : nat) : Z -> Prop :=
| Submitting (done rest : list (Code Mem)) :
    tasks = done ++ rest ->
    List.length done = spawned ->
    main = submit_all rest ++ Wait ->
    instrs_by 0 tr = submit_all done ->
    main_phase tr main spawned 0
| Spawning (done : list (Code Mem)) (t : Code Mem) (rest : list (Code Mem)) :
    tasks = done ++ t :: rest ->
    List.length done = spawned ->
    main = IGo (goroutine t) :: submit_all rest ++ Wait ->
    instrs_by 0 tr = submit_all done ++ [IAdd 1] ->
    main_phase tr main spawned 1
| Waited :
    List.length tasks = spawned ->
    main = [] ->
    instrs_by 0 tr = submit_then_wait tasks ->
    main_phase tr main spawned 0.

(** What holds of every execution that has not crashed: thread [j + 1]
    is the goroutine of task [j], and what it has run followed by what
    it has left is the task followed by one decrement; the counter is
    the number of goroutines that have not returned, plus one between
    an increment and its [go] statement, and 0 once [Wait] has
    returned. *)
Definition submit_inv (tr : list (nat * Instr Mem)) (s : State Mem) : Prop :=
  exists (main : Code Mem) (gs : list (Code Mem)) (pending : Z),
    threads s = main :: gs
    /\ main_phase tr main (List.length gs) pending
    /\ wg s = (Z.of_nat (alive_count gs) + pending)%Z
    /\ (forall j g, nth_error gs j = Some g ->
                    exists t, nth_error tasks j = Some t
                              /\ instrs_by (S j) tr ++ g = goroutine t)
    /\ (forall i, List.length gs < i -> instrs_by i tr = [])
    /\ (main = [] -> wg s = 0%Z).
End SubmitInvariant.


(* ================================================================= *)
(** ** Tasks that may end abnormally *)

Section ExitInvariant.
Variable Mem : Type.
Variable tasks : list (Code Mem).

(** A task that leaves the wait group alone: it acts on the shared
    memory, and may panic or call [runtime.Goexit]. *)
Definition no_wg (ins : Instr Mem) : bool :=
  match ins with
  | IAct _ | IPanic | IGoexit => true
  | _ => false
  end.

Definition leaves_wg_alone (task : Code Mem) : bool := forallb no_wg task.

Definition is_goexit (ins : Instr Mem) : bool :=
  match ins with
  | IGoexit => true
  | _ => false
  end.

(** Thread [i] has called [runtime.Goexit]. *)
Definition exited (i : nat) (tr : list (nat * Instr Mem)) : bool :=
  existsb is_goexit (instrs_by i tr).

(** The invariant of [submit_inv], for such tasks: of the goroutine of
    task [j], what it has run followed by [l] is the task followed by
    one decrement, where [l] is what the thread has left to run, or
    what it dropped when it called [Goexit]; the counter counts the
    goroutines whose [l] is not empty. *)
Definition exit_inv (tr : list (nat * Instr Mem)) (s : State Mem) : Prop :=
  exists (main : Code Mem) (gs lefts : list (Code Mem)) (pending : Z),
    threads s = main :: gs
    /\ main_phase tasks tr main (List.length gs) pending
    /\ List.length lefts = List.length gs
    /\ wg s = (Z.of_nat (alive_count lefts) + pending)%Z
    /\ (forall j g,
           nth_error gs j = Some g ->
           exists t l,
             nth_error tasks j = Some t
             /\ nth_error lefts j = Some l
             /\ instrs_by (S j) tr ++ l = goroutine t
             /\ ((exited (S j) tr = false /\ g = l)
                 \/ (exited (S j) tr = true /\ g = [] /\ l <> [])))
    /\ (forall i, List.length gs < i -> instrs_by i tr = [])
    /\ (main = [] -> wg s = 0%Z).
End ExitInvariant.

(** A task whose only action panics, and the execution of [Run] on it
    followed by [Wait]. *)
Definition failing_action_task : Code unit := [IAct (fun _ => None)].

Definition after_failing_action : State unit :=
  {| wg := 1; mem := tt;
     threads := [[IWait]; [IAct (fun _ => None); IAdd (-1)]];
     crashed := true |}.

(** A task that acts and returns, submitted after one that calls
    [runtime.Goexit]; an execution of the two followed by [Wait], and
    the state it ends in. *)
Definition acting_task : Code unit := [IAct (fun _ => Some tt)].

Definition beside_goexit_trace : list (nat * Instr unit) :=
  [(0, IAdd 1); (0, IGo (goroutine exiting_task));
   (0, IAdd 1); (0, IGo (goroutine acting_task));
   (1, IGoexit); (2, IAct (fun _ => Some tt)); (2, IAdd (-1))].

Definition beside_goexit : State unit :=
  {| wg := 1; mem := tt; threads := [[IWait]; []; []]; crashed := false |}.


(* ================================================================= *)
(** ** Failures in a trace *)

(** The error a call reported, if it failed.  [rows.Next] reports no
    error. *)
Definition call_error {R : Type} (c : Call R) : R -> error :=
  match c in Call R return R -> error with
  | OsOpenFile _ _ _ | IoutilTempFile _ _ =>
      fun r => match r with Ok _ => None | Fail e => Some e end
  | SqlOpen _ _ => fun r => match r with Ok _ => None | Fail e => Some e end
  | DBBegin _ => fun r => match r with Ok _ => None | Fail e => Some e end
  | TxQuery _ _ _ => fun r => match r with Ok _ => None | Fail e => Some e end
  | FileWrite _ _ => fun r => snd r
  | DBExec _ _ _ | TxExec _ _ _ => fun r => snd r
  | RowsScan _ => fun r => snd r
  | FileClose _ | OsRemove _ | DBClose _ | TxCommit _ | TxRollback _
  | RowsClose _ => fun r => r
  | RowsNext _ => fun _ => None
  end.

Definition failure (e : Event) : error :=
  match e with
  | Ev c r => call_error c r
  end.

(** The error of the first call of the trace that failed. *)
Fixpoint first_failure (t : Trace) : error :=
  match t with
  | [] => None
  | e :: t' =>
      match failure e with
      | Some err => Some err
      | None => first_failure t'
      end
  end.

(* ================================================================= *)
(** ** Callbacks that assign captured variables: [helloSql_Cool]

    The callback given to [RunTransaction(db).Use] in [helloSql_Cool]
    assigns the variable [result] of the enclosing function, through
    the callback it gives to [QueryRows(...).Use]; the callback given
    to [db.Use] in [mainErr] prints.  For such callbacks the three
    [Use] functions are written once more, with the values [S] of the
    captured variables (or what has been printed) passed to the
    callback and returned by it beside the error; the code is the
    same. *)

Section Capturing.
Variable S : Type.

Definition NewDBResource_capturing (driverName datasourceName : string)
           (callback : DB -> S -> Prog (error * S)) (vars : S)
  : Prog (error * S) :=
  r <- call (SqlOpen driverName datasourceName);;
  match r with
  | Fail err => Ret (Some err, vars)
  | Ok db =>
      '(err, vars) <- callback db vars;;
      match err with
      | Some _ => _ <- call (DBClose db);; Ret (err, vars)
      | None => err <- call (DBClose db);; Ret (err, vars)
      end
  end.

Definition RunTransaction_capturing (db : DB)
           (callback : Tx -> S -> Prog (error * S)) (vars : S)
  : Prog (error * S) :=
  r <- call (DBBegin db);;
  match r with
  | Fail err => Ret (Some err, vars)
  | Ok tx =>
      '(err, vars) <- callback tx vars;;
      match err with
      | Some _ => _ <- call (TxRollback tx);; Ret (err, vars)
      | None => err <- call (TxCommit tx);; Ret (err, vars)
      end
  end.

Definition QueryRows_capturing (tx : Tx) (query : string)
           (args : list string)
           (callback : Rows -> S -> Prog (error * S)) (vars : S)
  : Prog (error * S) :=
  r <- call (TxQuery tx query args);;
  match r with
  | Fail err => Ret (Some err, vars)
  | Ok rows =>
      '(err, vars) <- callback rows vars;;
      match err with
      | Some _ => _ <- call (RowsClose rows);; Ret (err, vars)
      | None => err <- call (RowsClose rows);; Ret (err, vars)
      end
  end.
End Capturing.

Definition helloQuery : string :=
  "SELECT 'Hello, #' || id FROM names WHERE name = ?".
Definition addNameQuery : string := "INSERT INTO names (name) VALUES (?)".

(** The callback on the cursor: [_ = rows.Next()], then
    [return rows.Scan(&result)].  The string [Scan] answers is what the
    variable holds after the call. *)
Definition scan_hello (rows : Rows) (result : string)
  : Prog (error * string) :=
  _ <- call (RowsNext rows);;
  '(result, err) <- call (RowsScan rows);;
  Ret (err, result).

(** The callback on the transaction. *)
Definition insert_and_greet (name : string) (tx : Tx) (result : string)
  : Prog (error * string) :=
  '(_, err) <- call (TxExec tx addNameQuery [name]);;
  match err with
  | Some _ => Ret (err, result)
  | None =>
      '(err, result) <-
        QueryRows_capturing tx helloQuery [name] scan_hello result;;
      Ret (err, result)
  end.

Definition helloSql_Cool (db : DB) (name : string) : Prog (string * error) :=
  let result := EmptyString in
  '(err, result) <-
    RunTransaction_capturing db (insert_and_greet name) result;;
  Ret (result, err).

Definition helloSql_NotCoolAtAll (db : DB) (name : string)
  : Prog (string * error) :=
  Ret (EmptyString, None).

(** The block of [mainErr] on the database.  [println] has no result;
    the lines printed so far are carried along. *)
Definition mainErr_db_callback (db : DB) (printed : list string)
  : Prog (error * list string) :=
  err <- initDB db;;
  match err with
  | Some _ => Ret (err, printed)
  | None =>
      '(result1, err) <- helloSql_Cool db "MessageBird";;
      match err with
      | Some _ => Ret (err, printed)
      | None =>
          let printed := printed ++ [result1] in
          '(result2, err) <- helloSql_NotCoolAtAll db "Twilio";;
          match err with
          | Some _ => Ret (err, printed)
          | None =>
              let printed := printed ++ [result2] in
              Ret (None, printed)
          end
      end
  end.

Definition mainErr_db : Prog (error * list string) :=
  NewDBResource_capturing "sqlite3" "./demo.sqlite" mainErr_db_callback [].

(** The callbacks with the variable forgotten, as the [Use] functions
    of [RunTransaction] and [QueryRows] take them. *)
Definition forget {S : Type} (p : Prog (error * S)) : Prog error :=
  x <- p;; Ret (fst x).

(** The statements of [mainErr] on files, from [writeFile1] to the
    nested temporary files; [None] is reaching the statement after
    them. *)
Definition mainErr_files : Prog error :=
  err <- writeFile1 "./test1.txt" "test1";;
  match err with
  | Some _ => Ret err
  | None =>
      err <- writeFile2 "./test2.txt" "test2";;
      match err with
      | Some _ => Ret err
      | None =>
          let file := NewFileResource "./test3.txt" NewFileFlag OwnerRWOnly in
          err <- writeFile3 file "test3";;
          match err with
          | Some _ => Ret err
          | None =>
              err <- writeFile3 TempFileResource "whatever";;
              match err with
              | Some _ => Ret err
              | None =>
                  err <- nested_temp_files;;
                  match err with
                  | Some _ => Ret err
                  | None => Ret None
                  end
              end
          end
      end
  end.

(** An invocation or function reports the first failure: what it
    returns is the error of the first of its calls that failed. *)
Definition reports_first_failure (env : Env) (h : Trace) (p : Prog error)
  : Prop :=
  eval env h p = first_failure (exec env h p).

(** The calls that release or undo: the only ones made after a
    failure. *)
Definition is_cleanup (e : Event) : bool :=
  match e with
  | Ev c _ =>
      match c with
      | FileClose _ | OsRemove _ | DBClose _ | TxRollback _ | RowsClose _ =>
          true
      | _ => false
      end
  end.

(** After the first failed call of the trace, only cleanup calls. *)
Fixpoint cleanup_after_failure (t : Trace) : bool :=
  match t with
  | [] => true
  | e :: t' =>
      match failure e with
      | Some _ => forallb is_cleanup t'
      | None => cleanup_after_failure t'
      end
  end.

(** A function stops at a failure: in its run, nothing but cleanup
    follows the first failed call. *)
Definition stops_at_failure {A : Type} (env : Env) (h : Trace) (p : Prog A)
  : Prop :=
  cleanup_after_failure (exec env h p) = true.

(** No [Commit] after a failed call, and nothing after a [Commit]. *)
Fixpoint commits_clean (failed : bool) (t : Trace) : bool :=
  match t with
  | [] => true
  | e :: t' =>
      match e with
      | Ev (TxCommit _) _ =>
          negb failed && match t' with [] => true | _ :: _ => false end
      | _ =>
          commits_clean
            (failed || match failure e with Some _ => true | None => false end)
            t'
      end
  end.

(* ================================================================= *)
(** ** Handles in use *)

Inductive Handle : Type :=
| HFile (f : File)
| HDB (db : DB)
| HTx (tx : Tx)
| HRows (rows : Rows).

Definition Handle_eqb (a b : Handle) : bool :=
  match a, b with
  | HFile f, HFile g => File_eqb f g
  | HDB x, HDB y => DB_eqb x y
  | HTx x, HTx y => Tx_eqb x y
  | HRows x, HRows y => Rows_eqb x y
  | _, _ => false
  end.

(** The handles acquired and not yet released, most recent first. *)
Definition held (x : Handle) (stack : list Handle) : bool :=
  existsb (Handle_eqb x) stack.

Arguments held : simpl never.

Definition push {T : Type} (mk : T -> Handle) (r : result T)
           (stack : list Handle) : list Handle :=
  match r with
  | Ok t => mk t :: stack
  | Fail _ => stack
  end.

(** A release must be of the handle acquired last. *)
Definition pop (x : Handle) (stack : list Handle) : option (list Handle) :=
  match stack with
  | top :: rest => if Handle_eqb x top then Some rest else None
  | [] => None
  end.

Definition needs (x : Handle) (stack next : list Handle)
  : option (list Handle) :=
  if held x stack then Some next else None.

(** What a call does to the handles held: a successful acquisition
    holds one more; a call on a handle needs it held; a release needs
    its handle to be the one acquired last, and lets go of it whatever
    it returns.  [None]: a handle used or released while not held, or
    released out of turn. *)
Definition handle_step {R : Type} (c : Call R)
  : R -> list Handle -> option (list Handle) :=
  match c in Call R return R -> list Handle -> option (list Handle) with
  | OsOpenFile _ _ _ | IoutilTempFile _ _ =>
      fun r stack => Some (push HFile r stack)
  | FileWrite f _ => fun _ stack => needs (HFile f) stack stack
  | FileClose f => fun _ stack => pop (HFile f) stack
  | OsRemove _ => fun _ stack => Some stack
  | SqlOpen _ _ => fun r stack => Some (push HDB r stack)
  | DBClose db => fun _ stack => pop (HDB db) stack
  | DBExec db _ _ => fun _ stack => needs (HDB db) stack stack
  | DBBegin db => fun r stack => needs (HDB db) stack (push HTx r stack)
  | TxCommit tx | TxRollback tx => fun _ stack => pop (HTx tx) stack
  | TxExec tx _ _ => fun _ stack => needs (HTx tx) stack stack
  | TxQuery tx _ _ =>
      fun r stack => needs (HTx tx) stack (push HRows r stack)
  | RowsNext rows => fun _ stack => needs (HRows rows) stack stack
  | RowsScan rows => fun _ stack => needs (HRows rows) stack stack
  | RowsClose rows => fun _ stack => pop (HRows rows) stack
  end.

(** The handles held after a trace, starting from [stack]. *)
Fixpoint track (stack : list Handle) (t : Trace) : option (list Handle) :=
  match t with
  | [] => Some stack
  | Ev c r :: t' =>
      match handle_step c r stack with
      | Some stack' => track stack' t'
      | None => None
      end
  end.

(** A function leaves the handles as it found them: it releases every
    handle it acquired, once and in the reverse order of acquisition,
    uses handles only while they are held, and releases no handle it
    did not acquire. *)
Definition keeps_handles {A : Type} (env : Env) (h : Trace)
           (stack : list Handle) (p : Prog A) : Prop :=
  track stack (exec env h p) = Some stack.

(** Some [Commit] of the trace succeeded. *)
Definition committed (t : Trace) : bool :=
  existsb (fun e =>
             match e with
             | Ev (TxCommit _) _ =>
                 match failure e with None => true | Some _ => false end
             | _ => false
             end) t.

(** What the variable [result] holds after a trace, when it held [v]
    before: what the last [Scan] left in it. *)
Fixpoint scanned (v : string) (t : Trace) : string :=
  match t with
  | [] => v
  | Ev c r :: t' =>
      scanned (match c in Call R return R -> string with
               | RowsScan _ => fun r => fst r
               | _ => fun _ => v
               end r) t'
  end.

(** The callbacks of [helloSql_Cool] without the variable, for the
    [Use] functions of [RunTransaction] and [QueryRows]. *)
Definition scan_hello_error (rows : Rows) : Prog error :=
  forget (scan_hello rows EmptyString).

Definition insert_and_greet_error (name : string) (tx : Tx) : Prog error :=
  '(_, err) <- call (TxExec tx addNameQuery [name]);;
  match err with
  | Some _ => Ret err
  | None => Use (QueryRows tx helloQuery [name]) scan_hello_error
  end.

(* ================================================================= *)
(** * Properties of the scoped resources *)

(** ** Runs of composed programs *)

Lemma run_bind (A B : Type) (env : Env) (p : Prog A) (f : A -> Prog B) :
  forall h,
    run env h (bind p f) =
    (fst (run env (h ++ snd (run env h p)) (f (fst (run env h p)))),
     snd (run env h p)
       ++ snd (run env (h ++ snd (run env h p)) (f (fst (run env h p))))).
Proof.
  induction p as [a | R c k IH]; intro h; simpl.
  - rewrite app_nil_r. destruct (run env h (f a)); reflexivity.
  - rewrite IH.
    destruct (run env (h ++ [Ev c (env h R c)]) (k (env h R c))) as [a t].
    simpl. rewrite <- app_assoc. reflexivity.
Qed.

Lemma eval_bind (A B : Type) (env : Env) (h : Trace) (p : Prog A)
      (f : A -> Prog B) :
  eval env h (bind p f) = eval env (h ++ exec env h p) (f (eval env h p)).
Proof. unfold eval, exec. rewrite run_bind. reflexivity. Qed.

Lemma exec_bind (A B : Type) (env : Env) (h : Trace) (p : Prog A)
      (f : A -> Prog B) :
  exec env h (bind p f) =
  exec env h p ++ exec env (h ++ exec env h p) (f (eval env h p)).
Proof. unfold eval, exec. rewrite run_bind. reflexivity. Qed.

Lemma eval_Vis (A R : Type) (env : Env) (h : Trace) (c : Call R)
      (k : R -> Prog A) :
  eval env h (Vis c k) = eval env (h ++ [Ev c (env h R c)]) (k (env h R c)).
Proof.
  unfold eval. simpl.
  destruct (run env (h ++ [Ev c (env h R c)]) (k (env h R c))). reflexivity.
Qed.

Lemma exec_Vis (A R : Type) (env : Env) (h : Trace) (c : Call R)
      (k : R -> Prog A) :
  exec env h (Vis c k) =
  Ev c (env h R c) :: exec env (h ++ [Ev c (env h R c)]) (k (env h R c)).
Proof.
  unfold exec. simpl.
  destruct (run env (h ++ [Ev c (env h R c)]) (k (env h R c))). reflexivity.
Qed.

Lemma eval_Ret (A : Type) (env : Env) (h : Trace) (a : A) :
  eval env h (Ret a) = a.
Proof. reflexivity. Qed.

Lemma exec_Ret (A : Type) (env : Env) (h : Trace) (a : A) :
  exec env h (Ret a) = [].
Proof. reflexivity. Qed.

Lemma eval_call (R : Type) (env : Env) (h : Trace) (c : Call R) :
  eval env h (call c) = env h R c.
Proof. reflexivity. Qed.

Lemma exec_call (R : Type) (env : Env) (h : Trace) (c : Call R) :
  exec env h (call c) = [Ev c (env h R c)].
Proof. reflexivity. Qed.

Create Rewrite HintDb runs.
#[local] Hint Rewrite eval_bind exec_bind eval_Vis exec_Vis eval_Ret exec_Ret
  eval_call exec_call app_nil_r : runs.

(** ** The error policy of the closing resources *)

(** The body shared, up to the names of the primitives, by
    [NewFileResource], [NewDBResource] and [QueryRows]. *)
Lemma close_shape_policy (H : Type) (env : Env) (h : Trace)
      (acq : Call (result H)) (rel : H -> Call error)
      (callback : H -> Prog error) (hd : H) :
  env h _ acq = Ok hd ->
  close_policy env h
    (r <- call acq;;
     match r with
     | Fail err => Ret (Some err)
     | Ok x =>
         err <- callback x;;
         match err with
         | Some _ => _ <- call (rel x);; Ret err
         | None => call (rel x)
         end
     end)
    (callback hd) acq hd (rel hd).
Proof.
  intro E. unfold close_policy, acquired.
  rewrite exec_bind, eval_bind, exec_call, eval_call, E.
  rewrite exec_bind, eval_bind.
  destruct (eval env (h ++ [Ev acq (Ok hd)]) (callback hd)) as [e |] eqn:W.
  - autorewrite with runs. repeat split; intros; congruence.
  - autorewrite with runs. repeat split; intros; congruence.
Qed.

(** C1.  When the acquisition succeeds, the file resource of
    [NewFileResource], the database resource of [NewDBResource] and the
    cursor resource of [QueryRows] each call their release once after
    the callback, whatever the callback returned; they return the
    callback's error when it fails (the release's result is dropped),
    the release's error when the callback succeeds and the release
    fails, and no error when both succeed. *)
Theorem closing_resources_error_policy (env : Env) (h : Trace) :
  (forall path flags perm callback file,
      env h _ (OsOpenFile path flags perm) = Ok file ->
      close_policy env h (NewFileResource path flags perm callback)
                   (callback file) (OsOpenFile path flags perm) file
                   (FileClose file))
  /\ (forall driverName datasourceName callback db,
         env h _ (SqlOpen driverName datasourceName) = Ok db ->
         close_policy env h
                      (Use (NewDBResource driverName datasourceName) callback)
                      (callback db) (SqlOpen driverName datasourceName) db
                      (DBClose db))
  /\ (forall tx query args callback rows,
         env h _ (TxQuery tx query args) = Ok rows ->
         close_policy env h (Use (QueryRows tx query args) callback)
                      (callback rows) (TxQuery tx query args) rows
                      (RowsClose rows)).
Proof.
  split; [| split]; intros.
  - now apply (close_shape_policy env h (OsOpenFile path flags perm) FileClose).
  - now apply (close_shape_policy env h (SqlOpen driverName datasourceName)
                                  DBClose).
  - now apply (close_shape_policy env h (TxQuery tx query args) RowsClose).
Qed.

Lemma closing_resources_error_policy_witness :
  (env_failing [KClose] [] _ (OsOpenFile "./test2.txt" NewFileFlag OwnerRWOnly)
   = Ok test2_file
   /\ close_policy (env_failing [KClose]) []
                   (writeFile2 "./test2.txt" "test2")
                   (write_twice "test2" test2_file)
                   (OsOpenFile "./test2.txt" NewFileFlag OwnerRWOnly)
                   test2_file (FileClose test2_file))
  /\ (env_ok [] _ (SqlOpen "sqlite3" "./demo.sqlite") = Ok (MkDB 0)
      /\ close_policy env_ok []
                      (Use (NewDBResource "sqlite3" "./demo.sqlite")
                           (just (Some boom)))
                      (Ret (Some boom)) (SqlOpen "sqlite3" "./demo.sqlite")
                      (MkDB 0) (DBClose (MkDB 0)))
  /\ (env_ok [] _ (TxQuery (MkTx 7) "SELECT 1" []) = Ok (MkRows 0)
      /\ close_policy env_ok []
                      (Use (QueryRows (MkTx 7) "SELECT 1" []) (just None))
                      (Ret None) (TxQuery (MkTx 7) "SELECT 1" [])
                      (MkRows 0) (RowsClose (MkRows 0))).
Proof.
  split; [| split]; (split; [reflexivity |]).
  - apply (proj1 (closing_resources_error_policy (env_failing [KClose]) [])).
    reflexivity.
  - apply (proj1 (proj2 (closing_resources_error_policy env_ok []))
             "sqlite3" "./demo.sqlite" (just (Some boom))).
    reflexivity.
  - apply (proj2 (proj2 (closing_resources_error_policy env_ok []))
             (MkTx 7) "SELECT 1" [] (just None)).
    reflexivity.
Defined.

(** ** Counting release calls *)

Lemma count_app (p : Event -> bool) (t u : Trace) :
  count p (t ++ u) = count p t + count p u.
Proof. unfold count. rewrite filter_app, length_app. reflexivity. Qed.

Lemma count_cons (p : Event -> bool) (e : Event) (t : Trace) :
  count p (e :: t) = (if p e then 1 else 0) + count p t.
Proof. unfold count. simpl. destruct (p e); reflexivity. Qed.

Lemma count_nil (p : Event -> bool) : count p [] = 0.
Proof. reflexivity. Qed.

Lemma File_eqb_refl (f : File) : File_eqb f f = true.
Proof.
  unfold File_eqb. rewrite Z.eqb_refl, String.eqb_refl. reflexivity.
Qed.

Lemma DB_eqb_refl (a : DB) : DB_eqb a a = true.
Proof. destruct a. apply Z.eqb_refl. Qed.

Lemma Tx_eqb_refl (a : Tx) : Tx_eqb a a = true.
Proof. destruct a. apply Z.eqb_refl. Qed.

Lemma Rows_eqb_refl (a : Rows) : Rows_eqb a a = true.
Proof. destruct a. apply Z.eqb_refl. Qed.

(** ** A failed acquisition *)

Lemma close_shape_fails (H : Type) (acq : Call (result H))
      (rel : H -> Call error) :
  fails_fast
    (fun callback =>
       r <- call acq;;
       match r with
       | Fail err => Ret (Some err)
       | Ok x =>
           err <- callback x;;
           match err with
           | Some _ => _ <- call (rel x);; Ret err
           | None => call (rel x)
           end
       end)
    acq.
Proof. intros env h callback e E. simpl. rewrite E. reflexivity. Qed.

Lemma TempFileResource_fails : fails_fast TempFileResource (IoutilTempFile "" "").
Proof. intros env h callback e E. simpl. rewrite E. reflexivity. Qed.

Lemma RunTransaction_fails (db : DB) :
  fails_fast (Use (RunTransaction db)) (DBBegin db).
Proof. intros env h callback e E. simpl. rewrite E. reflexivity. Qed.

(** ** The trace of a successful invocation *)

Lemma TempFileResource_run (env : Env) (h : Trace)
      (callback : FileResourceCallback) (file : File) :
  env h _ (IoutilTempFile "" "") = Ok file ->
  let h1 := acquired h (IoutilTempFile "" "") file in
  let t := exec env h1 (callback file) in
  let removed := env (h1 ++ t) _ (OsRemove (file_name file)) in
  let closed :=
    env ((h1 ++ t) ++ [Ev (OsRemove (file_name file)) removed]) _
        (FileClose file) in
  run env h (TempFileResource callback) =
  (eval env h1 (callback file),
   Ev (IoutilTempFile "" "") (Ok file)
      :: t ++ [Ev (OsRemove (file_name file)) removed;
               Ev (FileClose file) closed]).
Proof.
  intro E. cbv zeta.
  rewrite (surjective_pairing (run env h (TempFileResource callback))).
  change (fst (run env h (TempFileResource callback)))
    with (eval env h (TempFileResource callback)).
  change (snd (run env h (TempFileResource callback)))
    with (exec env h (TempFileResource callback)).
  unfold TempFileResource, go_return, defer_call, acquired.
  rewrite exec_bind, eval_bind, exec_call, eval_call, E.
  rewrite exec_bind, eval_bind. simpl run_deferred.
  autorewrite with runs. reflexivity.
Qed.

Lemma RunTransaction_run (env : Env) (h : Trace) (db : DB)
      (callback : Tx -> Prog error) (tx : Tx) :
  env h _ (DBBegin db) = Ok tx ->
  let h1 := acquired h (DBBegin db) tx in
  let t := exec env h1 (callback tx) in
  run env h (Use (RunTransaction db) callback) =
  match eval env h1 (callback tx) with
  | Some e =>
      (Some e,
       Ev (DBBegin db) (Ok tx)
          :: t ++ [Ev (TxRollback tx) (env (h1 ++ t) _ (TxRollback tx))])
  | None =>
      (env (h1 ++ t) _ (TxCommit tx),
       Ev (DBBegin db) (Ok tx)
          :: t ++ [Ev (TxCommit tx) (env (h1 ++ t) _ (TxCommit tx))])
  end.
Proof.
  intro E. cbv zeta.
  rewrite (surjective_pairing (run env h (Use (RunTransaction db) callback))).
  change (fst (run env h (Use (RunTransaction db) callback)))
    with (eval env h (Use (RunTransaction db) callback)).
  change (snd (run env h (Use (RunTransaction db) callback)))
    with (exec env h (Use (RunTransaction db) callback)).
  unfold RunTransaction, Use, acquired.
  rewrite exec_bind, eval_bind, exec_call, eval_call, E.
  rewrite exec_bind, eval_bind.
  destruct (eval env (h ++ [Ev (DBBegin db) (Ok tx)]) (callback tx));
    autorewrite with runs; reflexivity.
Qed.

(** C7.  When the acquisition call of a scoped resource fails, the
    invocation returns that error and the failed call is the only call
    made: the callback is not run and nothing is released.  This holds
    for the five resources of the repository. *)
Theorem failed_acquisition_returns_at_once :
  (forall path flags perm,
      fails_fast (NewFileResource path flags perm)
                 (OsOpenFile path flags perm))
  /\ fails_fast TempFileResource (IoutilTempFile "" "")
  /\ (forall driverName datasourceName,
         fails_fast (Use (NewDBResource driverName datasourceName))
                    (SqlOpen driverName datasourceName))
  /\ (forall db, fails_fast (Use (RunTransaction db)) (DBBegin db))
  /\ (forall tx query args,
         fails_fast (Use (QueryRows tx query args)) (TxQuery tx query args)).
Proof.
  repeat split; intros.
  - apply (close_shape_fails (OsOpenFile path flags perm) FileClose).
  - apply TempFileResource_fails.
  - apply (close_shape_fails (SqlOpen driverName datasourceName) DBClose).
  - apply RunTransaction_fails.
  - apply (close_shape_fails (TxQuery tx query args) RowsClose).
Qed.

Lemma failed_acquisition_returns_at_once_witness :
  run (env_failing [KOpen]) []
      (NewFileResource "./test3.txt" NewFileFlag OwnerRWOnly
                       (write_twice "test3"))
  = (Some (kind_error KOpen),
     [Ev (OsOpenFile "./test3.txt" NewFileFlag OwnerRWOnly)
         (Fail (kind_error KOpen))])
  /\ run (env_failing [KBegin]) []
         (Use (RunTransaction (MkDB 1)) (just (Some boom)))
     = (Some (kind_error KBegin),
        [Ev (DBBegin (MkDB 1)) (Fail (kind_error KBegin))]).
Proof.
  split.
  - apply (proj1 failed_acquisition_returns_at_once). reflexivity.
  - apply (proj1 (proj2 (proj2 (proj2 failed_acquisition_returns_at_once)))).
    reflexivity.
Defined.

(** ** Release calls, counted *)

Lemma close_shape_once (H : Type) (acq : Call (result H))
      (rel : H -> Call error) (is_release : H -> Event -> bool) :
  (forall hd r, is_release hd (Ev (rel hd) r) = true) ->
  (forall hd r, is_release hd (Ev acq r) = false) ->
  once_iff
    (fun callback =>
       r <- call acq;;
       match r with
       | Fail err => Ret (Some err)
       | Ok x =>
           err <- callback x;;
           match err with
           | Some _ => _ <- call (rel x);; Ret err
           | None => call (rel x)
           end
       end)
    acq is_release.
Proof.
  intros Hrel Hacq env h callback.
  destruct (env h _ acq) as [hd | e] eqn:E.
  - destruct (close_shape_policy env h acq rel callback E) as [T _].
    rewrite T, count_cons, Hacq, count_app, count_cons, Hrel, count_nil.
    unfold acquired. lia.
  - intro hd. unfold exec.
    rewrite (close_shape_fails acq rel env h callback E).
    simpl snd. rewrite count_cons, Hacq. reflexivity.
Qed.

(** C2.  In every invocation of each of the five scoped resources,
    whatever the primitives and the callback return, the invocation
    itself calls the release exactly once when the acquisition succeeded
    (one call more than the callback made on that handle) and not at all
    when it failed.  For the temporary file the release is one
    [os.Remove] and one [Close]; for the transaction it is one of
    [Commit] and [Rollback]. *)
Theorem release_once_iff_acquired :
  (forall path flags perm,
      once_iff (NewFileResource path flags perm) (OsOpenFile path flags perm)
               (fun file => is_call (FileClose file)))
  /\ once_iff TempFileResource (IoutilTempFile "" "")
              (fun file => is_call (FileClose file))
  /\ once_iff TempFileResource (IoutilTempFile "" "")
              (fun file => is_call (OsRemove (file_name file)))
  /\ (forall driverName datasourceName,
         once_iff (Use (NewDBResource driverName datasourceName))
                  (SqlOpen driverName datasourceName)
                  (fun db => is_call (DBClose db)))
  /\ (forall db,
         once_iff (Use (RunTransaction db)) (DBBegin db)
                  (fun tx e => is_call (TxCommit tx) e
                               || is_call (TxRollback tx) e))
  /\ (forall tx query args,
         once_iff (Use (QueryRows tx query args)) (TxQuery tx query args)
                  (fun rows => is_call (RowsClose rows))).
Proof.
  split; [| split; [| split; [| split; [| split]]]]; intros.
  - apply (close_shape_once (OsOpenFile path flags perm) FileClose);
      intros; simpl; auto using File_eqb_refl.
  - intros env h callback.
    destruct (env h _ (IoutilTempFile "" "")) as [file | e] eqn:E.
    + unfold exec at 1. rewrite (TempFileResource_run env h callback E).
      simpl snd. rewrite count_cons, count_app, !count_cons, count_nil.
      simpl. rewrite File_eqb_refl. lia.
    + intro hd. unfold exec. rewrite (TempFileResource_fails env h callback E).
      reflexivity.
  - intros env h callback.
    destruct (env h _ (IoutilTempFile "" "")) as [file | e] eqn:E.
    + unfold exec at 1. rewrite (TempFileResource_run env h callback E).
      simpl snd. rewrite count_cons, count_app, !count_cons, count_nil.
      simpl. rewrite String.eqb_refl. lia.
    + intro hd. unfold exec. rewrite (TempFileResource_fails env h callback E).
      reflexivity.
  - apply (close_shape_once (SqlOpen driverName datasourceName) DBClose);
      intros; simpl; auto using DB_eqb_refl.
  - intros env h callback.
    destruct (env h _ (DBBegin db)) as [tx | e] eqn:E.
    + unfold exec at 1. rewrite (RunTransaction_run env h db callback E).
      destruct (eval env (acquired h (DBBegin db) tx) (callback tx));
        simpl snd; rewrite count_cons, count_app, !count_cons, count_nil;
        simpl; rewrite Tx_eqb_refl; simpl; lia.
    + intro hd. unfold exec. rewrite (RunTransaction_fails db env h callback E).
      reflexivity.
  - apply (close_shape_once (TxQuery tx query args) RowsClose);
      intros; simpl; auto using Rows_eqb_refl.
Qed.

(** ** The five resources are scoped resources *)

Lemma close_shape_cycle (H : Type) (acq : Call (result H))
      (rel : H -> Call error) (env : Env) (h : Trace)
      (callback : H -> Prog error) (hd : H) :
  env h _ acq = Ok hd ->
  let h1 := acquired h acq hd in
  exec env h
       (r <- call acq;;
        match r with
        | Fail err => Ret (Some err)
        | Ok x =>
            err <- callback x;;
            match err with
            | Some _ => _ <- call (rel x);; Ret err
            | None => call (rel x)
            end
        end)
  = Ev acq (Ok hd)
       :: exec env h1 (callback hd)
       ++ exec env (h1 ++ exec env h1 (callback hd)) (call (rel hd)).
Proof.
  intro E. cbv zeta.
  destruct (close_shape_policy env h acq rel callback E) as [T _].
  rewrite T, exec_call. reflexivity.
Qed.

#[export] Instance NewFileResource_Scoped (path : string) (flags perm : Z)
  : Scoped (NewFileResource path flags perm) :=
  {| acquire := OsOpenFile path flags perm;
     release := fun file _ => call (FileClose file);
     scoped_fail := close_shape_fails (OsOpenFile path flags perm) FileClose;
     scoped_ok :=
       close_shape_cycle (OsOpenFile path flags perm) FileClose |}.

#[export] Instance NewDBResource_Scoped (driverName datasourceName : string)
  : Scoped (Use (NewDBResource driverName datasourceName)) :=
  {| acquire := SqlOpen driverName datasourceName;
     release := fun db _ => call (DBClose db);
     scoped_fail :=
       close_shape_fails (SqlOpen driverName datasourceName) DBClose;
     scoped_ok :=
       close_shape_cycle (SqlOpen driverName datasourceName) DBClose |}.

#[export] Instance QueryRows_Scoped (tx : Tx) (query : string)
  (args : list string) : Scoped (Use (QueryRows tx query args)) :=
  {| acquire := TxQuery tx query args;
     release := fun rows _ => call (RowsClose rows);
     scoped_fail := close_shape_fails (TxQuery tx query args) RowsClose;
     scoped_ok := close_shape_cycle (TxQuery tx query args) RowsClose |}.

Lemma TempFileResource_cycle (env : Env) (h : Trace)
      (callback : FileResourceCallback) (file : File) :
  env h _ (IoutilTempFile "" "") = Ok file ->
  let h1 := acquired h (IoutilTempFile "" "") file in
  exec env h (TempFileResource callback) =
  Ev (IoutilTempFile "" "") (Ok file)
     :: exec env h1 (callback file)
     ++ exec env (h1 ++ exec env h1 (callback file))
             (_ <- call (OsRemove (file_name file));; call (FileClose file)).
Proof.
  intro E. cbv zeta. unfold exec at 1.
  rewrite (TempFileResource_run env h callback E).
  autorewrite with runs. reflexivity.
Qed.

#[export] Instance TempFileResource_Scoped : Scoped TempFileResource :=
  {| acquire := IoutilTempFile "" "";
     release := fun file _ =>
                  _ <- call (OsRemove (file_name file));;
                  call (FileClose file);
     scoped_fail := TempFileResource_fails;
     scoped_ok := TempFileResource_cycle |}.

Lemma RunTransaction_cycle (db : DB) (env : Env) (h : Trace)
      (callback : Tx -> Prog error) (tx : Tx) :
  env h _ (DBBegin db) = Ok tx ->
  let h1 := acquired h (DBBegin db) tx in
  exec env h (Use (RunTransaction db) callback) =
  Ev (DBBegin db) (Ok tx)
     :: exec env h1 (callback tx)
     ++ exec env (h1 ++ exec env h1 (callback tx))
             (match eval env h1 (callback tx) with
              | Some _ => call (TxRollback tx)
              | None => call (TxCommit tx)
              end).
Proof.
  intro E. cbv zeta. unfold exec at 1.
  rewrite (RunTransaction_run env h db callback E).
  destruct (eval env (acquired h (DBBegin db) tx) (callback tx));
    reflexivity.
Qed.

#[export] Instance RunTransaction_Scoped (db : DB)
  : Scoped (Use (RunTransaction db)) :=
  {| acquire := DBBegin db;
     release := fun tx err =>
                  match err with
                  | Some _ => call (TxRollback tx)
                  | None => call (TxCommit tx)
                  end;
     scoped_fail := RunTransaction_fails db;
     scoped_ok := RunTransaction_cycle db |}.

(** ** Nested invocations *)

Section Nesting.
Context {HA HB : Type}.
Variable useA : (HA -> Prog error) -> Prog error.
Variable useB : HA -> (HB -> Prog error) -> Prog error.
Context {SA : Scoped useA} {SB : forall a, Scoped (useB a)}.

Lemma window_nests (env : Env) (h : Trace) (callback : HA -> Prog error)
      (a : HA) (t_before inner t_after : Trace) :
  env h _ (acquire useA) = Ok a ->
  exec env (acquired h (acquire useA) a) (callback a)
  = t_before ++ inner ++ t_after ->
  nests env h useA callback a t_before inner t_after.
Proof.
  intros E W. unfold nests. split; [exact W |].
  rewrite (scoped_ok env h callback E), W. reflexivity.
Qed.

Lemma inner_cycle (env : Env) (h : Trace) (a : HA)
      (callback : HB -> Prog error) (b : HB) :
  env h _ (acquire (useB a)) = Ok b ->
  exec env h (useB a callback) = cycle env h (useB a) callback b.
Proof. intro E. unfold cycle. apply (scoped_ok env h callback E). Qed.

(** C8.  Let scoped resource B (which may depend on A's handle) be
    invoked inside the callback of scoped resource A, both acquisitions
    succeeding.  Then the calls of A's callback are: what it does before
    invoking B, the whole acquire/callback/release cycle of B, exactly
    as B's invocation makes it on its own, and what it does after; and
    the invocation of A is A's acquisition, that window, and then A's
    release.  So B is acquired and released inside A's callback, and A
    is released after it.  Stated for the callback that is just the
    inner invocation, as the nested temporary files of [mainErr], and
    for a callback with code before and after it. *)
Theorem nested_cycle_inside_callback (env : Env) (h : Trace) (a : HA) (b : HB) :
  env h _ (acquire useA) = Ok a ->
  let h1 := acquired h (acquire useA) a in
  (forall work : HA -> HB -> Prog error,
      env h1 _ (acquire (useB a)) = Ok b ->
      nests env h useA (nest_direct useB work) a
            [] (cycle env h1 (useB a) (work a) b) [])
  /\ (forall (X : Type) (pre : HA -> Prog X)
             (work : HA -> X -> HB -> Prog error)
             (post : HA -> error -> Prog error),
         let x := eval env h1 (pre a) in
         let h2 := h1 ++ exec env h1 (pre a) in
         env h2 _ (acquire (useB a)) = Ok b ->
         let inner := cycle env h2 (useB a) (work a x) b in
         nests env h useA (nest_between useB pre work post) a
               (exec env h1 (pre a)) inner
               (exec env (h2 ++ inner)
                     (post a (eval env h2 (useB a (work a x)))))).
Proof.
  intros EA h1. split.
  - intros work EB. apply window_nests; [exact EA |].
    unfold nest_direct. fold h1. rewrite (inner_cycle env h1 a (work a) EB).
    rewrite app_nil_r. reflexivity.
  - intros X pre work post x h2 EB inner. apply window_nests; [exact EA |].
    unfold nest_between. fold h1.
    rewrite exec_bind, exec_bind. fold x. fold h2.
    rewrite (inner_cycle env h2 a (work a x) EB). reflexivity.
Qed.
End Nesting.

Lemma nested_cycle_inside_callback_witness :
  nests env_ok [] TempFileResource
        (nest_direct (fun _ => TempFileResource)
           (fun fd1 fd2 =>
              '(_, err) <- call (FileWrite fd1 "hi!");;
              match err with
              | Some _ => Ret err
              | None => '(_, err) <- call (FileWrite fd2 "hi!");; Ret err
              end))
        temp0 []
        [Ev (IoutilTempFile "" "") (Ok temp1);
         Ev (FileWrite temp0 "hi!") (3%Z, None);
         Ev (FileWrite temp1 "hi!") (3%Z, None);
         Ev (OsRemove "/tmp/1") None;
         Ev (FileClose temp1) None]
        [].
Proof.
  apply (proj1 (@nested_cycle_inside_callback
                  File File TempFileResource (fun _ => TempFileResource)
                  TempFileResource_Scoped (fun _ => TempFileResource_Scoped)
                  env_ok [] temp0 temp1 eq_refl)).
  reflexivity.
Defined.

(** The nested temporary files of [mainErr], when every call succeeds:
    the inner file is removed and closed before the outer one. *)
Example nested_temp_files_run :
  run env_ok [] nested_temp_files =
  (None,
   [Ev (IoutilTempFile "" "") (Ok temp0);
    Ev (IoutilTempFile "" "") (Ok temp1);
    Ev (FileWrite temp0 "hi!") (3%Z, None);
    Ev (FileWrite temp1 "hi!") (3%Z, None);
    Ev (OsRemove "/tmp/1") None;
    Ev (FileClose temp1) None;
    Ev (OsRemove "/tmp/0") None;
    Ev (FileClose temp0) None]).
Proof. reflexivity. Qed.

(** ** The temporary file *)

(** C4, as the code has it.  When the temporary file is created, the
    release step of [TempFileResource] comes after the callback,
    whatever the callback returned, and is two calls: first
    [os.Remove] on the name the file had when it was created, then
    [Close] on the handle (deferred calls run last deferred first).
    The close is attempted whatever the removal returned. *)
Theorem temp_file_removed_then_closed (env : Env) (h : Trace)
        (callback : FileResourceCallback) (file : File) :
  env h _ (IoutilTempFile "" "") = Ok file ->
  let h1 := acquired h (IoutilTempFile "" "") file in
  let t := exec env h1 (callback file) in
  let removed := env (h1 ++ t) _ (OsRemove (file_name file)) in
  let closed :=
    env ((h1 ++ t) ++ [Ev (OsRemove (file_name file)) removed]) _
        (FileClose file) in
  exec env h (TempFileResource callback) =
  Ev (IoutilTempFile "" "") (Ok file)
     :: t ++ [Ev (OsRemove (file_name file)) removed;
              Ev (FileClose file) closed].
Proof.
  intro E. cbv zeta. unfold exec at 1.
  rewrite (TempFileResource_run env h callback E). reflexivity.
Qed.

Lemma temp_file_removed_then_closed_witness :
  exec (env_failing [KRemove]) [] (TempFileResource (just (Some boom))) =
  [Ev (IoutilTempFile "" "") (Ok temp0);
   Ev (OsRemove "/tmp/0") (Some (kind_error KRemove));
   Ev (FileClose temp0) None].
Proof.
  apply (temp_file_removed_then_closed
           (env_failing [KRemove]) [] (just (Some boom)) (file := temp0)).
  reflexivity.
Defined.

(** C4, as the specification has it, fails: with every call succeeding and a
    callback that does nothing, the file is removed first and closed
    afterwards; no [Close] of the handle comes before the removal. *)
Lemma temp_file_not_closed_before_removed :
  exec env_ok [] (TempFileResource (just None)) =
  [Ev (IoutilTempFile "" "") (Ok temp0);
   Ev (OsRemove "/tmp/0") None;
   Ev (FileClose temp0) None]
  /\ before (is_call (FileClose temp0)) (is_call (OsRemove "/tmp/0"))
            (exec env_ok [] (TempFileResource (just None))) = false.
Proof. split; reflexivity. Qed.

(** C5 fails on the code.  The temporary file is created, the callback
    succeeds, the removal and the close both fail, and
    [TempFileResource] returns no error: the results of its deferred
    calls are dropped. *)
Theorem TempFileResource_drops_release_error :
  run (env_failing [KRemove; KClose]) [] (TempFileResource (just None)) =
  (None,
   [Ev (IoutilTempFile "" "") (Ok temp0);
    Ev (OsRemove "/tmp/0") (Some (kind_error KRemove));
    Ev (FileClose temp0) (Some (kind_error KClose))]).
Proof. reflexivity. Qed.

(** Whatever the release calls return, the result of [TempFileResource]
    is the result of the callback. *)
Lemma TempFileResource_returns_callback_result (env : Env) (h : Trace)
      (callback : FileResourceCallback) (file : File) :
  env h _ (IoutilTempFile "" "") = Ok file ->
  eval env h (TempFileResource callback) =
  eval env (acquired h (IoutilTempFile "" "") file) (callback file).
Proof.
  intro E. unfold eval at 1.
  rewrite (TempFileResource_run env h callback E). reflexivity.
Qed.

(** ** The transaction *)

(** C6.  When [Begin] succeeds: if the callback fails, the invocation
    calls [Rollback] after it, makes no call to [Commit] of its own and
    returns the callback's error; if the callback succeeds, it calls
    [Commit] after it, makes no call to [Rollback] of its own and
    returns what [Commit] returned, so a failed commit is reported. *)
Theorem transaction_commits_or_rolls_back (env : Env) (h : Trace) (db : DB)
        (callback : Tx -> Prog error) (tx : Tx) :
  env h _ (DBBegin db) = Ok tx ->
  let h1 := acquired h (DBBegin db) tx in
  let t := exec env h1 (callback tx) in
  let all := exec env h (Use (RunTransaction db) callback) in
  (forall e,
      eval env h1 (callback tx) = Some e ->
      all = Ev (DBBegin db) (Ok tx)
               :: t ++ [Ev (TxRollback tx) (env (h1 ++ t) _ (TxRollback tx))]
      /\ count (is_call (TxRollback tx)) all
         = 1 + count (is_call (TxRollback tx)) t
      /\ count (is_call (TxCommit tx)) all = count (is_call (TxCommit tx)) t
      /\ eval env h (Use (RunTransaction db) callback) = Some e)
  /\ (eval env h1 (callback tx) = None ->
      all = Ev (DBBegin db) (Ok tx)
               :: t ++ [Ev (TxCommit tx) (env (h1 ++ t) _ (TxCommit tx))]
      /\ count (is_call (TxCommit tx)) all
         = 1 + count (is_call (TxCommit tx)) t
      /\ count (is_call (TxRollback tx)) all
         = count (is_call (TxRollback tx)) t
      /\ eval env h (Use (RunTransaction db) callback)
         = env (h1 ++ t) _ (TxCommit tx)).
Proof.
  intro E. cbv zeta.
  change (exec env h (Use (RunTransaction db) callback))
    with (snd (run env h (Use (RunTransaction db) callback))).
  change (eval env h (Use (RunTransaction db) callback))
    with (fst (run env h (Use (RunTransaction db) callback))).
  rewrite (RunTransaction_run env h db callback E).
  split.
  - intros e W. rewrite W. simpl fst. simpl snd.
    rewrite !count_cons, !count_app, !count_cons, !count_nil. simpl.
    rewrite Tx_eqb_refl. repeat split; lia.
  - intros W. rewrite W. simpl fst. simpl snd.
    rewrite !count_cons, !count_app, !count_cons, !count_nil. simpl.
    rewrite Tx_eqb_refl. repeat split; lia.
Qed.

Lemma transaction_commits_or_rolls_back_witness :
  eval (env_failing [KCommit]) [] (Use (RunTransaction (MkDB 1)) (just None))
  = Some (kind_error KCommit)
  /\ exec env_ok [] (Use (RunTransaction (MkDB 1)) (just (Some boom)))
     = [Ev (DBBegin (MkDB 1)) (Ok (MkTx 0)); Ev (TxRollback (MkTx 0)) None].
Proof.
  split.
  - exact (proj2 (proj2 (proj2
             (proj2 (transaction_commits_or_rolls_back
                       (env_failing [KCommit]) [] (MkDB 1) (just None)
                       (tx := MkTx 0) eq_refl)
                    eq_refl)))).
  - exact (proj1
             (proj1 (transaction_commits_or_rolls_back
                       env_ok [] (MkDB 1) (just (Some boom))
                       (tx := MkTx 0) eq_refl)
                    boom eq_refl)).
Defined.

(** ** The hand-written and the CPS file writers *)

(** The two functions make the same calls, and an error returned by the
    hand-written one is returned by the CPS one as well. *)
Lemma writeFile2_same_calls (env : Env) (h : Trace) (path content : string) :
  exec env h (writeFile1_WithErrorHandling path content)
  = exec env h (writeFile2 path content)
  /\ (forall e,
         eval env h (writeFile1_WithErrorHandling path content) = Some e ->
         eval env h (writeFile2 path content) = Some e).
Proof.
  unfold eval, exec, writeFile1_WithErrorHandling, writeFile2,
    NewFileResource, write_twice, go_return, deferred_close.
  simpl.
  destruct (env h _ (OsOpenFile path NewFileFlag OwnerRWOnly)) as [file | e0];
    simpl; [| split; [reflexivity | intros e E; exact E]].
  destruct (env _ _ (FileWrite file content)) as [n1 [e1 |]];
    simpl; [split; [reflexivity | intros e E; exact E] |].
  destruct (env _ _ (FileWrite file content)) as [n2 [e2 |]];
    simpl; [split; [reflexivity | intros e E; exact E] |].
  split; [reflexivity | intros e E; discriminate E].
Qed.

(** C10 fails on the code.  When the file opens, both writes succeed
    and the close fails, the two functions make the same four calls,
    [writeFile2] returns the close error, and
    [writeFile1_WithErrorHandling] returns no error: its deferred
    closure assigns the local variable [err] after [return err] has
    stored the result. *)
Theorem writeFile1_WithErrorHandling_drops_close_error :
  run (env_failing [KClose]) []
      (writeFile1_WithErrorHandling "./test2.txt" "test2")
  = (None,
     [Ev (OsOpenFile "./test2.txt" NewFileFlag OwnerRWOnly) (Ok test2_file);
      Ev (FileWrite test2_file "test2") (5%Z, None);
      Ev (FileWrite test2_file "test2") (5%Z, None);
      Ev (FileClose test2_file) (Some (kind_error KClose))])
  /\ run (env_failing [KClose]) [] (writeFile2 "./test2.txt" "test2")
     = (Some (kind_error KClose),
        [Ev (OsOpenFile "./test2.txt" NewFileFlag OwnerRWOnly) (Ok test2_file);
         Ev (FileWrite test2_file "test2") (5%Z, None);
         Ev (FileWrite test2_file "test2") (5%Z, None);
         Ev (FileClose test2_file) (Some (kind_error KClose))]).
Proof. split; reflexivity. Qed.

(* ================================================================= *)
(** * Properties of the balanced spawner *)

Section SpawnerFacts.
Variable Mem : Type.
Implicit Types (s : State Mem) (c : Code Mem) (ts : list (Code Mem))
         (ins : Instr Mem) (tr : list (nat * Instr Mem)).

(** ** Threads *)

Lemma length_set_thread i c ts :
  List.length (set_thread i c ts) = List.length ts.
Proof.
  revert i; induction ts as [| t ts IH]; intros [| i]; simpl; auto.
Qed.

Lemma nth_error_set_thread_same i c c0 ts :
  nth_error ts i = Some c0 -> nth_error (set_thread i c ts) i = Some c.
Proof.
  revert i; induction ts as [| t ts IH]; intros [| i]; simpl;
    try discriminate; auto.
Qed.

Lemma nth_error_set_thread_other i j c ts :
  i <> j -> nth_error (set_thread i c ts) j = nth_error ts j.
Proof.
  revert i j; induction ts as [| t ts IH]; intros [| i] [| j] N; simpl;
    auto; try congruence.
Qed.

Lemma alive_count_set_thread i c c0 ts :
  nth_error ts i = Some c0 ->
  alive_count (set_thread i c ts) + alive c0 = alive_count ts + alive c.
Proof.
  unfold alive_count.
  revert i; induction ts as [| t ts IH]; intros [| i]; simpl;
    try discriminate.
  - intros [= ->]. lia.
  - intro E. specialize (IH i E). lia.
Qed.

Lemma alive_count_app ts ts' :
  alive_count (ts ++ ts') = alive_count ts + alive_count ts'.
Proof. unfold alive_count. rewrite map_app, list_sum_app. reflexivity. Qed.

Lemma alive_count_zero ts :
  alive_count ts = 0 -> forall j g, nth_error ts j = Some g -> g = [].
Proof.
  unfold alive_count.
  induction ts as [| t ts IH]; intros Z [| j] g; simpl in *;
    try discriminate.
  - intros [= ->]. destruct g; [reflexivity | simpl in Z; lia].
  - apply IH. lia.
Qed.

Lemma alive_count_pos ts j ins c :
  nth_error ts j = Some (ins :: c) -> 0 < alive_count ts.
Proof.
  unfold alive_count.
  revert j; induction ts as [| t ts IH]; intros [| j]; simpl;
    try discriminate.
  - intros [= ->]. simpl. lia.
  - intro E. specialize (IH j E). lia.
Qed.

(** ** One step *)

Lemma step_cases s i ins s' :
  step s i = Some (ins, s') ->
  crashed s = false
  /\ exists rest,
      nth_error (threads s) i = Some (ins :: rest)
      /\ match ins with
         | IAdd d =>
             ((wg s + d < 0)%Z /\ s' = crash s)
             \/ ((0 <= wg s + d)%Z
                 /\ s' = MkState (wg s + d) (mem s)
                                 (set_thread i rest (threads s)) false)
         | IWait =>
             wg s = 0%Z
             /\ s' = MkState (wg s) (mem s)
                             (set_thread i rest (threads s)) false
         | IGo body =>
             s' = MkState (wg s) (mem s)
                          (set_thread i rest (threads s) ++ [body]) false
         | IAct f =>
             (f (mem s) = None /\ s' = crash s)
             \/ (exists m, f (mem s) = Some m
                           /\ s' = MkState (wg s) m
                                           (set_thread i rest (threads s))
                                           false)
         | IPanic => s' = crash s
         | IGoexit =>
             s' = MkState (wg s) (mem s) (set_thread i [] (threads s)) false
         end.
Proof.
  unfold step. destruct (crashed s) eqn:C; [discriminate |].
  destruct (nth_error (threads s) i) as [[| ins0 rest] |] eqn:T;
    try discriminate.
  intro E. split; [reflexivity |]. exists rest.
  destruct ins0; simpl in E.
  - destruct (wg s + delta <? 0)%Z eqn:N; inversion E; subst;
      (split; [reflexivity |]).
    + left. split; [apply Z.ltb_lt; exact N | reflexivity].
    + right. split; [apply Z.ltb_ge; exact N | reflexivity].
  - destruct (wg s =? 0)%Z eqn:N; inversion E; subst.
    split; [reflexivity |]. split; [apply Z.eqb_eq; exact N | reflexivity].
  - inversion E; subst. split; reflexivity.
  - destruct (f (mem s)) as [m |] eqn:F; inversion E; subst;
      (split; [reflexivity |]).
    + right. exists m. split; [exact F | reflexivity].
    + left. split; [exact F | reflexivity].
  - inversion E; subst. split; reflexivity.
  - inversion E; subst. split; reflexivity.
Qed.

Lemma step_crashed s i : crashed s = true -> step s i = None.
Proof. intro C. unfold step. rewrite C. reflexivity. Qed.

Lemma step_returned s i : nth_error (threads s) i = Some [] -> step s i = None.
Proof.
  intro T. unfold step. rewrite T. destruct (crashed s); reflexivity.
Qed.

Lemma step_missing s i : nth_error (threads s) i = None -> step s i = None.
Proof.
  intro T. unfold step. rewrite T. destruct (crashed s); reflexivity.
Qed.

(** ** Executions *)

Lemma reach_first s0 i ins s1 tr s :
  step s0 i = Some (ins, s1) -> reach s1 tr s -> reach s0 ((i, ins) :: tr) s.
Proof.
  intros St R. induction R as [| tr s j ins' s' R IH St'].
  - change [(i, ins)] with ([] ++ [(i, ins)]).
    eapply reach_step; [constructor | exact St].
  - change ((i, ins) :: tr ++ [(j, ins')])
      with (((i, ins) :: tr) ++ [(j, ins')]).
    eapply reach_step; [exact IH | exact St'].
Qed.

Lemma run_schedule_reach sched :
  forall s0 tr s, run_schedule s0 sched = Some (tr, s) -> reach s0 tr s.
Proof.
  induction sched as [| i sched IH]; intros s0 tr s; simpl.
  - intros [= <- <-]. constructor.
  - destruct (step s0 i) as [[ins s1] |] eqn:St; [| discriminate].
    destruct (run_schedule s1 sched) as [[tr1 s2] |] eqn:R; [| discriminate].
    intros [= <- <-]. eapply reach_first; eauto.
Qed.

Lemma run_schedule_app sched1 :
  forall sched2 s0 tr1 s1 tr2 s2,
    run_schedule s0 sched1 = Some (tr1, s1) ->
    run_schedule s1 sched2 = Some (tr2, s2) ->
    run_schedule s0 (sched1 ++ sched2) = Some (tr1 ++ tr2, s2).
Proof.
  induction sched1 as [| i sched1 IH]; intros sched2 s0 tr1 s1 tr2 s2; simpl.
  - intros [= <- <-] R. exact R.
  - destruct (step s0 i) as [[ins s'] |]; [| discriminate].
    destruct (run_schedule s' sched1) as [[tr' s''] |] eqn:R1;
      [| discriminate].
    intros [= <- <-] R2. rewrite (IH _ _ _ _ _ _ R1 R2). reflexivity.
Qed.

Lemma reach_run_schedule s0 tr s :
  reach s0 tr s -> run_schedule s0 (map fst tr) = Some (tr, s).
Proof.
  induction 1 as [| tr s i ins s' R IH St]; [reflexivity |].
  rewrite map_app. eapply run_schedule_app; [exact IH |].
  simpl. rewrite St. reflexivity.
Qed.

Lemma instrs_by_snoc i j ins tr :
  instrs_by i (tr ++ [(j, ins)]) =
  if Nat.eqb j i then instrs_by i tr ++ [ins] else instrs_by i tr.
Proof.
  unfold instrs_by. rewrite filter_app, map_app. simpl.
  destruct (Nat.eqb j i); simpl; [reflexivity | apply app_nil_r].
Qed.

Lemma instrs_by_same i ins tr :
  instrs_by i (tr ++ [(i, ins)]) = instrs_by i tr ++ [ins].
Proof. rewrite instrs_by_snoc, Nat.eqb_refl. reflexivity. Qed.

Lemma instrs_by_other i j ins tr :
  j <> i -> instrs_by i (tr ++ [(j, ins)]) = instrs_by i tr.
Proof.
  intro N. rewrite instrs_by_snoc.
  destruct (Nat.eqb_spec j i); [contradiction | reflexivity].
Qed.
End SpawnerFacts.

Section Bound.
Variable Mem : Type.
Implicit Types (s : State Mem) (c : Code Mem) (ts : list (Code Mem))
         (ins : Instr Mem) (tr : list (nat * Instr Mem)).

(** ** Every execution is finite *)

Lemma size_pos ins : 0 < size ins.
Proof. destruct ins; simpl; lia. Qed.

Lemma code_size_set_thread i c c0 ts :
  nth_error ts i = Some c0 ->
  list_sum (map (@code_size Mem) (set_thread i c ts)) + code_size c0
  = list_sum (map (@code_size Mem) ts) + code_size c.
Proof.
  revert i; induction ts as [| t ts IH]; intros [| i]; simpl;
    try discriminate.
  - intros [= ->]. lia.
  - intro E. specialize (IH i E). lia.
Qed.

Lemma step_weight s i ins s' :
  step s i = Some (ins, s') ->
  0 < weight s /\ (crashed s' = false -> weight s' < weight s).
Proof.
  intro St. destruct (@step_cases _ _ _ _ _ St) as (C & rest & N & Eff).
  pose proof (size_pos ins) as P.
  pose proof (@code_size_set_thread i rest _ _ N) as R.
  pose proof (@code_size_set_thread i [] _ _ N) as R0.
  unfold weight. unfold code_size at 2 in R. unfold code_size at 2 in R0.
  simpl in R, R0. fold (code_size rest) in R.
  split; [lia |]. intro C'.
  destruct ins.
  - destruct Eff as [[_ ->] | [_ ->]]; [discriminate C' |].
    simpl. lia.
  - destruct Eff as [_ ->]. simpl. lia.
  - subst s'. simpl. rewrite map_app, list_sum_app. simpl.
    simpl in R. fold (code_size body) in R. lia.
  - destruct Eff as [[_ ->] | (m & _ & ->)]; [discriminate C' |].
    simpl. lia.
  - subst s'. discriminate C'.
  - subst s'. simpl. unfold code_size at 3 in R0. simpl in R0. lia.
Qed.

Lemma reach_bounded s0 tr s :
  reach s0 tr s ->
  List.length tr + (if crashed s then 0 else weight s) <= weight s0.
Proof.
  induction 1 as [| tr s i ins s' R IH St].
  - simpl. destruct (crashed s0); lia.
  - destruct (@step_weight _ _ _ _ St) as [P D].
    rewrite (proj1 (@step_cases _ _ _ _ _ St)) in IH.
    rewrite length_app. simpl.
    destruct (crashed s'); [lia | specialize (D eq_refl); lia].
Qed.
End Bound.

(** ** The invariant of "submit every task, then wait" *)

Section SubmitFacts.
Variable Mem : Type.
Variable tasks : list (Code Mem).
Hypothesis plain : forallb (@acts_only Mem) tasks = true.
Implicit Types (s : State Mem) (c : Code Mem) (ins : Instr Mem)
         (tr : list (nat * Instr Mem)).

Lemma goroutine_next (t : Code Mem) done ins rest :
  acts_only t = true ->
  done ++ ins :: rest = goroutine t ->
  (is_act ins = true /\ rest <> []) \/ (ins = IAdd (-1) /\ rest = []).
Proof.
  unfold goroutine, acts_only. intros A E.
  destruct rest as [| r rest].
  - right. split; [| reflexivity].
    apply app_inj_tail in E. apply E.
  - left. split; [| discriminate].
    destruct (exists_last (l := r :: rest)) as (body' & l' & B');
      [discriminate |].
    rewrite B' in E.
    change (done ++ ins :: body' ++ [l'])
      with (done ++ (ins :: body') ++ [l']) in E.
    rewrite app_assoc in E. apply app_inj_tail in E. destruct E as [E _].
    rewrite <- E, forallb_app in A. simpl in A.
    apply andb_prop in A. destruct A as [_ A].
    apply andb_prop in A. apply A.
Qed.

Lemma task_plain j t : nth_error tasks j = Some t -> acts_only t = true.
Proof.
  intro N. apply nth_error_In in N.
  rewrite forallb_forall in plain. auto.
Qed.

Lemma main_phase_other tr main n p j ins :
  main_phase tasks tr main n p ->
  main_phase tasks (tr ++ [(S j, ins)]) main n p.
Proof.
  intro Ph.
  assert (E : instrs_by 0 (tr ++ [(S j, ins)]) = instrs_by 0 tr)
    by (apply instrs_by_other; discriminate).
  destruct Ph; [eapply Submitting | eapply Spawning | eapply Waited];
    eauto; congruence.
Qed.

Lemma main_phase_pending tr main n p :
  main_phase tasks tr main n p -> (0 <= p <= 1)%Z.
Proof. destruct 1; lia. Qed.

Lemma submit_all_snoc (done : list (Code Mem)) (t : Code Mem) :
  submit_all (done ++ [t]) = submit_all done ++ [IAdd 1; IGo (goroutine t)].
Proof.
  unfold submit_all. rewrite flat_map_app. simpl.
  reflexivity.
Qed.

Lemma submit_inv_init (m : Mem) :
  submit_inv tasks [] (init (submit_then_wait tasks) m).
Proof.
  exists (submit_then_wait tasks), [], 0%Z. simpl.
  split; [reflexivity |]. split; [| split; [reflexivity | split; [| split]]].
  - apply (@Submitting Mem tasks [] _ 0 [] tasks); reflexivity.
  - intros [| j] g; discriminate.
  - reflexivity.
  - unfold submit_then_wait, RunGroup, Wait. intro E.
    apply app_eq_nil in E. destruct E as [_ E]. discriminate E.
Qed.

Lemma submit_inv_main_step tr s ins s' :
  submit_inv tasks tr s ->
  step s 0 = Some (ins, s') ->
  crashed s' = false ->
  submit_inv tasks (tr ++ [(0, ins)]) s'.
Proof.
  intros (main & gs & pending & T & Ph & W & G & U & Z0) St C'.
  destruct (@step_cases _ _ _ _ _ St) as (C & rest & N & Eff).
  rewrite T in N. simpl in N. injection N as ->.
  assert (G' : forall j g, nth_error gs j = Some g ->
                 exists t, nth_error tasks j = Some t
                           /\ instrs_by (S j) (tr ++ [(0, ins)]) ++ g
                              = goroutine t).
  { intros j g Ng. destruct (G j g Ng) as (t & Nt & E). exists t.
    rewrite instrs_by_other by discriminate. auto. }
  assert (U' : forall i, List.length gs < i ->
                         instrs_by i (tr ++ [(0, ins)]) = []).
  { intros i L. rewrite instrs_by_other by lia. auto. }
  inversion Ph as [done rest0 Et Ld Em Ei Ep | done t rest0 Et Ld Em Ei Ep
                   | Lt Em Ei Ep]; subst pending.
  - destruct rest0 as [| t rest0]; simpl in Em; injection Em as -> ->.
    + (* Wait returns *)
      destruct Eff as [W0 ->].
      exists [], gs, 0%Z. simpl. rewrite T. simpl.
      split; [reflexivity |].
      split; [| split; [exact W | split; [| split]]]; auto.
      apply Waited.
      * rewrite Et, app_nil_r. exact Ld.
      * reflexivity.
      * rewrite instrs_by_same, Ei. rewrite Et, app_nil_r. reflexivity.
    + (* the increment of Run *)
      destruct Eff as [[_ ->] | [_ ->]]; [discriminate C' |].
      exists (IGo (goroutine t) :: submit_all rest0 ++ Wait), gs, 1%Z.
      simpl. rewrite T. simpl.
      split; [reflexivity |].
      split; [| split; [lia | split; [| split]]]; auto; try discriminate.
      apply (@Spawning Mem tasks _ _ _ done t rest0); auto.
      rewrite instrs_by_same, Ei. reflexivity.
  - (* the go statement of Run *)
    injection Em as -> ->. subst s'.
    exists (submit_all rest0 ++ Wait), (gs ++ [goroutine t]), 0%Z.
    simpl. rewrite T. simpl.
    split; [reflexivity |]. split; [| split; [| split; [| split]]].
    + apply (@Submitting Mem tasks _ _ _ (done ++ [t]) rest0).
      * rewrite <- app_assoc. exact Et.
      * rewrite !length_app. simpl. lia.
      * reflexivity.
      * rewrite instrs_by_same, Ei, submit_all_snoc, <- app_assoc.
        reflexivity.
    + rewrite alive_count_app. unfold goroutine at 1.
      unfold alive_count at 2. simpl.
      destruct t; simpl; lia.
    + intros j g Ng.
      destruct (Nat.lt_ge_cases j (List.length gs)) as [L | L].
      * rewrite nth_error_app1 in Ng by exact L. auto.
      * rewrite nth_error_app2 in Ng by exact L.
        destruct (j - List.length gs) as [| d] eqn:D; simpl in Ng;
          [| destruct d; discriminate].
        injection Ng as <-.
        assert (j = List.length gs) by lia. subst j.
        exists t. split.
        -- rewrite Et, <- Ld, nth_error_app2, Nat.sub_diag by lia.
           reflexivity.
        -- rewrite (U' (S (List.length gs))) by lia. reflexivity.
    + intros i L. rewrite length_app in L. simpl in L. apply U'. lia.
    + unfold Wait. intro E.
      apply app_eq_nil in E. destruct E as [_ E]. discriminate E.
  - discriminate Em.
Qed.

Lemma submit_inv_goroutine_step tr s j ins s' :
  submit_inv tasks tr s ->
  step s (S j) = Some (ins, s') ->
  crashed s' = false ->
  submit_inv tasks (tr ++ [(S j, ins)]) s'.
Proof.
  intros (main & gs & pending & T & Ph & W & G & U & Z0) St C'.
  destruct (@step_cases _ _ _ _ _ St) as (C & rest & N & Eff).
  rewrite T in N. simpl in N.
  destruct (G j _ N) as (t & Nt & E).
  assert (L : j < List.length gs)
    by (apply nth_error_Some; rewrite N; discriminate).
  assert (T' : set_thread (S j) rest (threads s)
               = main :: set_thread j rest gs)
    by (rewrite T; reflexivity).
  assert (G' : forall j' g, nth_error (set_thread j rest gs) j' = Some g ->
                 exists t', nth_error tasks j' = Some t'
                            /\ instrs_by (S j') (tr ++ [(S j, ins)]) ++ g
                               = goroutine t').
  { intros j' g Ng. destruct (Nat.eq_dec j j') as [<- | D].
    - erewrite nth_error_set_thread_same in Ng by exact N.
      injection Ng as <-. exists t. split; [exact Nt |].
      rewrite instrs_by_same, <- app_assoc. exact E.
    - rewrite nth_error_set_thread_other in Ng by exact D.
      destruct (G j' g Ng) as (t' & Nt' & E'). exists t'.
      rewrite instrs_by_other by congruence. auto. }
  assert (U' : forall i, List.length (set_thread j rest gs) < i ->
                         instrs_by i (tr ++ [(S j, ins)]) = []).
  { intros i Li. rewrite length_set_thread in Li.
    rewrite instrs_by_other by lia. apply U. exact Li. }
  assert (Ph' : main_phase tasks (tr ++ [(S j, ins)]) main
                           (List.length (set_thread j rest gs)) pending).
  { rewrite length_set_thread. apply main_phase_other. exact Ph. }
  pose proof (@alive_count_set_thread _ j rest _ _ N) as A. simpl in A.
  pose proof (main_phase_pending Ph) as P.
  destruct (@goroutine_next _ _ _ _ (@task_plain _ _ Nt) E) as [[Act Ne] | [-> ->]].
  - (* an action of the task *)
    destruct ins; try discriminate Act.
    destruct Eff as [[_ ->] | (m & _ & ->)]; [discriminate C' |].
    exists main, (set_thread j rest gs), pending. simpl.
    split; [exact T' |]. split; [exact Ph' |].
    split; [| split; [| split]]; auto.
    destruct rest; [contradiction |]. simpl in A. lia.
  - (* the decrement *)
    destruct Eff as [[_ ->] | [_ ->]]; [discriminate C' |].
    exists main, (set_thread j [] gs), pending. simpl.
    split; [exact T' |]. split; [exact Ph' |].
    split; [| split; [| split]]; auto.
    + simpl in A. lia.
    + intro M. specialize (Z0 M).
      pose proof (alive_count_pos _ _ N). lia.
Qed.

Lemma submit_inv_reach (m : Mem) tr s :
  reach (init (submit_then_wait tasks) m) tr s ->
  crashed s = false ->
  submit_inv tasks tr s.
Proof.
  induction 1 as [| tr s i ins s' R IH St]; intro C.
  - apply submit_inv_init.
  - pose proof (proj1 (@step_cases _ _ _ _ _ St)) as C0.
    destruct i as [| j].
    + apply submit_inv_main_step with (s := s); auto.
    + apply submit_inv_goroutine_step with (s := s); auto.
Qed.

(** The counter never goes negative: an [Add] that runs leaves it at 0
    or more. *)
Lemma submit_add_not_negative tr s i d s' :
  submit_inv tasks tr s ->
  step s i = Some (IAdd d, s') ->
  (0 <= wg s + d)%Z.
Proof.
  intros (main & gs & pending & T & Ph & W & G & U & Z0) St.
  destruct (@step_cases _ _ _ _ _ St) as (C & rest & N & _).
  pose proof (main_phase_pending Ph) as P.
  rewrite T in N. destruct i as [| j]; simpl in N.
  - injection N as ->.
    inversion Ph as [done rest0 Et Ld Em Ei Ep | done t rest0 Et Ld Em Ei Ep
                     | Lt Em Ei Ep]; try discriminate Em.
    destruct rest0; simpl in Em; [discriminate Em |].
    injection Em as -> _. lia.
  - destruct (G j _ N) as (t & Nt & E).
    destruct (@goroutine_next _ _ _ _ (@task_plain _ _ Nt) E)
      as [[Act _] | [D _]]; [discriminate Act |].
    injection D as ->. pose proof (alive_count_pos _ _ N). lia.
Qed.

(** Only the actions of the tasks and the three instructions of [Run]
    and [Wait] are ever run. *)
Lemma submit_no_exit tr s i ins s' :
  submit_inv tasks tr s ->
  step s i = Some (ins, s') ->
  ins <> IPanic /\ ins <> IGoexit.
Proof.
  intros (main & gs & pending & T & Ph & W & G & U & Z0) St.
  destruct (@step_cases _ _ _ _ _ St) as (C & rest & N & _).
  rewrite T in N. destruct i as [| j]; simpl in N.
  - injection N as ->.
    inversion Ph as [done rest0 Et Ld Em Ei Ep | done t rest0 Et Ld Em Ei Ep
                     | Lt Em Ei Ep]; try discriminate Em.
    + destruct rest0; simpl in Em; injection Em as -> _;
        split; discriminate.
    + injection Em as -> _. split; discriminate.
  - destruct (G j _ N) as (t & Nt & E).
    destruct (@goroutine_next _ _ _ _ (@task_plain _ _ Nt) E)
      as [[Act _] | [-> _]]; [| split; discriminate].
    destruct ins; try discriminate Act; split; discriminate.
Qed.

(** The program crashes only when an action of a task panics. *)
Lemma submit_crash_is_panic tr s i ins s' :
  submit_inv tasks tr s ->
  step s i = Some (ins, s') ->
  crashed s' = true ->
  exists f, ins = IAct f /\ f (mem s) = None.
Proof.
  intros I St C'.
  pose proof (@submit_no_exit _ _ _ _ _ I St) as [NP NG].
  destruct (@step_cases _ _ _ _ _ St) as (C & rest & N & Eff).
  destruct ins.
  - pose proof (@submit_add_not_negative _ _ _ _ _ I St).
    destruct Eff as [[? _] | [_ ->]]; [lia | discriminate C'].
  - destruct Eff as [_ ->]. discriminate C'.
  - subst s'. discriminate C'.
  - destruct Eff as [[F _] | (m & _ & ->)]; [eauto | discriminate C'].
  - contradiction.
  - contradiction.
Qed.

(** Once [Wait] has returned the counter is 0, and every task has been
    run to its end by a goroutine that then decremented the counter
    once and returned. *)
Lemma submit_waited tr s :
  submit_inv tasks tr s ->
  nth_error (threads s) 0 = Some [] ->
  wg s = 0%Z
  /\ List.length (threads s) = S (List.length tasks)
  /\ instrs_by 0 tr = submit_then_wait tasks
  /\ forall j t, nth_error tasks j = Some t ->
                 nth_error (threads s) (S j) = Some []
                 /\ instrs_by (S j) tr = goroutine t.
Proof.
  intros (main & gs & pending & T & Ph & W & G & U & Z0) M.
  rewrite T in M. simpl in M. injection M as ->.
  specialize (Z0 eq_refl).
  pose proof (main_phase_pending Ph) as P.
  assert (A : alive_count gs = 0) by lia.
  inversion Ph as [done rest0 Et Ld Em Ei Ep | done t rest0 Et Ld Em Ei Ep
                   | Lt Em Ei Ep].
  - symmetry in Em. apply app_eq_nil in Em. destruct Em as [_ Em].
    discriminate Em.
  - discriminate Em.
  - rewrite T. simpl. repeat split; auto.
    + destruct (nth_error gs j) as [g |] eqn:Ng.
      * rewrite (alive_count_zero _ A _ Ng). reflexivity.
      * apply nth_error_None in Ng.
        assert (j < List.length tasks)
          by (apply nth_error_Some; congruence).
        lia.
    + destruct (nth_error gs j) as [g |] eqn:Ng.
      * destruct (G j g Ng) as (t' & Nt' & E).
        rewrite (alive_count_zero _ A _ Ng), app_nil_r in E. congruence.
      * apply nth_error_None in Ng.
        assert (j < List.length tasks)
          by (apply nth_error_Some; congruence).
        lia.
Qed.

Lemma alive_count_witness (gs : list (Code Mem)) :
  0 < alive_count gs ->
  exists j ins rest, nth_error gs j = Some (ins :: rest).
Proof.
  unfold alive_count.
  induction gs as [| g gs IH]; simpl; [lia |].
  destruct g as [| ins rest]; simpl.
  - intro A. destruct (IH A) as (j & ins & rest & N).
    exists (S j), ins, rest. exact N.
  - intros _. exists 0, ins, rest. reflexivity.
Qed.

(** No deadlock: as long as the program has not crashed and [Wait] has
    not returned, some thread can run. *)
Lemma submit_progress tr s :
  submit_inv tasks tr s ->
  crashed s = false ->
  stuck s ->
  nth_error (threads s) 0 = Some [].
Proof.
  intros (main & gs & pending & T & Ph & W & G & U & Z0) C St.
  rewrite T. simpl.
  inversion Ph as [done rest0 Et Ld Em Ei Ep | done t rest0 Et Ld Em Ei Ep
                   | Lt Em Ei Ep]; subst pending.
  - destruct rest0 as [| t rest0]; simpl in Em.
    + destruct (Z.eq_dec (wg s) 0) as [E0 | N0].
      * specialize (St 0). unfold step in St.
        rewrite C, T, Em in St. simpl in St.
        rewrite E0 in St. discriminate St.
      * destruct (@alive_count_witness gs) as (j & ins & rest & N); [lia |].
        destruct (G j _ N) as (t & Nt & E).
        specialize (St (S j)). unfold step in St.
        rewrite C, T in St. simpl in St. rewrite N in St.
        destruct (@goroutine_next _ _ _ _ (@task_plain _ _ Nt) E)
          as [[Act _] | [-> _]].
        -- destruct ins; try discriminate Act.
           destruct (f (mem s)); discriminate St.
        -- destruct (wg s + -1 <? 0)%Z; discriminate St.
    + specialize (St 0). unfold step in St.
      rewrite C, T, Em in St. simpl in St.
      destruct (wg s + 1 <? 0)%Z; discriminate St.
  - specialize (St 0). unfold step in St.
    rewrite C, T, Em in St. discriminate St.
  - rewrite Em. reflexivity.
Qed.

Lemma submit_main_no_act tr s ins s' :
  submit_inv tasks tr s ->
  step s 0 = Some (ins, s') ->
  is_act ins = false.
Proof.
  intros (main & gs & pending & T & Ph & W & G & U & Z0) St.
  destruct (@step_cases _ _ _ _ _ St) as (C & rest & N & _).
  rewrite T in N. simpl in N. injection N as ->.
  inversion Ph as [done rest0 Et Ld Em Ei Ep | done t rest0 Et Ld Em Ei Ep
                   | Lt Em Ei Ep]; try discriminate Em.
  - destruct rest0; simpl in Em; injection Em as -> _; reflexivity.
  - injection Em as -> _. reflexivity.
Qed.

Lemma submit_goroutine_code tr s j ins s' :
  submit_inv tasks tr s ->
  step s (S j) = Some (ins, s') ->
  exists t rest, nth_error tasks j = Some t
                 /\ instrs_by (S j) tr ++ ins :: rest = goroutine t.
Proof.
  intros (main & gs & pending & T & Ph & W & G & U & Z0) St.
  destruct (@step_cases _ _ _ _ _ St) as (C & rest & N & _).
  rewrite T in N. simpl in N.
  destruct (G j _ N) as (t & Nt & E). eauto.
Qed.

(** An execution has not crashed, or its last instruction is an action
    of a task that panicked. *)
Lemma submit_reach_cases (m : Mem) tr s :
  reach (init (submit_then_wait tasks) m) tr s ->
  (crashed s = false /\ submit_inv tasks tr s)
  \/ (crashed s = true
      /\ exists tr0 s0 i f,
          tr = tr0 ++ [(i, IAct f)]
          /\ submit_inv tasks tr0 s0
          /\ step s0 i = Some (IAct f, s)
          /\ f (mem s0) = None
          /\ threads s = threads s0).
Proof.
  intro R. destruct (crashed s) eqn:C.
  - right. split; [reflexivity |].
    destruct R as [| tr s i ins s' R St]; [discriminate C |].
    pose proof (proj1 (@step_cases _ _ _ _ _ St)) as C0.
    pose proof (submit_inv_reach R C0) as I.
    destruct (@submit_crash_is_panic _ _ _ _ _ I St C) as (f & -> & F).
    exists tr, s, i, f. repeat split; auto.
    destruct (@step_cases _ _ _ _ _ St) as (_ & rest & _ & Eff).
    destruct Eff as [[_ ->] | (m' & F' & _)]; [reflexivity | congruence].
  - left. split; [reflexivity |]. apply (submit_inv_reach R C).
Qed.

Lemma submit_waited_not_crashed (m : Mem) tr s :
  reach (init (submit_then_wait tasks) m) tr s ->
  nth_error (threads s) 0 = Some [] ->
  crashed s = false.
Proof.
  intros R M.
  destruct (submit_reach_cases R)
    as [[C _] | (_ & tr0 & s0 & i & f & _ & I & St & _ & T)]; [exact C |].
  rewrite T in M.
  destruct (submit_waited I M) as (_ & L & _ & A).
  destruct (@step_cases _ _ _ _ _ St) as (_ & rest & N & _).
  destruct i as [| j]; [congruence |].
  destruct (nth_error tasks j) as [t |] eqn:Nt.
  - destruct (A j t Nt) as [N' _]. congruence.
  - apply nth_error_None in Nt.
    assert (S j < List.length (threads s0))
      by (apply nth_error_Some; congruence).
    lia.
Qed.

(** ** Increments and decrements *)

Lemma adds_snoc d tr i ins :
  adds d (tr ++ [(i, ins)]) = adds d tr + (if is_add d ins then 1 else 0).
Proof.
  unfold adds. rewrite filter_app, length_app. simpl.
  destruct (is_add d ins); reflexivity.
Qed.

Lemma adds_by_instrs i d tr :
  adds_by i d tr = List.length (filter (is_add d) (instrs_by i tr)).
Proof.
  unfold adds_by, instrs_by.
  induction tr as [| [k ins] tr IH]; simpl; [reflexivity |].
  destruct (Nat.eqb k i); simpl; [| exact IH].
  destruct (is_add d ins); simpl; rewrite IH; reflexivity.
Qed.

Lemma acts_have_no_add d (t : Code Mem) :
  forallb (@is_act Mem) t = true -> filter (is_add d) t = [].
Proof.
  induction t as [| ins t IH]; simpl; [reflexivity |].
  intro A. apply andb_prop in A. destruct A as [A1 A2].
  destruct ins; try discriminate A1. simpl. auto.
Qed.

Lemma goroutine_prefix (t : Code Mem) pre ins rest :
  acts_only t = true ->
  pre ++ ins :: rest = goroutine t ->
  forallb (@is_act Mem) pre = true.
Proof.
  unfold goroutine, acts_only. intros A E.
  destruct rest as [| r rest].
  - apply app_inj_tail in E. destruct E as [-> _]. exact A.
  - destruct (exists_last (l := r :: rest)) as (body & l & B);
      [discriminate |].
    rewrite B in E.
    change (pre ++ ins :: body ++ [l])
      with (pre ++ (ins :: body) ++ [l]) in E.
    rewrite app_assoc in E. apply app_inj_tail in E. destruct E as [E _].
    rewrite <- E, forallb_app in A. apply andb_prop in A. apply A.
Qed.

Lemma goroutine_decrements_once (t : Code Mem) :
  acts_only t = true ->
  List.length (filter (is_add (-1)) (goroutine t)) = 1.
Proof.
  intro A. unfold goroutine.
  rewrite filter_app, (acts_have_no_add _ _ A). reflexivity.
Qed.

Lemma submit_all_increments (ts : list (Code Mem)) :
  List.length (filter (is_add 1) (submit_then_wait ts)) = List.length ts.
Proof.
  unfold submit_then_wait, RunGroup, submit_all.
  induction ts as [| t ts IH]; simpl; [reflexivity |].
  rewrite IH. reflexivity.
Qed.

Lemma submit_add_delta tr s i d s' :
  submit_inv tasks tr s ->
  step s i = Some (IAdd d, s') ->
  d = 1%Z \/ d = (-1)%Z.
Proof.
  intros (main & gs & pending & T & Ph & W & G & U & Z0) St.
  destruct (@step_cases _ _ _ _ _ St) as (C & rest & N & _).
  rewrite T in N. destruct i as [| j]; simpl in N.
  - injection N as ->.
    inversion Ph as [done rest0 Et Ld Em Ei Ep | done t rest0 Et Ld Em Ei Ep
                     | Lt Em Ei Ep]; try discriminate Em.
    destruct rest0; simpl in Em; [discriminate Em |].
    injection Em as -> _. auto.
  - destruct (G j _ N) as (t & Nt & E).
    destruct (@goroutine_next _ _ _ _ (@task_plain _ _ Nt) E)
      as [[Act _] | [D _]]; [discriminate Act |].
    injection D as ->. auto.
Qed.

(** The counter is the number of increments less the number of
    decrements. *)
Lemma submit_counter (m : Mem) tr s :
  reach (init (submit_then_wait tasks) m) tr s ->
  crashed s = false ->
  wg s = (Z.of_nat (adds 1 tr) - Z.of_nat (adds (-1) tr))%Z.
Proof.
  induction 1 as [| tr s i ins s' R IH St]; intro C'; [reflexivity |].
  destruct (@step_cases _ _ _ _ _ St) as (C & rest & N & Eff).
  specialize (IH C). pose proof (submit_inv_reach R C) as I.
  rewrite !adds_snoc.
  destruct ins; simpl.
  - destruct (@submit_add_delta _ _ _ _ _ I St) as [-> | ->];
      (destruct Eff as [[_ ->] | [_ ->]]; [discriminate C' |]);
      simpl; lia.
  - destruct Eff as [_ ->]. simpl. lia.
  - subst s'. simpl. lia.
  - destruct Eff as [[_ ->] | (m' & _ & ->)]; [discriminate C' |].
    simpl. lia.
  - subst s'. discriminate C'.
  - subst s'. simpl. lia.
Qed.

Lemma submit_goroutine_decrements tr s j g :
  submit_inv tasks tr s ->
  nth_error (threads s) (S j) = Some g ->
  exists t, nth_error tasks j = Some t
            /\ instrs_by (S j) tr ++ g = t ++ [IAdd (-1)]
            /\ adds_by (S j) (-1) tr = match g with [] => 1 | _ :: _ => 0 end.
Proof.
  intros (main & gs & pending & T & Ph & W & G & U & Z0) N.
  rewrite T in N. simpl in N.
  destruct (G j g N) as (t & Nt & E).
  exists t. split; [exact Nt |]. split; [exact E |].
  rewrite adds_by_instrs. pose proof (task_plain _ Nt) as A.
  destruct g as [| ins rest].
  - rewrite app_nil_r in E. rewrite E.
    apply goroutine_decrements_once. exact A.
  - rewrite acts_have_no_add; [reflexivity |].
    eapply goroutine_prefix; [exact A | exact E].
Qed.

End SubmitFacts.

(** ** Tasks that may panic or call [Goexit] *)

Section ExitFacts.
Variable Mem : Type.
Variable tasks : list (Code Mem).
Hypothesis alone : forallb (@leaves_wg_alone Mem) tasks = true.
Implicit Types (s : State Mem) (c : Code Mem) (ins : Instr Mem)
         (tr : list (nat * Instr Mem)).

Lemma task_alone j t : nth_error tasks j = Some t -> leaves_wg_alone t = true.
Proof.
  intro N. apply nth_error_In in N.
  rewrite forallb_forall in alone. auto.
Qed.

Lemma goroutine_next_alone (t : Code Mem) done ins rest :
  leaves_wg_alone t = true ->
  done ++ ins :: rest = goroutine t ->
  (no_wg ins = true /\ rest <> [] /\ forallb (@no_wg Mem) done = true
   /\ In ins t)
  \/ (ins = IAdd (-1) /\ rest = [] /\ done = t).
Proof.
  unfold goroutine, leaves_wg_alone. intros A E.
  destruct rest as [| r rest].
  - right. apply app_inj_tail in E. destruct E as [-> ->]. auto.
  - left.
    destruct (exists_last (l := r :: rest)) as (body & l & B);
      [discriminate |].
    rewrite B in E.
    change (done ++ ins :: body ++ [l])
      with (done ++ (ins :: body) ++ [l]) in E.
    rewrite app_assoc in E. apply app_inj_tail in E. destruct E as [E _].
    rewrite <- E, forallb_app in A. simpl in A.
    apply andb_prop in A. destruct A as [A1 A].
    apply andb_prop in A. destruct A as [A2 _].
    split; [exact A2 |]. split; [discriminate |]. split; [exact A1 |].
    rewrite <- E. apply in_or_app. right. left. reflexivity.
Qed.

Lemma exited_same i ins tr :
  exited i (tr ++ [(i, ins)]) = exited i tr || is_goexit ins.
Proof.
  unfold exited. rewrite instrs_by_same, existsb_app. simpl.
  rewrite orb_false_r. reflexivity.
Qed.

Lemma exited_other i j ins tr :
  j <> i -> exited i (tr ++ [(j, ins)]) = exited i tr.
Proof. intro N. unfold exited. rewrite instrs_by_other by exact N. reflexivity. Qed.

Lemma exit_inv_init (m : Mem) :
  exit_inv tasks [] (init (submit_then_wait tasks) m).
Proof.
  exists (submit_then_wait tasks), [], [], 0%Z. simpl.
  split; [reflexivity |].
  split; [apply (@Submitting Mem tasks [] _ 0 [] tasks); reflexivity |].
  split; [reflexivity |]. split; [reflexivity |].
  split; [intros [| j] g; discriminate |].
  split; [reflexivity |].
  unfold submit_then_wait, RunGroup, Wait. intro E.
  apply app_eq_nil in E. destruct E as [_ E]. discriminate E.
Qed.

Lemma exit_inv_main_step tr s ins s' :
  exit_inv tasks tr s ->
  step s 0 = Some (ins, s') ->
  crashed s' = false ->
  exit_inv tasks (tr ++ [(0, ins)]) s'.
Proof.
  intros (main & gs & lefts & pending & T & Ph & Ll & W & G & U & Z0) St C'.
  destruct (@step_cases _ _ _ _ _ St) as (C & rest & N & Eff).
  rewrite T in N. simpl in N. injection N as ->.
  assert (G' : forall j g,
             nth_error gs j = Some g ->
             exists t l,
               nth_error tasks j = Some t
               /\ nth_error lefts j = Some l
               /\ instrs_by (S j) (tr ++ [(0, ins)]) ++ l = goroutine t
               /\ ((exited (S j) (tr ++ [(0, ins)]) = false /\ g = l)
                   \/ (exited (S j) (tr ++ [(0, ins)]) = true
                       /\ g = [] /\ l <> []))).
  { intros j g Ng. destruct (G j g Ng) as (t & l & Nt & Nl & E & D).
    exists t, l.
    rewrite instrs_by_other, exited_other by discriminate. auto. }
  assert (U' : forall i, List.length gs < i ->
                         instrs_by i (tr ++ [(0, ins)]) = []).
  { intros i L. rewrite instrs_by_other by lia. auto. }
  inversion Ph as [done rest0 Et Ld Em Ei Ep | done t rest0 Et Ld Em Ei Ep
                   | Lt Em Ei Ep]; subst pending.
  - destruct rest0 as [| t rest0]; simpl in Em; injection Em as -> ->.
    + destruct Eff as [W0 ->].
      exists [], gs, lefts, 0%Z. simpl. rewrite T. simpl.
      repeat (split; [now auto |]).
      split; [| repeat (split; [now auto |]); auto].
      apply Waited.
      * rewrite Et, app_nil_r. exact Ld.
      * reflexivity.
      * rewrite instrs_by_same, Ei. rewrite Et, app_nil_r. reflexivity.
    + destruct Eff as [[_ ->] | [_ ->]]; [discriminate C' |].
      exists (IGo (goroutine t) :: submit_all rest0 ++ Wait), gs, lefts, 1%Z.
      simpl. rewrite T. simpl.
      split; [reflexivity |].
      split; [apply (@Spawning Mem tasks _ _ _ done t rest0); auto;
              rewrite instrs_by_same, Ei; reflexivity |].
      split; [exact Ll |]. split; [lia |].
      split; [exact G' |]. split; [exact U' | discriminate].
  - injection Em as -> ->. subst s'.
    exists (submit_all rest0 ++ Wait), (gs ++ [goroutine t]),
      (lefts ++ [goroutine t]), 0%Z.
    simpl. rewrite T. simpl.
    split; [reflexivity |].
    split.
    { apply (@Submitting Mem tasks _ _ _ (done ++ [t]) rest0).
      - rewrite <- app_assoc. exact Et.
      - rewrite !length_app. simpl. lia.
      - reflexivity.
      - rewrite instrs_by_same, Ei, submit_all_snoc, <- app_assoc.
        reflexivity. }
    split; [rewrite !length_app; simpl; lia |].
    split.
    { rewrite alive_count_app. unfold goroutine at 1.
      unfold alive_count at 2. simpl. destruct t; simpl; lia. }
    split.
    { intros j g Ng.
      destruct (Nat.lt_ge_cases j (List.length gs)) as [L | L].
      - rewrite nth_error_app1 in Ng by exact L.
        destruct (G' j g Ng) as (t' & l & Nt & Nl & E & D).
        exists t', l. rewrite nth_error_app1 by lia. auto.
      - rewrite nth_error_app2 in Ng by exact L.
        destruct (j - List.length gs) as [| d] eqn:D; simpl in Ng;
          [| destruct d; discriminate].
        injection Ng as <-.
        assert (j = List.length gs) by lia. subst j.
        exists t, (goroutine t). split.
        + rewrite Et, <- Ld, nth_error_app2, Nat.sub_diag by lia.
          reflexivity.
        + split.
          * rewrite nth_error_app2, Ll, Nat.sub_diag by lia. reflexivity.
          * unfold exited.
            rewrite (U' (S (List.length gs))) by lia. auto. }
    split.
    { intros i L. rewrite length_app in L. simpl in L. apply U'. lia. }
    unfold Wait. intro E.
    apply app_eq_nil in E. destruct E as [_ E]. discriminate E.
  - discriminate Em.
Qed.

Lemma exit_inv_goroutine_step tr s j ins s' :
  exit_inv tasks tr s ->
  step s (S j) = Some (ins, s') ->
  crashed s' = false ->
  exit_inv tasks (tr ++ [(S j, ins)]) s'.
Proof.
  intros (main & gs & lefts & pending & T & Ph & Ll & W & G & U & Z0) St C'.
  destruct (@step_cases _ _ _ _ _ St) as (C & rest & N & Eff).
  rewrite T in N. simpl in N.
  destruct (G j _ N) as (t & l & Nt & Nl & E & D).
  destruct D as [[X <-] | [_ [Y _]]]; [| discriminate Y].
  assert (L : j < List.length gs)
    by (apply nth_error_Some; rewrite N; discriminate).
  assert (T' : forall c, set_thread (S j) c (threads s)
                         = main :: set_thread j c gs)
    by (intro c; rewrite T; reflexivity).
  pose proof (main_phase_pending Ph) as P.
  assert (Ph' : forall c, main_phase tasks (tr ++ [(S j, ins)]) main
                                     (List.length (set_thread j c gs))
                                     pending).
  { intro c. rewrite length_set_thread. apply main_phase_other. exact Ph. }
  assert (U' : forall c i, List.length (set_thread j c gs) < i ->
                           instrs_by i (tr ++ [(S j, ins)]) = []).
  { intros c i Li. rewrite length_set_thread in Li.
    rewrite instrs_by_other by lia. apply U. exact Li. }
  (* the other goroutines *)
  assert (G' : forall c l' j' g,
             j' <> j ->
             nth_error (set_thread j c gs) j' = Some g ->
             exists t' l0,
               nth_error tasks j' = Some t'
               /\ nth_error (set_thread j l' lefts) j' = Some l0
               /\ instrs_by (S j') (tr ++ [(S j, ins)]) ++ l0 = goroutine t'
               /\ ((exited (S j') (tr ++ [(S j, ins)]) = false /\ g = l0)
                   \/ (exited (S j') (tr ++ [(S j, ins)]) = true
                       /\ g = [] /\ l0 <> []))).
  { intros c l' j' g Dj Ng.
    rewrite nth_error_set_thread_other in Ng by congruence.
    destruct (G j' g Ng) as (t' & l0 & Nt' & Nl' & E' & D').
    exists t', l0.
    rewrite nth_error_set_thread_other by congruence.
    rewrite instrs_by_other, exited_other by congruence. auto. }
  pose proof (@alive_count_set_thread _ j rest _ _ Nl) as A. simpl in A.
  pose proof (@alive_count_set_thread _ j [] _ _ Nl) as A0. simpl in A0.
  destruct (@goroutine_next_alone _ _ _ _ (@task_alone _ _ Nt) E)
    as [(Nw & Ne & _ & _) | (-> & -> & _)].
  - destruct ins; try discriminate Nw.
    + (* an action of the task *)
      destruct Eff as [[_ ->] | (m & _ & ->)]; [discriminate C' |].
      exists main, (set_thread j rest gs), (set_thread j rest lefts), pending.
      simpl.
      split; [apply T' |]. split; [apply Ph' |].
      split; [rewrite !length_set_thread; exact Ll |].
      split; [destruct rest; [contradiction | simpl in A; lia] |].
      split; [| split; [apply U' | exact Z0]].
      intros j' g Ng. destruct (Nat.eq_dec j' j) as [-> | Dj].
      * erewrite nth_error_set_thread_same in Ng by exact N.
        injection Ng as <-. exists t, rest.
        split; [exact Nt |].
        split; [eapply nth_error_set_thread_same; exact Nl |].
        split; [rewrite instrs_by_same, <- app_assoc; exact E |].
        left. rewrite exited_same, X. auto.
      * apply (G' rest rest j' g Dj Ng).
    + (* panic *)
      subst s'. discriminate C'.
    + (* Goexit: the rest of the goroutine is dropped *)
      subst s'.
      exists main, (set_thread j [] gs), (set_thread j rest lefts), pending.
      simpl.
      split; [apply T' |]. split; [apply Ph' |].
      split; [rewrite !length_set_thread; exact Ll |].
      split; [destruct rest; [contradiction | simpl in A; lia] |].
      split; [| split; [apply U' | exact Z0]].
      intros j' g Ng. destruct (Nat.eq_dec j' j) as [-> | Dj].
      * erewrite nth_error_set_thread_same in Ng by exact N.
        injection Ng as <-. exists t, rest.
        split; [exact Nt |].
        split; [eapply nth_error_set_thread_same; exact Nl |].
        split; [rewrite instrs_by_same, <- app_assoc; exact E |].
        right. rewrite exited_same, X. auto.
      * apply (G' [] rest j' g Dj Ng).
  - (* the decrement *)
    destruct Eff as [[_ ->] | [_ ->]]; [discriminate C' |].
    exists main, (set_thread j [] gs), (set_thread j [] lefts), pending.
    simpl.
    split; [apply T' |]. split; [apply Ph' |].
    split; [rewrite !length_set_thread; exact Ll |].
    split; [lia |].
    split; [| split; [apply U' |]].
    + intros j' g Ng. destruct (Nat.eq_dec j' j) as [-> | Dj].
      * erewrite nth_error_set_thread_same in Ng by exact N.
        injection Ng as <-. exists t, [].
        split; [exact Nt |].
        split; [eapply nth_error_set_thread_same; exact Nl |].
        split; [rewrite instrs_by_same, <- app_assoc; exact E |].
        left. rewrite exited_same, X. auto.
      * apply (G' [] [] j' g Dj Ng).
    + intro M. specialize (Z0 M).
      pose proof (alive_count_pos _ _ Nl). lia.
Qed.

Lemma exit_inv_reach (m : Mem) tr s :
  reach (init (submit_then_wait tasks) m) tr s ->
  crashed s = false ->
  exit_inv tasks tr s.
Proof.
  induction 1 as [| tr s i ins s' R IH St]; intro C.
  - apply exit_inv_init.
  - pose proof (proj1 (@step_cases _ _ _ _ _ St)) as C0.
    destruct i as [| j].
    + apply exit_inv_main_step with (s := s); auto.
    + apply exit_inv_goroutine_step with (s := s); auto.
Qed.

Lemma no_wg_has_no_add d (t : Code Mem) :
  forallb (@no_wg Mem) t = true -> filter (is_add d) t = [].
Proof.
  induction t as [| ins t IH]; simpl; [reflexivity |].
  intro A. apply andb_prop in A. destruct A as [A1 A2].
  destruct ins; try discriminate A1; simpl; auto.
Qed.


Lemma exit_blocks tr s j :
  exit_inv tasks tr s ->
  exited (S j) tr = true ->
  (1 <= wg s)%Z
  /\ nth_error (threads s) 0 <> Some []
  /\ nth_error (threads s) (S j) = Some []
  /\ adds_by (S j) (-1) tr = 0.
Proof.
  intros (main & gs & lefts & pending & T & Ph & Ll & W & G & U & Z0) X.
  pose proof (main_phase_pending Ph) as P.
  destruct (nth_error gs j) as [g |] eqn:Ng.
  - destruct (G j g Ng) as (t & l & Nt & Nl & E & D).
    destruct D as [[X' _] | (_ & -> & Ne)]; [congruence |].
    destruct l as [| ins rest]; [contradiction |].
    pose proof (alive_count_pos _ _ Nl) as A.
    assert (Wp : (1 <= wg s)%Z) by lia.
    split; [exact Wp |]. rewrite T. simpl.
    split; [| split; [exact Ng |]].
    + intros [= M]. specialize (Z0 M). lia.
    + rewrite adds_by_instrs.
      destruct (@goroutine_next_alone _ _ _ _ (@task_alone _ _ Nt) E)
        as [(_ & _ & Nw & _) | (_ & _ & ->)].
      * rewrite no_wg_has_no_add by exact Nw. reflexivity.
      * rewrite no_wg_has_no_add by (apply (@task_alone _ _ Nt)).
        reflexivity.
  - apply nth_error_None in Ng. unfold exited in X.
    rewrite U in X by lia. discriminate X.
Qed.

Lemma exit_crash tr s i ins s' :
  exit_inv tasks tr s ->
  step s i = Some (ins, s') ->
  crashed s' = true ->
  exists j t,
    i = S j /\ nth_error tasks j = Some t /\ In ins t
    /\ ((exists f, ins = IAct f /\ f (mem s) = None) \/ ins = IPanic).
Proof.
  intros (main & gs & lefts & pending & T & Ph & Ll & W & G & U & Z0) St C'.
  destruct (@step_cases _ _ _ _ _ St) as (C & rest & N & Eff).
  pose proof (main_phase_pending Ph) as P.
  rewrite T in N. destruct i as [| j]; simpl in N.
  - exfalso. injection N as ->.
    inversion Ph as [done rest0 Et Ld Em Ei Ep | done t rest0 Et Ld Em Ei Ep
                     | Lt Em Ei Ep]; try discriminate Em.
    + destruct rest0; simpl in Em; injection Em as -> _.
      * destruct Eff as [_ ->]. discriminate C'.
      * destruct Eff as [[? _] | [_ ->]]; [lia | discriminate C'].
    + injection Em as -> _. subst s'. discriminate C'.
  - destruct (G j _ N) as (t & l & Nt & Nl & E & D).
    destruct D as [[_ <-] | (_ & Y & _)]; [| discriminate Y].
    exists j, t. split; [reflexivity |]. split; [exact Nt |].
    destruct (@goroutine_next_alone _ _ _ _ (@task_alone _ _ Nt) E)
      as [(Nw & _ & _ & I) | (-> & _ & _)].
    + split; [exact I |].
      destruct ins; try discriminate Nw.
      * destruct Eff as [[F _] | (m & _ & ->)]; [eauto | discriminate C'].
      * auto.
      * subst s'. discriminate C'.
    + exfalso. pose proof (alive_count_pos _ _ Nl).
      destruct Eff as [[? _] | [_ ->]]; [lia | discriminate C'].
Qed.


(** ** Increments and decrements, whatever the tasks do *)

Lemma adds_by_snoc i d tr k ins :
  adds_by i d (tr ++ [(k, ins)]) =
  adds_by i d tr + (if Nat.eqb k i && is_add d ins then 1 else 0).
Proof.
  unfold adds_by. rewrite filter_app, length_app. simpl.
  destruct (Nat.eqb k i && is_add d ins); reflexivity.
Qed.

Lemma submit_all_adds (ts : list (Code Mem)) :
  List.length (filter (is_add 1) (submit_all ts)) = List.length ts.
Proof.
  unfold submit_all.
  induction ts as [| t ts IH]; simpl; [reflexivity |].
  rewrite IH. reflexivity.
Qed.

Lemma goroutine_adds (t : Code Mem) :
  leaves_wg_alone t = true ->
  List.length (filter (is_add (-1)) (goroutine t)) = 1.
Proof.
  intro A. unfold goroutine.
  rewrite filter_app, no_wg_has_no_add by exact A. reflexivity.
Qed.

Lemma acts_never_exit (t : Code Mem) :
  acts_only t = true -> existsb (@is_goexit Mem) (goroutine t) = false.
Proof.
  unfold acts_only, goroutine. intro A.
  rewrite existsb_app. simpl.
  induction t as [| ins t IH]; simpl; [reflexivity |].
  simpl in A. apply andb_prop in A. destruct A as [A1 A2].
  destruct ins; try discriminate A1. simpl. auto.
Qed.

(** An [Add] that runs is the caller's increment or a goroutine's
    decrement, and it does not take the counter below 0. *)
Lemma exit_add tr s i d s' :
  exit_inv tasks tr s ->
  step s i = Some (IAdd d, s') ->
  ((i = 0 /\ d = 1%Z) \/ (0 < i /\ d = (-1)%Z)) /\ (0 <= wg s + d)%Z.
Proof.
  intros (main & gs & lefts & pending & T & Ph & Ll & W & G & U & Z0) St.
  destruct (@step_cases _ _ _ _ _ St) as (C & rest & N & _).
  pose proof (main_phase_pending Ph) as P.
  rewrite T in N. destruct i as [| j]; simpl in N.
  - injection N as ->.
    inversion Ph as [done rest0 Et Ld Em Ei Ep | done t rest0 Et Ld Em Ei Ep
                     | Lt Em Ei Ep]; try discriminate Em.
    destruct rest0; simpl in Em; [discriminate Em |].
    injection Em as -> _. split; [left; auto | lia].
  - destruct (G j _ N) as (t & l & Nt & Nl & E & D).
    destruct D as [[_ <-] | (_ & Y & _)]; [| discriminate Y].
    destruct (@goroutine_next_alone _ _ _ _ (@task_alone _ _ Nt) E)
      as [(Nw & _) | (D & _)]; [discriminate Nw |].
    injection D as ->. pose proof (alive_count_pos _ _ Nl).
    split; [right; split; [lia | reflexivity] | lia].
Qed.

(** The counter is the number of increments less the number of
    decrements, and is not negative; also when a task has panicked. *)
Lemma exit_counter (m : Mem) tr s :
  reach (init (submit_then_wait tasks) m) tr s ->
  (wg s = Z.of_nat (adds 1 tr) - Z.of_nat (adds (-1) tr) /\ 0 <= wg s)%Z.
Proof.
  induction 1 as [| tr s i ins s' R IH St]; [simpl; lia |].
  destruct (@step_cases _ _ _ _ _ St) as (C & rest & N & Eff).
  pose proof (@exit_inv_reach _ _ _ R C) as I.
  rewrite !adds_snoc.
  destruct ins; simpl.
  - destruct (@exit_add _ _ _ _ _ I St) as [[[_ ->] | [_ ->]] Nn];
      (destruct Eff as [[? _] | [_ ->]]; [lia |]); simpl; simpl in Nn; lia.
  - destruct Eff as [_ ->]. simpl. lia.
  - subst s'. simpl. lia.
  - destruct Eff as [[_ ->] | (m' & _ & ->)]; simpl; lia.
  - subst s'. simpl. lia.
  - subst s'. simpl. lia.
Qed.

(** A crashed execution: the step before the crash. *)
Lemma exit_last (m : Mem) tr s :
  reach (init (submit_then_wait tasks) m) tr s ->
  crashed s = true ->
  exists tr0 s0 k ins rest,
    tr = tr0 ++ [(S k, ins)]
    /\ exit_inv tasks tr0 s0
    /\ threads s = threads s0
    /\ nth_error (threads s0) (S k) = Some (ins :: rest)
    /\ (forall d, is_add d ins = false)
    /\ is_goexit ins = false.
Proof.
  intros R C.
  destruct R as [| tr s i ins s' R St]; [discriminate C |].
  destruct (@step_cases _ _ _ _ _ St) as (C0 & rest & N & Eff).
  pose proof (@exit_inv_reach _ _ _ R C0) as I.
  destruct (@exit_crash _ _ _ _ _ I St C) as (k & t & -> & _ & _ & K).
  exists tr, s, k, ins, rest.
  split; [reflexivity |]. split; [exact I |].
  destruct K as [(f & -> & F) | ->].
  - destruct Eff as [[_ ->] | (m' & F' & _)]; [| congruence].
    repeat split; auto.
  - subst s'. repeat split; auto.
Qed.

(** The goroutine of task [j], in an execution that has not crashed:
    it exists only after the caller's increment number [j + 1]; it has
    run no decrement, or it has run the whole task and then one
    decrement, without [Goexit], and has returned. *)
Lemma exit_goroutine tr s j t :
  exit_inv tasks tr s ->
  nth_error tasks j = Some t ->
  (S j < List.length (threads s) -> j < adds_by 0 1 tr)
  /\ (adds_by (S j) (-1) tr = 0
      \/ (adds_by (S j) (-1) tr = 1
          /\ instrs_by (S j) tr = goroutine t
          /\ exited (S j) tr = false
          /\ nth_error (threads s) (S j) = Some []))
  /\ (acts_only t = true -> exited (S j) tr = false).
Proof.
  intros (main & gs & lefts & pending & T & Ph & Ll & W & G & U & Z0) Nt.
  rewrite T. simpl. split; [| split].
  - intro L. rewrite adds_by_instrs.
    inversion Ph as [done rest0 Et Ld Em Ei Ep | done t0 rest0 Et Ld Em Ei Ep
                     | Lt Em Ei Ep]; rewrite Ei.
    + rewrite submit_all_adds. lia.
    + rewrite filter_app, length_app, submit_all_adds. simpl. lia.
    + rewrite submit_all_increments. lia.
  - destruct (nth_error gs j) as [g |] eqn:Ng.
    + destruct (G j g Ng) as (t' & l & Nt' & Nl & E & D).
      assert (t' = t) by congruence. subst t'.
      rewrite adds_by_instrs.
      destruct l as [| ins rest].
      * right. rewrite app_nil_r in E.
        destruct D as [[X ->] | (_ & _ & Ne)]; [| contradiction].
        rewrite E. split; [apply goroutine_adds, (@task_alone _ _ Nt) |].
        auto.
      * left.
        destruct (@goroutine_next_alone _ _ _ _ (@task_alone _ _ Nt) E)
          as [(_ & _ & Nw & _) | (_ & _ & ->)].
        -- rewrite no_wg_has_no_add by exact Nw. reflexivity.
        -- rewrite no_wg_has_no_add by (apply (@task_alone _ _ Nt)).
           reflexivity.
    + left. apply nth_error_None in Ng.
      rewrite adds_by_instrs, U by lia. reflexivity.
  - intro A. unfold exited.
    destruct (nth_error gs j) as [g |] eqn:Ng.
    + destruct (G j g Ng) as (t' & l & Nt' & Nl & E & D).
      assert (t' = t) by congruence. subst t'.
      pose proof (@acts_never_exit _ A) as Ne.
      rewrite <- E, existsb_app in Ne.
      apply orb_false_elim in Ne. apply Ne.
    + apply nth_error_None in Ng. rewrite U by lia. reflexivity.
Qed.

(** The same in every execution, crashed or not. *)
Lemma exit_decrements (m : Mem) tr s j t :
  reach (init (submit_then_wait tasks) m) tr s ->
  nth_error tasks j = Some t ->
  (S j < List.length (threads s) -> j < adds_by 0 1 tr)
  /\ (adds_by (S j) (-1) tr = 0
      \/ (adds_by (S j) (-1) tr = 1
          /\ instrs_by (S j) tr = goroutine t
          /\ exited (S j) tr = false))
  /\ (acts_only t = true -> exited (S j) tr = false).
Proof.
  intros R Nt. destruct (crashed s) eqn:C.
  - destruct (@exit_last _ _ _ R C)
      as (tr0 & s0 & k & ins & rest & -> & I & Th & Nk & Na & Ng).
    destruct (@exit_goroutine _ _ _ _ I Nt) as (P1 & P2 & P3).
    rewrite Th, !adds_by_snoc, !Na, !andb_false_r, !Nat.add_0_r.
    split; [exact P1 |].
    destruct (Nat.eq_dec k j) as [-> | Nkj].
    + rewrite exited_same, Ng, orb_false_r.
      split; [| exact P3].
      destruct P2 as [Z | (_ & _ & _ & Ret)]; [left; exact Z |].
      rewrite Ret in Nk. discriminate Nk.
    + rewrite exited_other by congruence.
      rewrite instrs_by_other by congruence.
      split; [| exact P3].
      destruct P2 as [Z | (O1 & E & X & _)]; [left; exact Z | right; auto].
  - pose proof (@exit_inv_reach _ _ _ R C) as I.
    destruct (@exit_goroutine _ _ _ _ I Nt) as (P1 & P2 & P3).
    split; [exact P1 |]. split; [| exact P3].
    destruct P2 as [Z | (O1 & E & X & _)]; [left; exact Z | right; auto].
Qed.

(** When nothing can run any more and no task has panicked, every
    goroutine has been started and has returned: after [Goexit],
    without a decrement, or after the whole task and one decrement. *)
Lemma exit_complete tr s j t :
  exit_inv tasks tr s ->
  crashed s = false ->
  stuck s ->
  nth_error tasks j = Some t ->
  nth_error (threads s) (S j) = Some []
  /\ ((exited (S j) tr = true /\ adds_by (S j) (-1) tr = 0)
      \/ (exited (S j) tr = false
          /\ instrs_by (S j) tr = goroutine t
          /\ adds_by (S j) (-1) tr = 1)).
Proof.
  intros I C St Nt.
  pose proof I as (main & gs & lefts & pending & T & Ph & Ll & W & G & U & Z0).
  assert (Lg : List.length gs = List.length tasks).
  { inversion Ph as [done rest0 Et Ld Em Ei Ep | done t0 rest0 Et Ld Em Ei Ep
                     | Lt Em Ei Ep].
    - destruct rest0 as [| t0 rest0].
      + rewrite app_nil_r in Et. congruence.
      + exfalso. specialize (St 0). unfold step in St.
        rewrite C, T, Em in St. simpl in St.
        destruct (wg s + 1 <? 0)%Z; discriminate St.
    - exfalso. specialize (St 0). unfold step in St.
      rewrite C, T, Em in St. discriminate St.
    - congruence. }
  assert (Lj : j < List.length gs)
    by (rewrite Lg; apply nth_error_Some; congruence).
  destruct (nth_error gs j) as [g |] eqn:Ng;
    [| apply nth_error_None in Ng; lia].
  destruct (G j g Ng) as (t' & l & Nt' & Nl & E & D).
  assert (t' = t) by congruence. subst t'.
  assert (g = []).
  { destruct g as [| ins rest]; [reflexivity |]. exfalso.
    destruct D as [[_ <-] | (_ & Y & _)]; [| discriminate Y].
    specialize (St (S j)). unfold step in St.
    rewrite C, T in St. simpl in St. rewrite Ng in St.
    destruct (@goroutine_next_alone _ _ _ _ (@task_alone _ _ Nt) E)
      as [(Nw & _) | (-> & _)].
    - destruct ins; try discriminate Nw; try discriminate St.
      destruct (f (mem s)); discriminate St.
    - destruct (wg s + -1 <? 0)%Z; discriminate St. }
  subst g. rewrite T. simpl. split; [exact Ng |].
  destruct (exited (S j) tr) eqn:X.
  - left. split; [reflexivity |]. apply (@exit_blocks _ _ _ I X).
  - right. split; [reflexivity |].
    destruct D as [[_ <-] | (Y & _)]; [| discriminate Y].
    rewrite app_nil_r in E. split; [exact E |].
    rewrite adds_by_instrs, E. apply goroutine_adds, (@task_alone _ _ Nt).
Qed.

End ExitFacts.

(** ** The ten tasks of [mainErr] *)

Lemma store_Some i v l :
  i < List.length l ->
  exists l', store i v l = Some l'
             /\ List.length l' = List.length l
             /\ nth_error l' i = Some v
             /\ forall k, k <> i -> nth_error l' k = nth_error l k.
Proof.
  revert i; induction l as [| x l IH]; intros [| i] L; simpl in *;
    try lia.
  - exists (v :: l). repeat split. intros [| k] N; [congruence | reflexivity].
  - destruct (IH i) as (l' & E & Ln & Nv & No); [lia |].
    rewrite E. exists (x :: l'). simpl. repeat split; auto.
    intros [| k] N; [reflexivity |]. simpl. apply No. congruence.
Qed.

Lemma star_tasks_plain (result : list string) :
  forallb (@acts_only (list string)) (star_tasks result) = true.
Proof.
  unfold star_tasks. apply forallb_forall. intros t I.
  apply in_map_iff in I. destruct I as (i & <- & _). reflexivity.
Qed.

Lemma star_tasks_nth (result : list string) j t :
  nth_error (star_tasks result) j = Some t ->
  j < List.length result /\ t = star_task j.
Proof.
  unfold star_tasks. rewrite nth_error_map, nth_error_seq.
  destruct (Nat.ltb_spec j (List.length result)); simpl;
    [| discriminate].
  intros [= <-]. auto.
Qed.

Section Stars.
Variable n : nat.

Lemma length_result : List.length (make_strings n) = n.
Proof. apply repeat_length. Qed.

Lemma stars_inv_init : stars_inv n [] (stars_init n).
Proof.
  split; [apply length_result |].
  intros j L. simpl. apply nth_error_repeat. exact L.
Qed.

(** The first instruction of a goroutine is the store of its task, and
    its second the decrement. *)
Lemma star_goroutine_next tr j ins rest :
  instrs_by (S j) tr ++ ins :: rest = goroutine (star_task j) ->
  (instrs_by (S j) tr = []
   /\ ins = IAct (fun r => store j (strings_Repeat "*" j) r))
  \/ (instrs_by (S j) tr <> [] /\ is_act ins = false).
Proof.
  unfold goroutine, star_task. simpl.
  destruct (instrs_by (S j) tr) as [| a [| b [| c l]]]; simpl; intro E.
  - left. injection E as -> _. auto.
  - right. injection E as _ -> _. split; [discriminate | reflexivity].
  - injection E as _ _ E. discriminate E.
  - injection E as _ _ E. discriminate E.
Qed.

Lemma stars_slot_other tr i ins j :
  i <> S j -> stars_slot (tr ++ [(i, ins)]) j = stars_slot tr j.
Proof.
  intro N. unfold stars_slot. rewrite instrs_by_other by exact N.
  reflexivity.
Qed.

Lemma stars_slot_later tr ins j :
  instrs_by (S j) tr <> [] ->
  stars_slot (tr ++ [(S j, ins)]) j = stars_slot tr j.
Proof.
  intro N. unfold stars_slot. rewrite instrs_by_same.
  destruct (instrs_by (S j) tr); [contradiction | reflexivity].
Qed.

Lemma stars_slot_first tr ins j :
  stars_slot (tr ++ [(S j, ins)]) j = strings_Repeat "*" j.
Proof.
  unfold stars_slot. rewrite instrs_by_same.
  destruct (instrs_by (S j) tr); reflexivity.
Qed.

Lemma stars_step tr s i ins s' :
  submit_inv (star_tasks (make_strings n)) tr s ->
  stars_inv n tr s ->
  step s i = Some (ins, s') ->
  crashed s' = false /\ stars_inv n (tr ++ [(i, ins)]) s'.
Proof.
  intros I [Ln Sl] St.
  pose proof (star_tasks_plain (make_strings n)) as plain.
  destruct (@step_cases _ _ _ _ _ St) as (C & rest0 & N & Eff).
  destruct i as [| j].
  - (* the caller: the memory is not touched *)
    assert (NA : is_act ins = false)
      by (eapply submit_main_no_act; eauto).
    assert (M : crashed s' = false /\ mem s' = mem s).
    { destruct ins; try discriminate NA.
      - assert (0 <= wg s + delta)%Z
          by (eapply submit_add_not_negative; eauto).
        destruct Eff as [[? _] | [_ ->]]; [lia | auto].
      - destruct Eff as [_ ->]. auto.
      - subst s'. auto.
      - edestruct (@submit_no_exit (list string)) as [X Y];
          [exact plain | exact I | exact St | contradiction].
      - edestruct (@submit_no_exit (list string)) as [X Y];
          [exact plain | exact I | exact St | contradiction]. }
    destruct M as [C' M]. split; [exact C' |].
    split; rewrite M; [exact Ln |].
    intros k L. rewrite stars_slot_other by discriminate. auto.
  - edestruct (@submit_goroutine_code (list string))
      as (t & rest & Nt & E); [exact I | exact St |].
    apply star_tasks_nth in Nt. destruct Nt as [L ->].
    rewrite length_result in L.
    destruct (@star_goroutine_next _ _ _ _ E) as [[First ->] | [Later NA]].
    + (* the store of task j *)
      destruct (@store_Some j (strings_Repeat "*" j) (mem s))
        as (l' & S' & Ln' & Nv & No); [lia |].
      destruct Eff as [[F _] | (m & F & ->)]; [congruence |].
      assert (m = l') by congruence. subst m. simpl.
      split; [reflexivity |]. split; [simpl in *; lia |].
      intros k Lk. destruct (Nat.eq_dec k j) as [-> | D].
      * rewrite stars_slot_first. exact Nv.
      * rewrite stars_slot_other by congruence.
        rewrite No by exact D. auto.
    + (* the decrement *)
      assert (M : crashed s' = false /\ mem s' = mem s).
      { destruct ins; try discriminate NA.
        - assert (0 <= wg s + delta)%Z
            by (eapply submit_add_not_negative; eauto).
          destruct Eff as [[? _] | [_ ->]]; [lia | auto].
        - destruct Eff as [_ ->]. auto.
        - subst s'. auto.
        - edestruct (@submit_no_exit (list string)) as [X Y];
          [exact plain | exact I | exact St | contradiction].
        - edestruct (@submit_no_exit (list string)) as [X Y];
          [exact plain | exact I | exact St | contradiction]. }
      destruct M as [C' M]. split; [exact C' |].
      split; rewrite M; [exact Ln |].
      intros k Lk. destruct (Nat.eq_dec k j) as [-> | D].
      * rewrite stars_slot_later by exact Later. auto.
      * rewrite stars_slot_other by congruence. auto.
Qed.

Lemma stars_reach tr s :
  reach (stars_init n) tr s ->
  crashed s = false /\ stars_inv n tr s.
Proof.
  induction 1 as [| tr s i ins s' R IH St].
  - split; [reflexivity | apply stars_inv_init].
  - destruct IH as [C I].
    apply (@stars_step tr s i ins s'); auto.
    eapply submit_inv_reach; [apply star_tasks_plain | exact R | exact C].
Qed.

(** Once [Wait] has returned, slot [j] holds [j] stars. *)
Lemma stars_waited tr s :
  reach (stars_init n) tr s ->
  nth_error (threads s) 0 = Some [] ->
  mem s = map (strings_Repeat "*") (seq 0 n).
Proof.
  intros R M. destruct (stars_reach R) as [C [Ln Sl]].
  assert (I : submit_inv (star_tasks (make_strings n)) tr s)
    by (eapply submit_inv_reach;
        [apply star_tasks_plain | exact R | exact C]).
  destruct (submit_waited I M) as (_ & _ & _ & A).
  apply nth_error_ext. intro j.
  rewrite nth_error_map, nth_error_seq.
  destruct (Nat.ltb_spec j n) as [L | L]; simpl.
  - rewrite (Sl j L). f_equal. unfold stars_slot.
    destruct (A j (star_task j)) as [_ E].
    + unfold star_tasks. rewrite nth_error_map, nth_error_seq.
      rewrite length_result.
      destruct (Nat.ltb_spec j n); [reflexivity | lia].
    + rewrite E. reflexivity.
  - apply nth_error_None. lia.
Qed.
End Stars.

(** ** The spawner pairs every increment with one decrement *)

(** C3, as the code has it.  Submit tasks that leave the wait group
    alone (they act on the shared memory, and may panic or call
    [runtime.Goexit]; they neither use the wait group nor start
    goroutines), then wait.  In every execution, whether or not a task
    has panicked, the counter is the number of increments run less the
    number of decrements run and is never negative.  Of every task
    [j], whatever the other tasks do: its goroutine is started only
    after the caller has run increment number [j + 1]; the goroutine
    runs at most one decrement; when it has run one, it has run the
    whole task before it and nothing else, and has not called
    [Goexit]; a task that only acts never calls [Goexit]; and when
    nothing can run any more, no task having panicked, the goroutine
    of a task that did not call [Goexit] has run the whole task and
    then its one decrement. *)
Theorem run_decrements_once_after_task_returns
        (Mem : Type) (tasks : list (Code Mem)) (m : Mem)
        (tr : list (nat * Instr Mem)) (s : State Mem) :
  forallb (@leaves_wg_alone Mem) tasks = true ->
  reach (init (submit_then_wait tasks) m) tr s ->
  (wg s = Z.of_nat (adds 1 tr) - Z.of_nat (adds (-1) tr) /\ 0 <= wg s)%Z
  /\ forall j t,
      nth_error tasks j = Some t ->
      (S j < List.length (threads s) -> j < adds_by 0 1 tr)
      /\ adds_by (S j) (-1) tr <= 1
      /\ (adds_by (S j) (-1) tr = 1 ->
          instrs_by (S j) tr = t ++ [IAdd (-1)]
          /\ exited (S j) tr = false)
      /\ (acts_only t = true -> exited (S j) tr = false)
      /\ (crashed s = false -> stuck s -> exited (S j) tr = false ->
          instrs_by (S j) tr = t ++ [IAdd (-1)]
          /\ adds_by (S j) (-1) tr = 1).
Proof.
  intros alone R. split; [eapply exit_counter; eauto |].
  intros j t Nt.
  edestruct (@exit_decrements Mem tasks) as (P1 & P2 & P3);
    [exact alone | exact R | exact Nt |].
  split; [exact P1 |].
  split; [destruct P2 as [-> | [-> _]]; lia |].
  split.
  { intro O. destruct P2 as [Z | (_ & E & X)]; [lia |]. split; assumption. }
  split; [exact P3 |].
  intros C St X.
  assert (I : exit_inv tasks tr s) by (eapply exit_inv_reach; eauto).
  edestruct (@exit_complete Mem tasks) as (_ & [[Y _] | (_ & E & O)]);
    [exact alone | exact I | exact C | exact St | exact Nt | congruence |].
  split; assumption.
Qed.

Lemma returned_stuck (Mem : Type) (s : State Mem) :
  forallb (fun c => Nat.eqb (alive c) 0) (threads s) = true -> stuck s.
Proof.
  intros A i. destruct (nth_error (threads s) i) as [c |] eqn:N.
  - rewrite forallb_forall in A.
    specialize (A c (nth_error_In _ _ N)).
    destruct c; [apply step_returned; exact N | discriminate A].
  - apply step_missing. exact N.
Qed.

Lemma mainErr_reach : reach (stars_init 10) mainErr_trace mainErr_final.
Proof.
  apply run_schedule_reach with (sched := mainErr_schedule).
  vm_compute. reflexivity.
Defined.

Lemma run_decrements_once_after_task_returns_witness :
  adds_by 1 (-1) beside_goexit_trace <= 1
  /\ instrs_by 2 beside_goexit_trace = acting_task ++ [IAdd (-1)]
  /\ adds_by 2 (-1) beside_goexit_trace = 1.
Proof.
  pose proof (@run_decrements_once_after_task_returns
                unit [exiting_task; acting_task] tt
                beside_goexit_trace beside_goexit eq_refl
                (@run_schedule_reach
                   unit [0; 0; 0; 0; 1; 2; 2]
                   (init (submit_then_wait [exiting_task; acting_task]) tt)
                   beside_goexit_trace beside_goexit eq_refl)) as [_ T].
  split.
  - apply (T 0 exiting_task eq_refl).
  - apply (T 1 acting_task eq_refl); [reflexivity | | reflexivity].
    intros [| [| [| [| i]]]]; reflexivity.
Defined.

(** C3, as the specification has it, fails.  A task that ends its goroutine
    with [runtime.Goexit()] is never followed by the decrement: after
    the increment, the [go] statement and the task, nothing can run,
    the counter is 1, no decrement was run, and the caller is still in
    [Wait].  A task that panics ends the program with the counter at 1
    and no decrement run either. *)
Lemma run_does_not_decrement_after_abnormal_exit :
  run_schedule (init (submit_then_wait [exiting_task]) tt) [0; 0; 1]
  = Some ([(0, IAdd 1); (0, IGo (goroutine exiting_task)); (1, IGoexit)],
          after_goexit)
  /\ stuck after_goexit
  /\ wg after_goexit = 1%Z
  /\ nth_error (threads after_goexit) 0 = Some [IWait]
  /\ adds_by 1 (-1)
             [(0, IAdd 1); (0, IGo (goroutine exiting_task)); (1, IGoexit)]
     = 0
  /\ run_schedule (init (submit_then_wait [panicking_task]) tt) [0; 0; 1]
     = Some ([(0, IAdd 1); (0, IGo (goroutine panicking_task)); (1, IPanic)],
             after_panic)
  /\ stuck after_panic
  /\ wg after_panic = 1%Z.
Proof.
  repeat split; try reflexivity.
  intros [| [| [| i]]]; reflexivity.
Qed.

(** ** Submitting and waiting *)

(** C9.  Submit any number of tasks that only act on the shared memory,
    then wait.  Every execution is finite (no longer than the number of
    instructions of the program); an execution in which nothing can run
    any more, and no action has panicked, has returned from [Wait] (no
    deadlock); and in any state where [Wait] has returned the program
    has not crashed, the counter is 0, and every task has been run to
    its end by its goroutine, which has returned.  For the ten tasks of
    [mainErr] no execution crashes, every complete execution returns
    from [Wait], and once [Wait] has returned the counter is 0 and the
    ten slots hold 0 to 9 stars. *)
Theorem submit_then_wait_completes :
  (forall (Mem : Type) (tasks : list (Code Mem)) (m : Mem)
          (tr : list (nat * Instr Mem)) (s : State Mem),
      forallb (@acts_only Mem) tasks = true ->
      reach (init (submit_then_wait tasks) m) tr s ->
      List.length tr <= weight (init (submit_then_wait tasks) m)
      /\ (stuck s -> crashed s = false -> nth_error (threads s) 0 = Some [])
      /\ (nth_error (threads s) 0 = Some [] ->
          crashed s = false
          /\ wg s = 0%Z
          /\ List.length (threads s) = S (List.length tasks)
          /\ forall j t,
              nth_error tasks j = Some t ->
              nth_error (threads s) (S j) = Some []
              /\ instrs_by (S j) tr = goroutine t))
  /\ (forall (tr : list (nat * Instr (list string)))
             (s : State (list string)),
         reach (init mainErr_spawn make_result) tr s ->
         crashed s = false
         /\ (stuck s -> nth_error (threads s) 0 = Some [])
         /\ (nth_error (threads s) 0 = Some [] ->
             wg s = 0%Z
             /\ mem s = [""; "*"; "**"; "***"; "****"; "*****"; "******";
                         "*******"; "********"; "*********"])).
Proof.
  split.
  - intros Mem tasks m tr s plain R. split; [| split].
    + pose proof (reach_bounded R) as B.
      destruct (crashed s); lia.
    + intros St C. eapply submit_progress; eauto.
      eapply submit_inv_reach; eauto.
    + intro M.
      assert (C : crashed s = false)
        by (eapply submit_waited_not_crashed; eauto).
      assert (I : submit_inv tasks tr s)
        by (eapply submit_inv_reach; eauto).
      destruct (submit_waited I M) as (W & L & _ & A). auto.
  - intros tr s R.
    destruct (stars_reach R) as [C _].
    assert (I : submit_inv (star_tasks make_result) tr s)
      by (eapply submit_inv_reach;
          [apply star_tasks_plain | exact R | exact C]).
    split; [exact C |]. split.
    + intro St. eapply submit_progress;
        [apply star_tasks_plain | exact I | exact C | exact St].
    + intro M. split.
      * apply (submit_waited I M).
      * apply (stars_waited R M).
Qed.

Lemma submit_then_wait_completes_witness :
  List.length mainErr_trace <= 41
  /\ wg mainErr_final = 0%Z
  /\ mem mainErr_final = [""; "*"; "**"; "***"; "****"; "*****"; "******";
                          "*******"; "********"; "*********"]
  /\ nth_error (threads mainErr_final) 3 = Some [].
Proof.
  assert (M : nth_error (threads mainErr_final) 0 = Some [])
    by (vm_compute; reflexivity).
  destruct submit_then_wait_completes as [General Stars].
  destruct (General (list string) (star_tasks make_result) make_result
                    mainErr_trace mainErr_final eq_refl mainErr_reach)
    as (B & _ & W).
  destruct (W M) as (_ & _ & _ & A).
  destruct (Stars mainErr_trace mainErr_final mainErr_reach)
    as (_ & _ & S).
  split; [exact B |]. split; [apply (S M) |]. split; [apply (S M) |].
  apply (A 2 (star_task 2)). reflexivity.
Defined.

(* ================================================================= *)
(** * Further properties of the scoped resources *)

(** ** Which error is returned *)

Lemma first_failure_app (t u : Trace) :
  first_failure (t ++ u) =
  match first_failure t with
  | Some e => Some e
  | None => first_failure u
  end.
Proof.
  induction t as [| e t IH]; simpl; [reflexivity |].
  destruct (failure e); [reflexivity | exact IH].
Qed.

Lemma close_shape_first_failure (H : Type) (env : Env) (h : Trace)
      (acq : Call (result H)) (rel : H -> Call error)
      (callback : H -> Prog error) :
  (forall r, call_error acq r
             = match r with Ok _ => None | Fail e => Some e end) ->
  (forall hd r, call_error (rel hd) r = r) ->
  (forall hd, env h _ acq = Ok hd ->
              reports_first_failure env (acquired h acq hd) (callback hd)) ->
  reports_first_failure env h
    (r <- call acq;;
     match r with
     | Fail err => Ret (Some err)
     | Ok x =>
         err <- callback x;;
         match err with
         | Some _ => _ <- call (rel x);; Ret err
         | None => call (rel x)
         end
     end).
Proof.
  intros Ea Er Hc. unfold reports_first_failure.
  destruct (env h _ acq) as [hd | e] eqn:E.
  - specialize (Hc hd eq_refl). unfold reports_first_failure in Hc.
    destruct (close_shape_policy env h acq rel callback E)
      as (T & W1 & W2 & W3).
    rewrite T. simpl. rewrite Ea, first_failure_app, <- Hc. simpl.
    rewrite Er.
    destruct (eval env (acquired h acq hd) (callback hd)) as [e |] eqn:W.
    + apply W1. reflexivity.
    + destruct (env (acquired h acq hd ++ exec env (acquired h acq hd)
                                                (callback hd))
                    error (rel hd)) as [e |] eqn:C.
      * apply (W2 e); auto.
      * apply W3; auto.
  - pose proof (close_shape_fails acq rel env h callback E) as R.
    unfold eval, exec. rewrite R. simpl. rewrite Ea. reflexivity.
Qed.

Lemma RunTransaction_reports (env : Env) (h : Trace) (db : DB)
      (callback : Tx -> Prog error) :
  (forall tx, env h _ (DBBegin db) = Ok tx ->
              reports_first_failure
                env (acquired h (DBBegin db) tx) (callback tx)) ->
  reports_first_failure env h (Use (RunTransaction db) callback).
Proof.
  intro Hc. unfold reports_first_failure.
  destruct (env h _ (DBBegin db)) as [tx | e] eqn:E.
  - specialize (Hc tx eq_refl). unfold reports_first_failure in Hc.
    unfold eval at 1, exec at 1.
    rewrite (RunTransaction_run env h db callback E).
    destruct (eval env (acquired h (DBBegin db) tx) (callback tx))
      as [e |] eqn:W; simpl; rewrite first_failure_app, <- Hc;
      [reflexivity |].
    simpl.
    destruct (env _ error (TxCommit tx)); reflexivity.
  - unfold eval, exec.
    rewrite (RunTransaction_fails db env h callback E). reflexivity.
Qed.

Lemma TempFileResource_reports (env : Env) (h : Trace)
      (callback : FileResourceCallback) :
  (forall file, env h _ (IoutilTempFile "" "") = Ok file ->
                reports_first_failure
                  env (acquired h (IoutilTempFile "" "") file)
                  (callback file)) ->
  eval env h (TempFileResource callback) =
  first_failure
    (match env h _ (IoutilTempFile "" "") with
     | Ok file =>
         Ev (IoutilTempFile "" "") (Ok file)
            :: exec env (acquired h (IoutilTempFile "" "") file)
                    (callback file)
     | Fail e => [Ev (IoutilTempFile "" "") (Fail e)]
     end).
Proof.
  intro Hc.
  destruct (env h _ (IoutilTempFile "" "")) as [file | e] eqn:E.
  - specialize (Hc file eq_refl). unfold reports_first_failure in Hc.
    unfold eval at 1. rewrite (TempFileResource_run env h callback E).
    simpl. exact Hc.
  - unfold eval. rewrite (TempFileResource_fails env h callback E).
    reflexivity.
Qed.

Lemma NewFileResource_reports (env : Env) (h : Trace) (path : string)
      (flags perm : Z) (callback : FileResourceCallback) :
  (forall file, env h _ (OsOpenFile path flags perm) = Ok file ->
                reports_first_failure
                  env (acquired h (OsOpenFile path flags perm) file)
                  (callback file)) ->
  reports_first_failure env h (NewFileResource path flags perm callback).
Proof.
  intro Hc.
  apply (@close_shape_first_failure
           File env h (OsOpenFile path flags perm) FileClose);
    [intros []; reflexivity | reflexivity | exact Hc].
Qed.

(** X1.  The file, database, transaction and cursor resources report
    the first failure whenever their callback does: if what the callback
    returns is the error of the first of its calls that failed, then
    what the invocation returns is the error of the first failed call of
    the whole invocation, the acquisition and the release included.
    [TempFileResource] reports the first failure among the creation of
    the file and the calls of the callback. *)
Theorem resources_report_first_failure (env : Env) (h : Trace) :
  (forall path flags perm callback,
      (forall file, env h _ (OsOpenFile path flags perm) = Ok file ->
                    reports_first_failure
                      env (acquired h (OsOpenFile path flags perm) file)
                      (callback file)) ->
      reports_first_failure env h (NewFileResource path flags perm callback))
  /\ (forall driverName datasourceName callback,
         (forall db, env h _ (SqlOpen driverName datasourceName) = Ok db ->
                     reports_first_failure
                       env
                       (acquired h (SqlOpen driverName datasourceName) db)
                       (callback db)) ->
         reports_first_failure
           env h (Use (NewDBResource driverName datasourceName) callback))
  /\ (forall db callback,
         (forall tx, env h _ (DBBegin db) = Ok tx ->
                     reports_first_failure
                       env (acquired h (DBBegin db) tx) (callback tx)) ->
         reports_first_failure env h (Use (RunTransaction db) callback))
  /\ (forall tx query args callback,
         (forall rows, env h _ (TxQuery tx query args) = Ok rows ->
                       reports_first_failure
                         env (acquired h (TxQuery tx query args) rows)
                         (callback rows)) ->
         reports_first_failure env h (Use (QueryRows tx query args) callback))
  /\ (forall callback,
         (forall file, env h _ (IoutilTempFile "" "") = Ok file ->
                       reports_first_failure
                         env (acquired h (IoutilTempFile "" "") file)
                         (callback file)) ->
         eval env h (TempFileResource callback) =
         first_failure
           (match env h _ (IoutilTempFile "" "") with
            | Ok file =>
                Ev (IoutilTempFile "" "") (Ok file)
                   :: exec env (acquired h (IoutilTempFile "" "") file)
                           (callback file)
            | Fail e => [Ev (IoutilTempFile "" "") (Fail e)]
            end)).
Proof.
  split; [| split; [| split; [| split]]].
  - intros path flags perm callback. apply NewFileResource_reports.
  - intros driverName datasourceName callback Hc.
    apply (@close_shape_first_failure
             DB env h (SqlOpen driverName datasourceName) DBClose);
      [intros []; reflexivity | reflexivity | exact Hc].
  - intros db callback. apply RunTransaction_reports.
  - intros tx query args callback Hc.
    apply (@close_shape_first_failure
             Rows env h (TxQuery tx query args) RowsClose);
      [intros []; reflexivity | reflexivity | exact Hc].
  - intros callback. apply TempFileResource_reports.
Qed.

Lemma write_twice_reports (env : Env) (h : Trace) (content : string)
      (file : File) :
  reports_first_failure env h (write_twice content file).
Proof.
  unfold reports_first_failure, eval, exec, write_twice. simpl.
  destruct (env h _ (FileWrite file content)) as [n1 [e1 |]]; simpl;
    [reflexivity |].
  destruct (env _ _ (FileWrite file content)) as [n2 [e2 |]]; reflexivity.
Qed.

Lemma resources_report_first_failure_witness :
  eval (env_failing [KWrite]) [] (writeFile2 "./test2.txt" "test2")
  = Some (kind_error KWrite)
  /\ first_failure
       (exec (env_failing [KWrite]) [] (writeFile2 "./test2.txt" "test2"))
     = Some (kind_error KWrite).
Proof.
  pose proof (proj1 (resources_report_first_failure
                       (env_failing [KWrite]) [])
                    "./test2.txt" NewFileFlag OwnerRWOnly
                    (write_twice "test2")
                    (fun file _ => write_twice_reports _ _ _ file)) as R.
  split; [reflexivity | rewrite <- R; reflexivity].
Defined.

(** ** What happens after a failure *)

Lemma cleanup_after_failure_app (t u : Trace) :
  cleanup_after_failure (t ++ u) =
  match first_failure t with
  | Some _ => cleanup_after_failure t && forallb is_cleanup u
  | None => cleanup_after_failure u
  end.
Proof.
  induction t as [| e t IH]; simpl; [reflexivity |].
  destruct (failure e); [apply forallb_app | exact IH].
Qed.

Lemma cleanup_after_release (t : Trace) (e : Event) :
  is_cleanup e = true ->
  cleanup_after_failure t = true ->
  cleanup_after_failure (t ++ [e]) = true.
Proof.
  intros C T. rewrite cleanup_after_failure_app, T. simpl. rewrite C.
  destruct (first_failure t); [reflexivity |].
  destruct (failure e); reflexivity.
Qed.

Lemma close_shape_stops (H : Type) (env : Env) (h : Trace)
      (acq : Call (result H)) (rel : H -> Call error)
      (callback : H -> Prog error) :
  (forall r, call_error acq r
             = match r with Ok _ => None | Fail e => Some e end) ->
  (forall hd r, is_cleanup (Ev (rel hd) r) = true) ->
  (forall hd, env h _ acq = Ok hd ->
              stops_at_failure env (acquired h acq hd) (callback hd)) ->
  stops_at_failure env h
    (r <- call acq;;
     match r with
     | Fail err => Ret (Some err)
     | Ok x =>
         err <- callback x;;
         match err with
         | Some _ => _ <- call (rel x);; Ret err
         | None => call (rel x)
         end
     end).
Proof.
  intros Ea Er Hc. unfold stops_at_failure.
  destruct (env h _ acq) as [hd | e] eqn:E.
  - destruct (close_shape_policy env h acq rel callback E) as [T _].
    rewrite T. simpl. rewrite Ea.
    apply cleanup_after_release; [apply Er | apply (Hc hd eq_refl)].
  - pose proof (close_shape_fails acq rel env h callback E) as R.
    unfold exec. rewrite R. simpl. rewrite Ea. reflexivity.
Qed.

Lemma NewFileResource_stops (env : Env) (h : Trace) (path : string)
      (flags perm : Z) (callback : FileResourceCallback) :
  (forall file, env h _ (OsOpenFile path flags perm) = Ok file ->
                stops_at_failure
                  env (acquired h (OsOpenFile path flags perm) file)
                  (callback file)) ->
  stops_at_failure env h (NewFileResource path flags perm callback).
Proof.
  intro Hc.
  apply (@close_shape_stops
           File env h (OsOpenFile path flags perm) FileClose);
    [intros []; reflexivity | reflexivity | exact Hc].
Qed.

Lemma TempFileResource_stops (env : Env) (h : Trace)
      (callback : FileResourceCallback) :
  (forall file, env h _ (IoutilTempFile "" "") = Ok file ->
                stops_at_failure
                  env (acquired h (IoutilTempFile "" "") file)
                  (callback file)) ->
  stops_at_failure env h (TempFileResource callback).
Proof.
  intro Hc. unfold stops_at_failure.
  destruct (env h _ (IoutilTempFile "" "")) as [file | e] eqn:E.
  - unfold exec at 1. rewrite (TempFileResource_run env h callback E).
    simpl.
    change [Ev (OsRemove (file_name file)) ?r; ?c]
      with ([Ev (OsRemove (file_name file)) r] ++ [c]).
    rewrite app_assoc.
    apply cleanup_after_release; [reflexivity |].
    apply cleanup_after_release; [reflexivity |].
    apply (Hc file eq_refl).
  - unfold exec. rewrite (TempFileResource_fails env h callback E).
    reflexivity.
Qed.

Lemma RunTransaction_stops (env : Env) (h : Trace) (db : DB)
      (callback : Tx -> Prog error) :
  (forall tx, env h _ (DBBegin db) = Ok tx ->
              stops_at_failure
                env (acquired h (DBBegin db) tx) (callback tx)
              /\ reports_first_failure
                   env (acquired h (DBBegin db) tx) (callback tx)) ->
  stops_at_failure env h (Use (RunTransaction db) callback).
Proof.
  intro Hc. unfold stops_at_failure.
  destruct (env h _ (DBBegin db)) as [tx | e] eqn:E.
  - destruct (Hc tx eq_refl) as [St Rp].
    unfold stops_at_failure in St. unfold reports_first_failure in Rp.
    unfold exec at 1. rewrite (RunTransaction_run env h db callback E).
    destruct (eval env (acquired h (DBBegin db) tx) (callback tx))
      as [e |] eqn:W; simpl.
    + apply cleanup_after_release; [reflexivity | exact St].
    + rewrite cleanup_after_failure_app, <- Rp. simpl.
      destruct (env _ error (TxCommit tx)); reflexivity.
  - unfold exec.
    rewrite (RunTransaction_fails db env h callback E). reflexivity.
Qed.

(** X2.  The scoped resources stop at a failure whenever their callback
    does: if nothing but cleanup calls ([Close], [os.Remove],
    [Rollback]) follows the first failed call in the callback, then
    nothing but cleanup calls follows the first failed call in the whole
    invocation.  For the transaction the callback must also report its
    first failure, so that [Commit] is not called after a failure the
    callback kept to itself. *)
Theorem resources_stop_at_failure (env : Env) (h : Trace) :
  (forall path flags perm callback,
      (forall file, env h _ (OsOpenFile path flags perm) = Ok file ->
                    stops_at_failure
                      env (acquired h (OsOpenFile path flags perm) file)
                      (callback file)) ->
      stops_at_failure env h (NewFileResource path flags perm callback))
  /\ (forall callback,
         (forall file, env h _ (IoutilTempFile "" "") = Ok file ->
                       stops_at_failure
                         env (acquired h (IoutilTempFile "" "") file)
                         (callback file)) ->
         stops_at_failure env h (TempFileResource callback))
  /\ (forall driverName datasourceName callback,
         (forall db, env h _ (SqlOpen driverName datasourceName) = Ok db ->
                     stops_at_failure
                       env
                       (acquired h (SqlOpen driverName datasourceName) db)
                       (callback db)) ->
         stops_at_failure
           env h (Use (NewDBResource driverName datasourceName) callback))
  /\ (forall db callback,
         (forall tx, env h _ (DBBegin db) = Ok tx ->
                     stops_at_failure
                       env (acquired h (DBBegin db) tx) (callback tx)
                     /\ reports_first_failure
                          env (acquired h (DBBegin db) tx) (callback tx)) ->
         stops_at_failure env h (Use (RunTransaction db) callback))
  /\ (forall tx query args callback,
         (forall rows, env h _ (TxQuery tx query args) = Ok rows ->
                       stops_at_failure
                         env (acquired h (TxQuery tx query args) rows)
                         (callback rows)) ->
         stops_at_failure env h (Use (QueryRows tx query args) callback)).
Proof.
  split; [| split; [| split; [| split]]].
  - intros path flags perm callback. apply NewFileResource_stops.
  - intros callback. apply TempFileResource_stops.
  - intros driverName datasourceName callback Hc.
    apply (@close_shape_stops
             DB env h (SqlOpen driverName datasourceName) DBClose);
      [intros []; reflexivity | reflexivity | exact Hc].
  - intros db callback. apply RunTransaction_stops.
  - intros tx query args callback Hc.
    apply (@close_shape_stops
             Rows env h (TxQuery tx query args) RowsClose);
      [intros []; reflexivity | reflexivity | exact Hc].
Qed.

Lemma write_twice_stops (env : Env) (h : Trace) (content : string)
      (file : File) :
  stops_at_failure env h (write_twice content file).
Proof.
  unfold stops_at_failure, exec, write_twice. simpl.
  destruct (env h _ (FileWrite file content)) as [n1 [e1 |]]; simpl;
    [reflexivity |].
  destruct (env _ _ (FileWrite file content)) as [n2 [e2 |]]; reflexivity.
Qed.

Lemma resources_stop_at_failure_witness :
  cleanup_after_failure
    (exec (env_failing [KWrite]) [] (writeFile3 TempFileResource "whatever"))
  = true
  /\ exec (env_failing [KWrite]) [] (writeFile3 TempFileResource "whatever")
     = [Ev (IoutilTempFile "" "") (Ok temp0);
        Ev (FileWrite temp0 "whatever") (0%Z, Some (kind_error KWrite));
        Ev (OsRemove "/tmp/0") None;
        Ev (FileClose temp0) None].
Proof.
  split; [| reflexivity].
  apply (proj1 (proj2 (resources_stop_at_failure (env_failing [KWrite]) []))
               (write_twice "whatever")).
  intros file _. apply write_twice_stops.
Defined.

(** ** The file writers *)

(** X3.  [writeFile1_WithErrorHandling] cannot be told from
    [writeFile1]: in every environment the two make the same calls and
    return the same error.  The deferred closure of the first assigns a
    local variable after the result has been stored, so the error of
    [Close] is dropped by both. *)
Theorem writeFile1_WithErrorHandling_is_writeFile1
        (env : Env) (h : Trace) (path content : string) :
  run env h (writeFile1_WithErrorHandling path content)
  = run env h (writeFile1 path content).
Proof.
  unfold writeFile1_WithErrorHandling, writeFile1, go_return,
    deferred_close, defer_call.
  simpl.
  destruct (env h _ (OsOpenFile path NewFileFlag OwnerRWOnly))
    as [file | e0]; simpl; [| reflexivity].
  destruct (env _ _ (FileWrite file content)) as [n1 [e1 |]]; simpl;
    [reflexivity |].
  destruct (env _ _ (FileWrite file content)) as [n2 [e2 |]]; reflexivity.
Qed.

(** X4.  [writeFile2] makes the calls [writeFile1] makes and returns
    every error [writeFile1] returns; [writeFile1] returns the first
    failure among the open and the writes, [writeFile2] the first
    failure among all the calls, the close included; and neither writes
    again, or opens anything, after a failure. *)
Theorem writeFile2_refines_writeFile1
        (env : Env) (h : Trace) (path content : string) :
  exec env h (writeFile2 path content) = exec env h (writeFile1 path content)
  /\ eval env h (writeFile1 path content)
     = first_failure (filter (fun e => negb (is_cleanup e))
                             (exec env h (writeFile1 path content)))
  /\ reports_first_failure env h (writeFile2 path content)
  /\ (forall e, eval env h (writeFile1 path content) = Some e ->
                eval env h (writeFile2 path content) = Some e)
  /\ stops_at_failure env h (writeFile2 path content).
Proof.
  unfold reports_first_failure, stops_at_failure, eval, exec, writeFile2,
    writeFile1, NewFileResource, write_twice, go_return, defer_call.
  simpl.
  destruct (env h _ (OsOpenFile path NewFileFlag OwnerRWOnly))
    as [file | e0]; simpl;
    [| repeat split; auto].
  destruct (env _ _ (FileWrite file content)) as [n1 [e1 |]]; simpl;
    [repeat split; auto |].
  destruct (env _ _ (FileWrite file content)) as [n2 [e2 |]]; simpl;
    [repeat split; auto |].
  destruct (env _ _ (FileClose file)) as [e3 |]; simpl;
    repeat split; auto; discriminate.
Qed.

(** X5.  [writeFile3] stops at a failure with either file resource.
    With the resource of [NewFileResource] it returns the first failure
    of the whole run; with [TempFileResource] it returns the first
    failure among the creation of the file and the writes: a failed
    [os.Remove] or [Close] is not reported. *)
Theorem writeFile3_on_file_resources (env : Env) (h : Trace)
        (content : string) :
  (forall path flags perm,
      reports_first_failure
        env h (writeFile3 (NewFileResource path flags perm) content)
      /\ stops_at_failure
           env h (writeFile3 (NewFileResource path flags perm) content))
  /\ stops_at_failure env h (writeFile3 TempFileResource content)
  /\ eval env h (writeFile3 TempFileResource content)
     = first_failure
         (filter (fun e => negb (is_cleanup e))
                 (exec env h (writeFile3 TempFileResource content))).
Proof.
  split; [| split].
  - intros path flags perm. unfold writeFile3. split.
    + apply NewFileResource_reports.
      intros file _. apply write_twice_reports.
    + apply NewFileResource_stops.
      intros file _. apply write_twice_stops.
  - unfold writeFile3.
    apply TempFileResource_stops.
    intros file _. apply write_twice_stops.
  - unfold eval, exec, writeFile3, TempFileResource, write_twice,
      go_return, defer_call.
    simpl.
    destruct (env h _ (IoutilTempFile "" "")) as [file | e0]; simpl;
      [| reflexivity].
    destruct (env _ _ (FileWrite file content)) as [n1 [e1 |]]; simpl;
      [reflexivity |].
    destruct (env _ _ (FileWrite file content)) as [n2 [e2 |]]; reflexivity.
Qed.

(** ** Handles are used while held, and released in turn *)

Lemma track_app (stack : list Handle) (t u : Trace) :
  track stack (t ++ u) =
  match track stack t with
  | Some stack' => track stack' u
  | None => None
  end.
Proof.
  revert stack; induction t as [| [R c r] t IH]; intro stack; simpl;
    [reflexivity |].
  destruct (handle_step c r stack); [apply IH | reflexivity].
Qed.

Lemma Handle_eqb_refl (x : Handle) : Handle_eqb x x = true.
Proof.
  destruct x; simpl;
    auto using File_eqb_refl, DB_eqb_refl, Tx_eqb_refl, Rows_eqb_refl.
Qed.

Lemma pop_top (x : Handle) (stack : list Handle) :
  pop x (x :: stack) = Some stack.
Proof. simpl. rewrite Handle_eqb_refl. reflexivity. Qed.

Lemma held_top (x : Handle) (stack : list Handle) :
  held x (x :: stack) = true.
Proof. unfold held. simpl. rewrite Handle_eqb_refl. reflexivity. Qed.

Lemma held_below (x y : Handle) (stack : list Handle) :
  held x stack = true -> held x (y :: stack) = true.
Proof. unfold held. simpl. intros ->. apply orb_true_r. Qed.

Lemma keeps_handles_bind (A B : Type) (env : Env) (h : Trace)
      (stack : list Handle) (p : Prog A) (k : A -> Prog B) :
  keeps_handles env h stack p ->
  keeps_handles env (h ++ exec env h p) stack (k (eval env h p)) ->
  keeps_handles env h stack (x <- p;; k x).
Proof.
  unfold keeps_handles. intros P K. rewrite exec_bind, track_app, P. exact K.
Qed.

Lemma keeps_handles_Ret (A : Type) (env : Env) (h : Trace)
      (stack : list Handle) (a : A) :
  keeps_handles env h stack (Ret a).
Proof. reflexivity. Qed.

(** The body shared by [NewFileResource], [NewDBResource] and
    [QueryRows]. *)
Lemma close_shape_keeps (H : Type) (env : Env) (h : Trace)
      (stack : list Handle) (mk : H -> Handle)
      (acq : Call (result H)) (rel : H -> Call error)
      (callback : H -> Prog error) :
  (forall r, handle_step acq r stack = Some (push mk r stack)) ->
  (forall hd r st, handle_step (rel hd) r st = pop (mk hd) st) ->
  (forall hd, env h _ acq = Ok hd ->
              keeps_handles env (acquired h acq hd) (mk hd :: stack)
                            (callback hd)) ->
  keeps_handles env h stack
    (r <- call acq;;
     match r with
     | Fail err => Ret (Some err)
     | Ok x =>
         err <- callback x;;
         match err with
         | Some _ => _ <- call (rel x);; Ret err
         | None => call (rel x)
         end
     end).
Proof.
  intros Ea Er Hc. unfold keeps_handles.
  destruct (env h _ acq) as [hd | e] eqn:E.
  - destruct (close_shape_policy env h acq rel callback E) as [T _].
    rewrite T. simpl. rewrite Ea. simpl.
    rewrite track_app, (Hc hd eq_refl). simpl.
    rewrite Er, pop_top. reflexivity.
  - pose proof (close_shape_fails acq rel env h callback E) as R.
    unfold exec. rewrite R. simpl. rewrite Ea. reflexivity.
Qed.

Lemma NewFileResource_keeps (env : Env) (h : Trace) (stack : list Handle)
      (path : string) (flags perm : Z) (callback : FileResourceCallback) :
  (forall file, env h _ (OsOpenFile path flags perm) = Ok file ->
                keeps_handles
                  env (acquired h (OsOpenFile path flags perm) file)
                  (HFile file :: stack) (callback file)) ->
  keeps_handles env h stack (NewFileResource path flags perm callback).
Proof.
  intro Hc.
  apply (@close_shape_keeps File env h stack HFile
                            (OsOpenFile path flags perm) FileClose);
    [reflexivity | reflexivity | exact Hc].
Qed.

Lemma TempFileResource_keeps (env : Env) (h : Trace) (stack : list Handle)
      (callback : FileResourceCallback) :
  (forall file, env h _ (IoutilTempFile "" "") = Ok file ->
                keeps_handles
                  env (acquired h (IoutilTempFile "" "") file)
                  (HFile file :: stack) (callback file)) ->
  keeps_handles env h stack (TempFileResource callback).
Proof.
  intro Hc. unfold keeps_handles.
  destruct (env h _ (IoutilTempFile "" "")) as [file | e] eqn:E.
  - unfold exec at 1. rewrite (TempFileResource_run env h callback E).
    simpl. rewrite track_app, (Hc file eq_refl). simpl.
    rewrite File_eqb_refl. reflexivity.
  - unfold exec. rewrite (TempFileResource_fails env h callback E).
    reflexivity.
Qed.

Lemma NewDBResource_keeps (env : Env) (h : Trace) (stack : list Handle)
      (driverName datasourceName : string) (callback : DB -> Prog error) :
  (forall db, env h _ (SqlOpen driverName datasourceName) = Ok db ->
              keeps_handles
                env (acquired h (SqlOpen driverName datasourceName) db)
                (HDB db :: stack) (callback db)) ->
  keeps_handles env h stack
                (Use (NewDBResource driverName datasourceName) callback).
Proof.
  intro Hc.
  apply (@close_shape_keeps DB env h stack HDB
                            (SqlOpen driverName datasourceName) DBClose);
    [reflexivity | reflexivity | exact Hc].
Qed.

Lemma QueryRows_keeps (env : Env) (h : Trace) (stack : list Handle)
      (tx : Tx) (query : string) (args : list string)
      (callback : Rows -> Prog error) :
  held (HTx tx) stack = true ->
  (forall rows, env h _ (TxQuery tx query args) = Ok rows ->
                keeps_handles
                  env (acquired h (TxQuery tx query args) rows)
                  (HRows rows :: stack) (callback rows)) ->
  keeps_handles env h stack (Use (QueryRows tx query args) callback).
Proof.
  intros Ht Hc.
  apply (@close_shape_keeps Rows env h stack HRows
                            (TxQuery tx query args) RowsClose);
    [| reflexivity | exact Hc].
  intro r. simpl. unfold needs. rewrite Ht. reflexivity.
Qed.

Lemma RunTransaction_keeps (env : Env) (h : Trace) (stack : list Handle)
      (db : DB) (callback : Tx -> Prog error) :
  held (HDB db) stack = true ->
  (forall tx, env h _ (DBBegin db) = Ok tx ->
              keeps_handles env (acquired h (DBBegin db) tx)
                            (HTx tx :: stack) (callback tx)) ->
  keeps_handles env h stack (Use (RunTransaction db) callback).
Proof.
  intros Hd Hc. unfold keeps_handles.
  destruct (env h _ (DBBegin db)) as [tx | e] eqn:E.
  - unfold exec at 1. rewrite (RunTransaction_run env h db callback E).
    destruct (eval env (acquired h (DBBegin db) tx) (callback tx));
      simpl; unfold needs; rewrite Hd; simpl;
      rewrite track_app, (Hc tx eq_refl); simpl;
      rewrite Tx_eqb_refl; reflexivity.
  - unfold exec. rewrite (RunTransaction_fails db env h callback E).
    simpl. unfold needs. rewrite Hd. reflexivity.
Qed.

(** X6.  The five scoped resources keep the handles in order.  If the
    callback, started with the acquired handle held, uses handles only
    while they are held, releases what it acquires in the reverse order
    of acquisition and leaves the handles held as it found them, then
    so does the invocation: the handle is held during the callback and
    released, once, after it, and nothing else is released.  A
    transaction needs its database held, a query its transaction. *)
Theorem resources_keep_handles (env : Env) (h : Trace)
        (stack : list Handle) :
  (forall path flags perm callback,
      (forall file,
          env h _ (OsOpenFile path flags perm) = Ok file ->
          keeps_handles env (acquired h (OsOpenFile path flags perm) file)
                        (HFile file :: stack) (callback file)) ->
      keeps_handles env h stack (NewFileResource path flags perm callback))
  /\ (forall callback,
         (forall file,
             env h _ (IoutilTempFile "" "") = Ok file ->
             keeps_handles env (acquired h (IoutilTempFile "" "") file)
                           (HFile file :: stack) (callback file)) ->
         keeps_handles env h stack (TempFileResource callback))
  /\ (forall driverName datasourceName callback,
         (forall db,
             env h _ (SqlOpen driverName datasourceName) = Ok db ->
             keeps_handles
               env (acquired h (SqlOpen driverName datasourceName) db)
               (HDB db :: stack) (callback db)) ->
         keeps_handles
           env h stack
           (Use (NewDBResource driverName datasourceName) callback))
  /\ (forall db callback,
         held (HDB db) stack = true ->
         (forall tx,
             env h _ (DBBegin db) = Ok tx ->
             keeps_handles env (acquired h (DBBegin db) tx)
                           (HTx tx :: stack) (callback tx)) ->
         keeps_handles env h stack (Use (RunTransaction db) callback))
  /\ (forall tx query args callback,
         held (HTx tx) stack = true ->
         (forall rows,
             env h _ (TxQuery tx query args) = Ok rows ->
             keeps_handles env (acquired h (TxQuery tx query args) rows)
                           (HRows rows :: stack) (callback rows)) ->
         keeps_handles env h stack
                       (Use (QueryRows tx query args) callback)).
Proof.
  split; [| split; [| split; [| split]]].
  - intros path flags perm callback. apply NewFileResource_keeps.
  - intros callback. apply TempFileResource_keeps.
  - intros driverName datasourceName callback. apply NewDBResource_keeps.
  - intros db callback. apply RunTransaction_keeps.
  - intros tx query args callback. apply QueryRows_keeps.
Qed.

Lemma resources_keep_handles_witness :
  track [] (exec env_ok [] nested_temp_files) = Some []
  /\ track [HDB (MkDB 1)]
           (exec env_ok [] (Use (RunTransaction (MkDB 1))
                                (insert_and_greet_error "MessageBird")))
     = Some [HDB (MkDB 1)].
Proof.
  split.
  - apply (proj1 (proj2 (resources_keep_handles env_ok [] []))).
    intros file1 E1. injection E1 as <-.
    apply (proj1 (proj2 (resources_keep_handles
                           env_ok (acquired [] (IoutilTempFile "" "") temp0)
                           [HFile temp0]))).
    intros file2 E2. injection E2 as <-. reflexivity.
  - apply (proj1 (proj2 (proj2 (proj2 (resources_keep_handles
                                         env_ok [] [HDB (MkDB 1)]))))).
    + reflexivity.
    + intros tx E. injection E as <-. reflexivity.
Defined.

(* ================================================================= *)
(** * Properties of [helloSql_Cool] *)

(** The [Use] functions written for callbacks that assign captured
    variables make the calls, and return the error, of the [Use]
    functions of [RunTransaction] and [QueryRows] on the callback with
    the variables forgotten. *)
Lemma RunTransaction_capturing_forget (S : Type) (env : Env) (h : Trace)
      (db : DB) (callback : Tx -> S -> Prog (error * S)) (vars : S) :
  run env h (forget (RunTransaction_capturing db callback vars))
  = run env h (Use (RunTransaction db)
                   (fun tx => forget (callback tx vars))).
Proof.
  unfold forget, RunTransaction_capturing, RunTransaction, Use.
  rewrite !run_bind. simpl.
  destruct (env h _ (DBBegin db)) as [tx | e]; simpl; [| reflexivity].
  rewrite !run_bind. simpl.
  destruct (run env (h ++ [Ev (DBBegin db) (Ok tx)]) (callback tx vars))
    as [[[e |] v] t]; simpl; rewrite !app_nil_r; reflexivity.
Qed.

Lemma QueryRows_capturing_forget (S : Type) (env : Env) (h : Trace)
      (tx : Tx) (query : string) (args : list string)
      (callback : Rows -> S -> Prog (error * S)) (vars : S) :
  run env h (forget (QueryRows_capturing tx query args callback vars))
  = run env h (Use (QueryRows tx query args)
                   (fun rows => forget (callback rows vars))).
Proof.
  unfold forget, QueryRows_capturing, QueryRows, Use.
  rewrite !run_bind. simpl.
  destruct (env h _ (TxQuery tx query args)) as [rows | e]; simpl;
    [| reflexivity].
  rewrite !run_bind. simpl.
  destruct (run env (h ++ [Ev (TxQuery tx query args) (Ok rows)])
                (callback rows vars))
    as [[[e |] v] t]; simpl; rewrite !app_nil_r; reflexivity.
Qed.

Lemma NewDBResource_capturing_forget (S : Type) (env : Env) (h : Trace)
      (driverName datasourceName : string)
      (callback : DB -> S -> Prog (error * S)) (vars : S) :
  run env h (forget (NewDBResource_capturing driverName datasourceName
                                             callback vars))
  = run env h (Use (NewDBResource driverName datasourceName)
                   (fun db => forget (callback db vars))).
Proof.
  unfold forget, NewDBResource_capturing, NewDBResource, Use.
  rewrite !run_bind. simpl.
  destruct (env h _ (SqlOpen driverName datasourceName)) as [db | e]; simpl;
    [| reflexivity].
  rewrite !run_bind. simpl.
  destruct (run env (h ++ [Ev (SqlOpen driverName datasourceName) (Ok db)])
                (callback db vars))
    as [[[e |] v] t]; simpl; rewrite !app_nil_r; reflexivity.
Qed.

Lemma exec_forget (S : Type) (env : Env) (h : Trace)
      (p : Prog (error * S)) :
  exec env h (forget p) = exec env h p.
Proof.
  unfold forget. rewrite exec_bind. simpl. apply app_nil_r.
Qed.

(** ** The functions of the repository and the handles *)

Lemma write_twice_keeps (env : Env) (h : Trace) (stack : list Handle)
      (content : string) (file : File) :
  held (HFile file) stack = true ->
  keeps_handles env h stack (write_twice content file).
Proof.
  intro O. unfold keeps_handles, exec, write_twice. simpl.
  destruct (env h _ (FileWrite file content)) as [n1 [e1 |]]; simpl.
  - unfold needs; rewrite O. reflexivity.
  - destruct (env _ _ (FileWrite file content)) as [n2 [e2 |]];
      repeat (simpl; unfold needs; rewrite ?O); reflexivity.
Qed.

Ltac handle_calls :=
  repeat (simpl; unfold needs, held; simpl;
          rewrite ?File_eqb_refl, ?DB_eqb_refl, ?Tx_eqb_refl,
            ?Rows_eqb_refl, ?orb_true_r; simpl).

Lemma writeFile1_keeps (env : Env) (h : Trace) (stack : list Handle)
      (path content : string) :
  keeps_handles env h stack (writeFile1 path content).
Proof.
  unfold keeps_handles, exec, writeFile1, go_return, defer_call. simpl.
  destruct (env h _ (OsOpenFile path NewFileFlag OwnerRWOnly))
    as [file | e0]; simpl; [| reflexivity].
  destruct (env _ _ (FileWrite file content)) as [n1 [e1 |]].
  - handle_calls. reflexivity.
  - simpl. destruct (env _ _ (FileWrite file content)) as [n2 [e2 |]];
      handle_calls; reflexivity.
Qed.

Lemma writeFile1_WithErrorHandling_keeps (env : Env) (h : Trace)
      (stack : list Handle) (path content : string) :
  keeps_handles env h stack (writeFile1_WithErrorHandling path content).
Proof.
  unfold keeps_handles, exec, writeFile1_WithErrorHandling, go_return,
    deferred_close.
  simpl.
  destruct (env h _ (OsOpenFile path NewFileFlag OwnerRWOnly))
    as [file | e0]; simpl; [| reflexivity].
  destruct (env _ _ (FileWrite file content)) as [n1 [e1 |]].
  - handle_calls. reflexivity.
  - simpl. destruct (env _ _ (FileWrite file content)) as [n2 [e2 |]];
      handle_calls; reflexivity.
Qed.

Lemma writeFile3_keeps_new (env : Env) (h : Trace) (stack : list Handle)
      (path : string) (flags perm : Z) (content : string) :
  keeps_handles env h stack
                (writeFile3 (NewFileResource path flags perm) content).
Proof.
  apply NewFileResource_keeps. intros file _.
  apply write_twice_keeps, held_top.
Qed.

Lemma writeFile3_keeps_temp (env : Env) (h : Trace) (stack : list Handle)
      (content : string) :
  keeps_handles env h stack (writeFile3 TempFileResource content).
Proof.
  apply TempFileResource_keeps. intros file _.
  apply write_twice_keeps, held_top.
Qed.

Lemma nested_temp_files_keeps (env : Env) (h : Trace)
      (stack : list Handle) :
  keeps_handles env h stack nested_temp_files.
Proof.
  apply TempFileResource_keeps. intros fd1 _.
  apply TempFileResource_keeps. intros fd2 _.
  unfold keeps_handles, exec. simpl.
  destruct (env _ _ (FileWrite fd1 "hi!")) as [n1 [e1 |]].
  - handle_calls. reflexivity.
  - simpl. destruct (env _ _ (FileWrite fd2 "hi!")) as [n2 [e2 |]];
      handle_calls; reflexivity.
Qed.

Lemma mainErr_files_keeps (env : Env) (h : Trace) (stack : list Handle) :
  keeps_handles env h stack mainErr_files.
Proof.
  unfold mainErr_files.
  apply keeps_handles_bind; [apply writeFile1_keeps |].
  destruct (eval env h _); [apply keeps_handles_Ret |].
  apply keeps_handles_bind; [apply writeFile3_keeps_new |].
  destruct (eval env _ _); [apply keeps_handles_Ret |].
  apply keeps_handles_bind; [apply writeFile3_keeps_new |].
  destruct (eval env _ _); [apply keeps_handles_Ret |].
  apply keeps_handles_bind; [apply writeFile3_keeps_temp |].
  destruct (eval env _ _); [apply keeps_handles_Ret |].
  apply keeps_handles_bind; [apply nested_temp_files_keeps |].
  destruct (eval env _ _); apply keeps_handles_Ret.
Qed.

(** X7.  No function of the repository on files leaks or misuses a
    file: in every environment and whatever is held when they start,
    each of the three file writers, [writeFile3] on either file
    resource, the nested temporary files and the file statements of
    [mainErr] as a whole close every file they opened, once and in the
    reverse order of opening, write to files they hold only, and
    release nothing else; whichever calls fail. *)
Theorem file_functions_keep_handles (env : Env) (h : Trace)
        (stack : list Handle) :
  (forall path content,
      keeps_handles env h stack (writeFile1 path content)
      /\ keeps_handles env h stack (writeFile1_WithErrorHandling path content)
      /\ keeps_handles env h stack (writeFile2 path content))
  /\ (forall path flags perm content,
         keeps_handles env h stack
                       (writeFile3 (NewFileResource path flags perm) content))
  /\ (forall content,
         keeps_handles env h stack (writeFile3 TempFileResource content))
  /\ keeps_handles env h stack nested_temp_files
  /\ keeps_handles env h stack mainErr_files.
Proof.
  split; [| split; [| split; [| split]]].
  - intros path content. split; [| split].
    + apply writeFile1_keeps.
    + apply writeFile1_WithErrorHandling_keeps.
    + apply writeFile3_keeps_new.
  - intros. apply writeFile3_keeps_new.
  - intros. apply writeFile3_keeps_temp.
  - apply nested_temp_files_keeps.
  - apply mainErr_files_keeps.
Qed.

Lemma initDB_keeps (env : Env) (h : Trace) (stack : list Handle) (db : DB) :
  held (HDB db) stack = true ->
  keeps_handles env h stack (initDB db).
Proof.
  intro Hd. unfold keeps_handles, exec, initDB. simpl.
  destruct (env h _ (DBExec db createTableQuery [])) as [r e]. simpl.
  unfold needs. rewrite Hd. reflexivity.
Qed.

Lemma scan_hello_keeps (env : Env) (h : Trace) (stack : list Handle)
      (rows : Rows) (result : string) :
  held (HRows rows) stack = true ->
  keeps_handles env h stack (scan_hello rows result).
Proof.
  intro Hr. unfold keeps_handles, exec, scan_hello. simpl.
  destruct (env _ _ (RowsScan rows)) as [v e]. simpl.
  unfold needs. rewrite !Hr. reflexivity.
Qed.

Lemma insert_and_greet_keeps (env : Env) (h : Trace) (stack : list Handle)
      (name : string) (tx : Tx) (result : string) :
  held (HTx tx) stack = true ->
  keeps_handles env h stack (insert_and_greet name tx result).
Proof.
  intro Ht. unfold insert_and_greet.
  apply keeps_handles_bind.
  - unfold keeps_handles, exec. simpl. unfold needs. rewrite Ht. reflexivity.
  - destruct (eval env h _) as [r [e |]]; [apply keeps_handles_Ret |].
    apply keeps_handles_bind.
    + unfold keeps_handles. rewrite <- exec_forget.
      unfold exec. rewrite QueryRows_capturing_forget.
      apply QueryRows_keeps; [exact Ht |].
      intros rows _. unfold keeps_handles. rewrite exec_forget.
      apply scan_hello_keeps, held_top.
    + destruct (eval env _ _) as [e v]. apply keeps_handles_Ret.
Qed.

Lemma helloSql_Cool_keeps (env : Env) (h : Trace) (stack : list Handle)
      (db : DB) (name : string) :
  held (HDB db) stack = true ->
  keeps_handles env h stack (helloSql_Cool db name).
Proof.
  intro Hd. unfold helloSql_Cool.
  apply keeps_handles_bind.
  - unfold keeps_handles. rewrite <- exec_forget.
    unfold exec. rewrite RunTransaction_capturing_forget.
    apply RunTransaction_keeps; [exact Hd |].
    intros tx _. unfold keeps_handles. rewrite exec_forget.
    apply insert_and_greet_keeps, held_top.
  - destruct (eval env _ _) as [e v]. apply keeps_handles_Ret.
Qed.

Lemma mainErr_db_callback_keeps (env : Env) (h : Trace)
      (stack : list Handle) (db : DB) (printed : list string) :
  held (HDB db) stack = true ->
  keeps_handles env h stack (mainErr_db_callback db printed).
Proof.
  intro Hd. unfold mainErr_db_callback.
  apply keeps_handles_bind; [apply initDB_keeps, Hd |].
  destruct (eval env h _); [apply keeps_handles_Ret |].
  apply keeps_handles_bind; [apply helloSql_Cool_keeps, Hd |].
  destruct (eval env _ _) as [result1 [e |]]; apply keeps_handles_Ret.
Qed.

Lemma mainErr_db_keeps (env : Env) (h : Trace) (stack : list Handle) :
  keeps_handles env h stack mainErr_db.
Proof.
  unfold keeps_handles, mainErr_db. rewrite <- exec_forget.
  unfold exec. rewrite NewDBResource_capturing_forget.
  apply NewDBResource_keeps. intros db _.
  unfold keeps_handles. rewrite exec_forget.
  apply mainErr_db_callback_keeps, held_top.
Qed.

(** X8.  The functions on the database keep the handles in order.
    Given a database that is held, [initDB] and [helloSql_Cool] use it
    and leave the handles as they found them: [helloSql_Cool] ends its
    transaction, by [Commit] or [Rollback], after closing the cursor
    it opened in it, executes and queries inside the transaction only,
    reads the cursor before closing it only, and does not close the
    database.  The database block of [mainErr] closes the database it
    opened, after everything else, whichever calls fail. *)
Theorem database_functions_keep_handles (env : Env) (h : Trace)
        (stack : list Handle) (db : DB) :
  held (HDB db) stack = true ->
  keeps_handles env h stack (initDB db)
  /\ (forall name, keeps_handles env h stack (helloSql_Cool db name))
  /\ (forall name, keeps_handles env h stack (helloSql_NotCoolAtAll db name))
  /\ (forall printed,
         keeps_handles env h stack (mainErr_db_callback db printed))
  /\ (forall stack', keeps_handles env h stack' mainErr_db).
Proof.
  intro Hd. split; [| split; [| split; [| split]]].
  - apply initDB_keeps, Hd.
  - intro name. apply helloSql_Cool_keeps, Hd.
  - intro name. reflexivity.
  - intro printed. apply mainErr_db_callback_keeps, Hd.
  - intro stack'. apply mainErr_db_keeps.
Qed.

Lemma database_functions_keep_handles_witness :
  track [HDB (MkDB 1)]
        (exec (env_failing [KNext; KRowsClose]) []
              (helloSql_Cool (MkDB 1) "MessageBird"))
  = Some [HDB (MkDB 1)].
Proof.
  apply (database_functions_keep_handles
           (env_failing [KNext; KRowsClose]) [] [HDB (MkDB 1)] (MkDB 1)
           eq_refl).
Defined.

(** X9.  [helloSql_Cool] makes the calls and returns the error of the
    [Use] of [RunTransaction] on a callback that inserts the name and
    then runs the [Use] of [QueryRows]; and the string it returns is
    what the last [Scan] left in [result], the empty string if [Scan]
    was never called, whether or not an error is returned with it. *)
Theorem helloSql_Cool_composes (env : Env) (h : Trace) (db : DB)
        (name : string) :
  exec env h (helloSql_Cool db name)
  = exec env h (Use (RunTransaction db) (insert_and_greet_error name))
  /\ snd (eval env h (helloSql_Cool db name))
     = eval env h (Use (RunTransaction db) (insert_and_greet_error name))
  /\ fst (eval env h (helloSql_Cool db name))
     = scanned EmptyString (exec env h (helloSql_Cool db name)).
Proof.
  unfold eval, exec, helloSql_Cool, RunTransaction_capturing,
    insert_and_greet, QueryRows_capturing, scan_hello, RunTransaction,
    insert_and_greet_error, QueryRows, scan_hello_error, forget, Use.
  simpl.
  destruct (env h _ (DBBegin db)) as [tx | e0]; simpl; [| auto].
  destruct (env _ _ (TxExec tx addNameQuery [name])) as [r1 [e1 |]];
    simpl; [auto |].
  destruct (env _ _ (TxQuery tx helloQuery [name])) as [rows | e2];
    simpl; [| auto].
  destruct (env _ _ (RowsScan rows)) as [v [e3 |]]; simpl; [auto |].
  destruct (env _ _ (RowsClose rows)) as [e4 |]; simpl; auto.
Qed.

(** X10.  [helloSql_Cool] returns the error of the first call that
    failed; after a failed call it makes cleanup calls only (it closes
    the cursor and rolls back); and it commits only when every call
    before succeeded, making no call after [Commit]. *)
Theorem helloSql_Cool_fails_cleanly (env : Env) (h : Trace) (db : DB)
        (name : string) :
  snd (eval env h (helloSql_Cool db name))
  = first_failure (exec env h (helloSql_Cool db name))
  /\ stops_at_failure env h (helloSql_Cool db name)
  /\ commits_clean false (exec env h (helloSql_Cool db name)) = true.
Proof.
  unfold stops_at_failure, eval, exec, helloSql_Cool,
    RunTransaction_capturing, insert_and_greet, QueryRows_capturing,
    scan_hello.
  simpl.
  destruct (env h _ (DBBegin db)) as [tx | e0]; simpl; [| auto].
  destruct (env _ _ (TxExec tx addNameQuery [name])) as [r1 [e1 |]];
    simpl; [auto |].
  destruct (env _ _ (TxQuery tx helloQuery [name])) as [rows | e2];
    simpl; [| auto].
  destruct (env _ _ (RowsScan rows)) as [v [e3 |]]; simpl; [auto |].
  destruct (env _ _ (RowsClose rows)) as [e4 |]; simpl; [auto |].
  destruct (env _ _ (TxCommit tx)) as [e5 |]; simpl; auto.
Qed.

(** X11.  When the transaction begins, the insert succeeds and the
    query succeeds, [helloSql_Cool] calls [Next] and then [Scan] on the
    cursor whatever [Next] answered, closes the cursor, and only then
    ends the transaction: with [Commit] when [Scan] and the close both
    succeeded, with [Rollback] otherwise, so that a failed close of the
    cursor undoes the insert.  The string returned is the one [Scan]
    left, also when the close or the commit fails. *)
Theorem helloSql_Cool_after_query (env : Env) (h : Trace) (db : DB)
        (name : string) (tx : Tx) (r : SqlResult) (rows : Rows) :
  env h _ (DBBegin db) = Ok tx ->
  let h1 := h ++ [Ev (DBBegin db) (Ok tx)] in
  env h1 _ (TxExec tx addNameQuery [name]) = (r, None) ->
  let h2 := h1 ++ [Ev (TxExec tx addNameQuery [name]) (r, None)] in
  env h2 _ (TxQuery tx helloQuery [name]) = Ok rows ->
  let h3 := h2 ++ [Ev (TxQuery tx helloQuery [name]) (Ok rows)] in
  let more := env h3 _ (RowsNext rows) in
  let h4 := h3 ++ [Ev (RowsNext rows) more] in
  let scan := env h4 _ (RowsScan rows) in
  let h5 := h4 ++ [Ev (RowsScan rows) scan] in
  let closed := env h5 _ (RowsClose rows) in
  let h6 := h5 ++ [Ev (RowsClose rows) closed] in
  let ending :=
    match snd scan, closed with
    | None, None => Ev (TxCommit tx) (env h6 _ (TxCommit tx))
    | _, _ => Ev (TxRollback tx) (env h6 _ (TxRollback tx))
    end in
  exec env h (helloSql_Cool db name)
  = [Ev (DBBegin db) (Ok tx);
     Ev (TxExec tx addNameQuery [name]) (r, None);
     Ev (TxQuery tx helloQuery [name]) (Ok rows);
     Ev (RowsNext rows) more;
     Ev (RowsScan rows) scan;
     Ev (RowsClose rows) closed;
     ending]
  /\ fst (eval env h (helloSql_Cool db name)) = fst scan.
Proof.
  intros E0 h1 E1 h2 E2 h3 more h4 scan h5 closed h6 ending.
  unfold eval, exec, helloSql_Cool, RunTransaction_capturing,
    insert_and_greet, QueryRows_capturing, scan_hello.
  simpl. rewrite E0. simpl. fold h1. rewrite E1. simpl. fold h2.
  rewrite E2. simpl. fold h3. fold more. fold h4. fold scan.
  subst ending. destruct scan as [v [e3 |]] eqn:S; simpl.
  - fold h5. fold closed. fold h6. destruct closed; auto.
  - fold h5. fold closed. fold h6. destruct closed as [e4 |] eqn:C; simpl.
    + fold h6. auto.
    + fold h6. auto.
Qed.

Lemma helloSql_Cool_after_query_witness :
  exec (env_failing [KNext; KRowsClose]) [] (helloSql_Cool (MkDB 1) "MessageBird")
  = [Ev (DBBegin (MkDB 1)) (Ok (MkTx 0));
     Ev (TxExec (MkTx 0) addNameQuery ["MessageBird"]) (MkSqlResult 1, None);
     Ev (TxQuery (MkTx 0) helloQuery ["MessageBird"]) (Ok (MkRows 2));
     Ev (RowsNext (MkRows 2)) false;
     Ev (RowsScan (MkRows 2)) ("Hello, #1", None);
     Ev (RowsClose (MkRows 2)) (Some (kind_error KRowsClose));
     Ev (TxRollback (MkTx 0)) None]
  /\ fst (eval (env_failing [KNext; KRowsClose]) []
               (helloSql_Cool (MkDB 1) "MessageBird"))
     = "Hello, #1".
Proof.
  apply (@helloSql_Cool_after_query
           (env_failing [KNext; KRowsClose]) [] (MkDB 1) "MessageBird"
           (MkTx 0) (MkSqlResult 1) (MkRows 2));
    reflexivity.
Defined.

(** ** The database block of [mainErr] *)

Lemma committed_app (t u : Trace) :
  committed (t ++ u) = committed t || committed u.
Proof. apply existsb_app. Qed.

Lemma scanned_app (v : string) (t u : Trace) :
  scanned v (t ++ u) = scanned (scanned v t) u.
Proof.
  revert v; induction t as [| [R c r] t IH]; intro v; simpl;
    [reflexivity | apply IH].
Qed.

Lemma helloSql_Cool_outcome (env : Env) (h : Trace) (db : DB)
      (name : string) :
  snd (eval env h (helloSql_Cool db name))
  = first_failure (exec env h (helloSql_Cool db name))
  /\ cleanup_after_failure (exec env h (helloSql_Cool db name)) = true
  /\ committed (exec env h (helloSql_Cool db name))
     = match snd (eval env h (helloSql_Cool db name)) with
       | None => true
       | Some _ => false
       end
  /\ fst (eval env h (helloSql_Cool db name))
     = scanned EmptyString (exec env h (helloSql_Cool db name)).
Proof.
  unfold eval, exec, helloSql_Cool, RunTransaction_capturing,
    insert_and_greet, QueryRows_capturing, scan_hello.
  simpl.
  destruct (env h _ (DBBegin db)) as [tx | e0]; simpl; [| auto].
  destruct (env _ _ (TxExec tx addNameQuery [name])) as [r1 [e1 |]];
    simpl; [auto |].
  destruct (env _ _ (TxQuery tx helloQuery [name])) as [rows | e2];
    simpl; [| auto].
  destruct (env _ _ (RowsScan rows)) as [v0 [e3 |]]; simpl; [auto |].
  destruct (env _ _ (RowsClose rows)) as [e4 |]; simpl; [auto |].
  destruct (env _ _ (TxCommit tx)) as [e5 |]; simpl; auto.
Qed.

Lemma initDB_run (env : Env) (h : Trace) (db : DB) :
  eval env h (initDB db) = snd (env h _ (DBExec db createTableQuery []))
  /\ exec env h (initDB db)
     = [Ev (DBExec db createTableQuery [])
           (env h _ (DBExec db createTableQuery []))].
Proof.
  unfold eval, exec, initDB. simpl.
  destruct (env h _ (DBExec db createTableQuery [])) as [r e].
  split; reflexivity.
Qed.

Lemma mainErr_db_callback_outcome (env : Env) (h : Trace) (db : DB) :
  fst (eval env h (mainErr_db_callback db []))
  = first_failure (exec env h (mainErr_db_callback db []))
  /\ cleanup_after_failure (exec env h (mainErr_db_callback db [])) = true
  /\ snd (eval env h (mainErr_db_callback db []))
     = if committed (exec env h (mainErr_db_callback db []))
       then [scanned EmptyString (exec env h (mainErr_db_callback db []));
             EmptyString]
       else [].
Proof.
  unfold mainErr_db_callback.
  rewrite eval_bind, exec_bind.
  destruct (initDB_run env h db) as [-> ->].
  destruct (env h _ (DBExec db createTableQuery [])) as [r0 [e0 |]].
  - simpl. auto.
  - cbn [snd]. unfold helloSql_NotCoolAtAll. autorewrite with runs.
    match goal with
    | |- context [exec env ?h1 (helloSql_Cool db ?name)] =>
        destruct (helloSql_Cool_outcome env h1 db name) as (F & K & Cm & Sc);
        remember (exec env h1 (helloSql_Cool db name)) as t1 eqn:Et;
        destruct (eval env h1 (helloSql_Cool db name)) as [result1 err1]
    end.
    clear Et. simpl in F, Cm, Sc. subst result1 err1.
    simpl.
    destruct (first_failure t1) as [e1 |] eqn:Ff; autorewrite with runs;
      rewrite Ff, Cm; auto.
Qed.

(** X12.  The database block of [mainErr].  It returns the error of
    the first call that failed, and after a failed call it makes
    cleanup calls only.  It prints if and only if the transaction of
    [helloSql_Cool] was committed: then it has printed the greeting
    that [Scan] read followed by the empty string of
    [helloSql_NotCoolAtAll], even if closing the database fails
    afterwards and an error is returned; otherwise it has printed
    nothing. *)
Theorem mainErr_db_prints_iff_committed (env : Env) (h : Trace) :
  fst (eval env h mainErr_db) = first_failure (exec env h mainErr_db)
  /\ stops_at_failure env h mainErr_db
  /\ snd (eval env h mainErr_db)
     = if committed (exec env h mainErr_db)
       then [scanned EmptyString (exec env h mainErr_db); EmptyString]
       else [].
Proof.
  unfold stops_at_failure, mainErr_db, NewDBResource_capturing.
  autorewrite with runs.
  destruct (env h _ (SqlOpen "sqlite3" "./demo.sqlite")) as [db | e];
    cbv beta iota; autorewrite with runs; [| simpl; auto].
  match goal with
  | |- context [exec env ?h1 (mainErr_db_callback db [])] =>
      destruct (mainErr_db_callback_outcome env h1 db) as (F & K & P);
      remember (exec env h1 (mainErr_db_callback db [])) as t1 eqn:Et;
      destruct (eval env h1 (mainErr_db_callback db [])) as [err printed]
  end.
  clear Et. simpl in F, P. subst err printed. simpl.
  destruct (first_failure t1) as [e1 |] eqn:Ff; autorewrite with runs;
    simpl; rewrite first_failure_app, committed_app, scanned_app, Ff;
    simpl; rewrite orb_false_r;
    (split; [| split; [apply cleanup_after_release;
                        [reflexivity | exact K] |]]);
    try reflexivity.
  destruct (env _ _ (DBClose db)); reflexivity.
Qed.

(* ================================================================= *)
(** * Further properties of the balanced spawner *)



(** X14.  The spawner itself never panics.  With tasks that leave the
    wait group alone, a crashed execution ended with an instruction of
    one of the tasks, run by its goroutine: a [panic], or an action that
    panicked.  No [Add] of [Run] ever takes the counter below 0. *)
Theorem only_tasks_panic (Mem : Type) (tasks : list (Code Mem)) (m : Mem)
        (tr : list (nat * Instr Mem)) (s : State Mem) :
  forallb (@leaves_wg_alone Mem) tasks = true ->
  reach (init (submit_then_wait tasks) m) tr s ->
  crashed s = true ->
  exists tr0 s0 j t ins,
    tr = tr0 ++ [(S j, ins)]
    /\ reach (init (submit_then_wait tasks) m) tr0 s0
    /\ crashed s0 = false
    /\ nth_error tasks j = Some t
    /\ In ins t
    /\ ((exists f, ins = IAct f /\ f (mem s0) = None) \/ ins = IPanic).
Proof.
  intros alone R C.
  destruct R as [| tr s i ins s' R St]; [discriminate C |].
  pose proof (proj1 (@step_cases _ _ _ _ _ St)) as C0.
  assert (I : exit_inv tasks tr s) by (eapply exit_inv_reach; eauto).
  edestruct (@exit_crash Mem tasks) as (j & t & -> & Nt & In' & K);
    [exact alone | exact I | exact St | exact C |].
  exists tr, s, j, t, ins.
  split; [reflexivity |]. split; [exact R |]. split; [exact C0 |].
  split; [exact Nt |]. split; [exact In' | exact K].
Qed.

Lemma only_tasks_panic_witness :
  exists tr0 s0 j t ins,
    [(0, IAdd 1); (0, IGo (goroutine failing_action_task));
     (1, IAct (fun _ : unit => None))]
    = tr0 ++ [(S j, ins)]
    /\ reach (init (submit_then_wait [failing_action_task]) tt) tr0 s0
    /\ crashed s0 = false
    /\ nth_error [failing_action_task] j = Some t
    /\ In ins t
    /\ ((exists f, ins = IAct f /\ f (mem s0) = None) \/ ins = IPanic).
Proof.
  apply (@only_tasks_panic
           unit [failing_action_task] tt
           [(0, IAdd 1); (0, IGo (goroutine failing_action_task));
            (1, IAct (fun _ : unit => None))]
           after_failing_action eq_refl
           (@run_schedule_reach
              unit [0; 0; 1]
              (init (submit_then_wait [failing_action_task]) tt)
              [(0, IAdd 1); (0, IGo (goroutine failing_action_task));
               (1, IAct (fun _ : unit => None))]
              after_failing_action eq_refl)
           eq_refl).
Defined.

(** X15.  The loop of [mainErr] with any number [n] of slots: no
    execution crashes (no index is out of range); at every moment of
    every execution the slice has [n] slots and slot [j] holds the
    empty string or [j] stars, never anything else; and once [Wait] has
    returned slot [j] holds [j] stars, for every [j] below [n]. *)
Theorem stars_at_every_moment (n : nat)
        (tr : list (nat * Instr (list string))) (s : State (list string)) :
  reach (stars_init n) tr s ->
  crashed s = false
  /\ List.length (mem s) = n
  /\ (forall j, j < n ->
                nth_error (mem s) j = Some EmptyString
                \/ nth_error (mem s) j = Some (strings_Repeat "*" j))
  /\ (nth_error (threads s) 0 = Some [] ->
      mem s = map (strings_Repeat "*") (seq 0 n)).
Proof.
  intro R. destruct (stars_reach R) as [C [Ln Sl]].
  split; [exact C |]. split; [exact Ln |]. split.
  - intros j L. rewrite (Sl j L). unfold stars_slot.
    destruct (instrs_by (S j) tr); auto.
  - intro M. apply (stars_waited R M).
Qed.

Lemma stars_at_every_moment_witness :
  List.length (mem mainErr_final) = 10
  /\ mem mainErr_final = map (strings_Repeat "*") (seq 0 10).
Proof.
  destruct (stars_at_every_moment mainErr_reach) as (_ & L & _ & W).
  split; [exact L | apply W; vm_compute; reflexivity].
Defined.
